(** * ChatGPT conversation exporter: extraction and notation repair

    A shallow embedding of the DOM extraction pipeline
    (src/content/dom/selectors.ts, src/content/dom/parser.ts), of the
    LaTeX utilities (the notation repair passes, the renderer adapter and
    the expression scanners of the shared LaTeX module, the repair pass of
    src/exporters/pdf.ts) and of the export handler of the service worker,
    with the properties the specification states about them.

    Conventions.
    - A JavaScript string is the list of its UTF-16 code units, each an [N].
    - A regular expression literal of the source is a term of [Regex.re];
      the source text of the literal is quoted next to each term.
    - The DOM is a forest of trees addressed by paths; the live page is one
      tree of it, every [cloneNode] adds a tree. *)

From Stdlib Require Import String Ascii DecimalString.
From Stdlib Require Import NArith Bool Arith Lia List.
Import ListNotations.

(* ===================================================================== *)
(** * JavaScript strings *)
(* ===================================================================== *)

Module JsString.

(** A string is a sequence of UTF-16 code units. *)
Definition jsstring := list N.

(** The code units of an ASCII literal. *)
Definition js (s : string) : jsstring :=
  map N_of_ascii (list_ascii_of_string s).

Arguments js s%_string.

(** The line feed, U+000A. *)
Definition js_newline : jsstring := [10%N].

(** The quotation mark, U+0022. *)
Definition dquote : jsstring := [34%N].

Fixpoint str_eqb (a b : jsstring) : bool :=
  match a, b with
  | [], [] => true
  | x :: a', y :: b' => N.eqb x y && str_eqb a' b'
  | _, _ => false
  end.

(** [s.startsWith(p)] *)
Fixpoint startsWith (p s : jsstring) : bool :=
  match p, s with
  | [], _ => true
  | x :: p', y :: s' => N.eqb x y && startsWith p' s'
  | _ :: _, [] => false
  end.

(** [s.includes(p)] *)
Fixpoint includes (p s : jsstring) : bool :=
  startsWith p s ||
  match s with
  | [] => false
  | _ :: s' => includes p s'
  end.

(** [s.endsWith(p)] *)
Definition endsWith (p s : jsstring) : bool :=
  startsWith (rev p) (rev s).

(** [s.slice(0, -1)] *)
Definition dropLast (s : jsstring) : jsstring := removelast s.

(** [s.substring(0, n)] *)
Definition substring0 (n : nat) (s : jsstring) : jsstring := firstn n s.

(** White space and line terminators of ECMAScript: the class [\s] of a
    regular expression and the code units [trim] strips. *)
Definition is_space (c : N) : bool :=
  ((9 <=? c) && (c <=? 13) || (c =? 32) || (c =? 160) || (c =? 5760) ||
   (8192 <=? c) && (c <=? 8202) || (c =? 8232) || (c =? 8233) ||
   (c =? 8239) || (c =? 8287) || (c =? 12288) || (c =? 65279))%N.

(** The line terminators: LF, CR, LS and PS. *)
Definition is_line_terminator (c : N) : bool :=
  ((c =? 10) || (c =? 13) || (c =? 8232) || (c =? 8233))%N.

Definition is_digit (c : N) : bool := ((48 <=? c) && (c <=? 57))%N.

Definition is_alpha (c : N) : bool :=
  ((65 <=? c) && (c <=? 90) || (97 <=? c) && (c <=? 122))%N.

Fixpoint trimStart (s : jsstring) : jsstring :=
  match s with
  | c :: s' => if is_space c then trimStart s' else s
  | [] => []
  end.

Definition trimEnd (s : jsstring) : jsstring := rev (trimStart (rev s)).

(** [s.trim()] *)
Definition trim (s : jsstring) : jsstring := trimEnd (trimStart s).

(** [c.repeat(n)] for a one-unit string. *)
Definition repeat1 (c : N) (n : nat) : jsstring := repeat c n.

(** Truthiness of a string: the empty string is falsy. *)
Definition truthy (s : jsstring) : bool :=
  match s with [] => false | _ :: _ => true end.

(** Number of occurrences of a code unit:
    [(s.match(/c/g) || []).length] for a one-unit pattern. *)
Definition count (c : N) (s : jsstring) : nat :=
  length (filter (N.eqb c) s).

(** [String(n)] for a non-negative integer: its decimal digits. *)
Definition of_nat (n : nat) : jsstring :=
  map N_of_ascii
      (list_ascii_of_string (NilZero.string_of_uint (Nat.to_uint n))).

Fixpoint concat (l : list jsstring) : jsstring :=
  match l with
  | [] => []
  | s :: l' => s ++ concat l'
  end.

(** [l.join(sep)] *)
Fixpoint join (sep : jsstring) (l : list jsstring) : jsstring :=
  match l with
  | [] => []
  | [s] => s
  | s :: l' => s ++ sep ++ join sep l'
  end.

End JsString.

Import JsString.

(* ===================================================================== *)
(** * Regular expressions with backtracking *)
(* ===================================================================== *)

Module Regex.

(** Character classes, kept syntactic so that properties of a pattern can
    be decided. *)
Inductive cclass :=
| COne (c : N)              (* a literal code unit *)
| COneOf (cs : list N)      (* [abc] *)
| CNot (cs : list N)        (* [^abc] *)
| CSpace                    (* \s *)
| CDigit                    (* \d *)
| CAlpha                    (* [a-zA-Z] *)
| CAlnumDash                (* [a-zA-Z0-9-] *)
| CAny.                     (* [\s\S] *)

Fixpoint mem (c : N) (cs : list N) : bool :=
  match cs with
  | [] => false
  | d :: cs' => N.eqb c d || mem c cs'
  end.

Definition cmatch (cl : cclass) (c : N) : bool :=
  match cl with
  | COne d => N.eqb c d
  | COneOf cs => mem c cs
  | CNot cs => negb (mem c cs)
  | CSpace => is_space c
  | CDigit => is_digit c
  | CAlpha => is_alpha c
  | CAlnumDash => is_alpha c || is_digit c || N.eqb c 45
  | CAny => true
  end.

Inductive re :=
| Chr (cl : cclass)         (* one code unit of a class *)
| Eps                       (* the empty pattern *)
| Seq (a b : re)            (* ab *)
| Alt (a b : re)            (* a|b, left alternative first *)
| Star (cl : cclass)        (* c*, greedy *)
| Grp (a : re)              (* (a), capturing *)
| Bol                       (* ^ without the m flag *)
| Eoi                       (* $ without the m flag *)
| BolM                      (* ^ with the m flag *)
| EolM                      (* $ with the m flag *)
| NotAhead (a : re)         (* (?!a) *)
| NotBehind (cl : cclass).  (* (?<!c) *)

(** A matcher state: the input already passed (most recent unit first), the
    input still ahead, and the captures closed so far. *)
Record mstate := MState {
  prev : list N;
  rest : list N;
  caps : list jsstring
}.

(** The ways [c*] can match, longest first: the order in which a greedy
    quantifier gives units back under backtracking. *)
Fixpoint star (cl : cclass) (pv rs : list N) : list (list N * list N) :=
  match rs with
  | c :: rs' =>
      if cmatch cl c then star cl (c :: pv) rs' ++ [(pv, rs)]
      else [(pv, rs)]
  | [] => [(pv, rs)]
  end.

(** All the ways [r] matches at a state, in the priority order of a
    backtracking matcher: the first element is the match the engine
    reports. *)
Fixpoint m (r : re) (st : mstate) : list mstate :=
  match r with
  | Chr cl =>
      match rest st with
      | c :: rs' =>
          if cmatch cl c then [MState (c :: prev st) rs' (caps st)] else []
      | [] => []
      end
  | Eps => [st]
  | Seq a b => flat_map (m b) (m a st)
  | Alt a b => m a st ++ m b st
  | Star cl =>
      map (fun p => MState (fst p) (snd p) (caps st))
          (star cl (prev st) (rest st))
  | Grp a =>
      map (fun st' =>
             MState (prev st') (rest st')
                    (caps st' ++
                     [firstn (length (rest st) - length (rest st')) (rest st)]))
          (m a st)
  | Bol => match prev st with [] => [st] | _ :: _ => [] end
  | Eoi => match rest st with [] => [st] | _ :: _ => [] end
  | BolM =>
      match prev st with
      | [] => [st]
      | c :: _ => if is_line_terminator c then [st] else []
      end
  | EolM =>
      match rest st with
      | [] => [st]
      | c :: _ => if is_line_terminator c then [st] else []
      end
  | NotAhead a => match m a st with [] => [st] | _ :: _ => [] end
  | NotBehind cl =>
      match prev st with
      | c :: _ => if cmatch cl c then [] else [st]
      | [] => [st]
      end
  end.

(** The match of [r] that starts exactly at the current position. *)
Definition exec_at (r : re) (pv rs : list N) : option mstate :=
  hd_error (m r (MState pv rs [])).

(** ** Pattern combinators *)

Fixpoint lit_units (s : jsstring) : re :=
  match s with
  | [] => Eps
  | [c] => Chr (COne c)
  | c :: s' => Seq (Chr (COne c)) (lit_units s')
  end.

(** A literal word. *)
Definition lit (s : string) : re := lit_units (js s).

(** [w1|w2|...] *)
Fixpoint alts (ws : list string) : re :=
  match ws with
  | [] => NotAhead Eps
  | [w] => lit w
  | w :: ws' => Alt (lit w) (alts ws')
  end.

(** [c+] *)
Definition plus (cl : cclass) : re := Seq (Chr cl) (Star cl).

Fixpoint seq (rs : list re) : re :=
  match rs with
  | [] => Eps
  | [r] => r
  | r :: rs' => Seq r (seq rs')
  end.

(** ** Replacement templates *)

Inductive titem :=
| TLit (s : jsstring)       (* literal text *)
| TGrp (n : nat).           (* $n, n counted from 1 *)

Definition template := list titem.

Definition expand1 (cs : list jsstring) (t : titem) : jsstring :=
  match t with
  | TLit s => s
  | TGrp n => nth (n - 1) cs []
  end.

Definition expand (tpl : template) (cs : list jsstring) : jsstring :=
  JsString.concat (map (expand1 cs) tpl).

(** ** Global scans *)

(** One reported match: start index, matched text, captures. *)
Record rmatch := RMatch {
  index : nat;
  whole : jsstring;
  groups : list jsstring
}.

(** [s.replace(/r/g, tpl)]: the matches are taken left to right without
    overlap. [skip] counts the units of the current match still to pass.
    After an empty match the scan moves one unit on. *)
Fixpoint replace_scan (r : re) (tpl : template) (pv rs : list N)
         (skip : nat) {struct rs} : jsstring :=
  match skip with
  | S k =>
      match rs with
      | [] => []
      | c :: rs' => replace_scan r tpl (c :: pv) rs' k
      end
  | O =>
      match exec_at r pv rs with
      | Some st' =>
          let n := length rs - length (rest st') in
          expand tpl (caps st') ++
          match rs with
          | [] => []
          | c :: rs' =>
              match n with
              | O => c :: replace_scan r tpl (c :: pv) rs' 0
              | S k => replace_scan r tpl (c :: pv) rs' k
              end
          end
      | None =>
          match rs with
          | [] => []
          | c :: rs' => c :: replace_scan r tpl (c :: pv) rs' 0
          end
      end
  end.

Definition replace_all (r : re) (tpl : template) (s : jsstring) : jsstring :=
  replace_scan r tpl [] s 0.

(** [s.replace(/r/, tpl)] without the g flag: the leftmost match only. *)
Fixpoint replace_first_scan (r : re) (tpl : template) (pv rs : list N)
         {struct rs} : jsstring :=
  match exec_at r pv rs with
  | Some st' =>
      expand tpl (caps st') ++ rest st'
  | None =>
      match rs with
      | [] => []
      | c :: rs' => c :: replace_first_scan r tpl (c :: pv) rs'
      end
  end.

Definition replace_first (r : re) (tpl : template) (s : jsstring) : jsstring :=
  replace_first_scan r tpl [] s.

(** The successive results of [re.exec(s)] on a regular expression with the
    g flag, until it returns null. *)
Fixpoint exec_scan (r : re) (pv rs : list N) (skip : nat) {struct rs}
  : list rmatch :=
  match skip with
  | S k =>
      match rs with
      | [] => []
      | c :: rs' => exec_scan r (c :: pv) rs' k
      end
  | O =>
      match exec_at r pv rs with
      | Some st' =>
          let n := length rs - length (rest st') in
          RMatch (length pv) (firstn n rs) (caps st') ::
          match rs with
          | [] => []
          | c :: rs' => exec_scan r (c :: pv) rs' (n - 1)
          end
      | None =>
          match rs with
          | [] => []
          | c :: rs' => exec_scan r (c :: pv) rs' 0
          end
      end
  end.

Definition exec_all (r : re) (s : jsstring) : list rmatch :=
  exec_scan r [] s 0.

(** [re.test(s)] and [s.match(re)] without the g flag: the leftmost match. *)
Fixpoint search (r : re) (pv rs : list N) {struct rs} : option rmatch :=
  match exec_at r pv rs with
  | Some st' =>
      Some (RMatch (length pv)
                   (firstn (length rs - length (rest st')) rs) (caps st'))
  | None =>
      match rs with
      | [] => None
      | c :: rs' => search r (c :: pv) rs'
      end
  end.

Definition test (r : re) (s : jsstring) : bool :=
  match search r [] s with Some _ => true | None => false end.

(** ** What a pattern needs *)

(** [needs T r]: every match of [r] contains a code unit of [T]. *)
Fixpoint needs (T : list N) (r : re) : bool :=
  match r with
  | Chr (COne c) => mem c T
  | Chr (COneOf cs) => forallb (fun c => mem c T) cs
  | Chr _ => false
  | Seq a b => needs T a || needs T b
  | Alt a b => needs T a && needs T b
  | Grp a => needs T a
  | _ => false
  end.

End Regex.

Import Regex.

(* ===================================================================== *)
(** * The notation repair passes (shared LaTeX module) *)
(* ===================================================================== *)

Module Repair.

(** One statement [x = x.replace(/pat/flags, replacement)] of the source:
    the literal as written there, its pattern, whether it carries the g
    flag, and its replacement. *)
Record rule := Rule {
  source : string;
  pat : re;
  global : bool;
  tpl : template
}.

Definition apply_rule (rl : rule) (s : jsstring) : jsstring :=
  if global rl then replace_all (pat rl) (tpl rl) s
  else replace_first (pat rl) (tpl rl) s.

(** The statements run in order, each on the result of the one before. *)
Definition apply_rules (rls : list rule) (s : jsstring) : jsstring :=
  fold_left (fun acc rl => apply_rule rl acc) rls s.

Definition T (s : string) : titem := TLit (js s).
Arguments T s%_string.

Definition ws : re := Star CSpace.
Definition ws1 : re := plus CSpace.
Definition digit : re := Chr CDigit.
Definition not_close_paren : re := plus (CNot [41%N]).
Definition not_close_brace : re := plus (CNot [125%N]).

Definition bar_commands_short : list string :=
  ["frac"; "left"; "right"; "sqrt"; "sin"; "cos"; "tan"; "text";
   "Rightarrow"]%string.

Definition bar_commands : list string :=
  ["frac"; "left"; "right"; "sqrt"; "sin"; "cos"; "tan"; "text";
   "Rightarrow"; "neq"; "leq"; "geq"; "pi"]%string.

Definition operator_names : list string :=
  ["frac"; "sin"; "cos"; "tan"; "log"; "ln"; "exp"; "sqrt"]%string.

(** ** fixCorruptedLatexPatterns: the pass over the full text *)

Definition fixRules : list rule :=
  [ Rule "/\\\$/g" (lit "\$") true [T "$"];
    Rule "/\|(frac|left|right|sqrt|sin|cos|tan|text|Rightarrow)/g"
         (seq [lit "|"; Grp (alts bar_commands_short)]) true [T "\"; TGrp 1];
    Rule "/\\langle\s*/g" (seq [lit "\langle"; ws]) true [T "{"];
    Rule "/\s*\\rangle/g" (seq [ws; lit "\rangle"]) true [T "}"];
    Rule "/<([^>]+)>/g"
         (seq [lit "<"; Grp (plus (CNot [62%N])); lit ">"]) true
         [T "{"; TGrp 1; T "}"];
    Rule "/\\backslash\s*/g" (seq [lit "\backslash"; ws]) true [T "\"];
    Rule "/\\f\s*r\s*a\s*c/g"
         (seq [lit "\f"; ws; lit "r"; ws; lit "a"; ws; lit "c"]) true
         [T "\frac"];
    Rule "/\\s\s*q\s*r\s*t/g"
         (seq [lit "\s"; ws; lit "q"; ws; lit "r"; ws; lit "t"]) true
         [T "\sqrt"];
    Rule "/\\t\s*e\s*x\s*t/g"
         (seq [lit "\t"; ws; lit "e"; ws; lit "x"; ws; lit "t"]) true
         [T "\text"] ].

Definition fixCorruptedLatexPatterns (text : jsstring) : jsstring :=
  apply_rules fixRules text.

(** ** cleanLatexContent: the pass over one formula *)

Definition cleanRules : list rule :=
  [ Rule "/\.\s*$/" (seq [lit "."; ws; Eoi]) false [];
    Rule "/\|(frac|left|right|sqrt|sin|cos|tan|text|Rightarrow|neq|leq|geq|pi)/g"
         (seq [lit "|"; Grp (alts bar_commands)]) true [T "\"; TGrp 1];
    Rule "/\\langle\s*/g" (seq [lit "\langle"; ws]) true [T "{"];
    Rule "/\s*\\rangle/g" (seq [ws; lit "\rangle"]) true [T "}"];
    Rule "/\\backslash\s*/g" (seq [lit "\backslash"; ws]) true [T "\"];
    Rule "/\\\{operatorname\{(frac|sin|cos|tan|log|ln|exp|sqrt)\}\}/g"
         (seq [lit "\{operatorname{"; Grp (alts operator_names); lit "}}"])
         true [T "\"; TGrp 1];
    Rule "/\{\\operatorname\{(frac|sin|cos|tan|log|ln|exp|sqrt)\}/g"
         (seq [lit "{\operatorname{"; Grp (alts operator_names); lit "}"])
         true [T "\"; TGrp 1; T "{"];
    Rule "/\\operatorname\{(frac|sin|cos|tan|log|ln|exp|sqrt)\}/g"
         (seq [lit "\operatorname{"; Grp (alts operator_names); lit "}"])
         true [T "\"; TGrp 1];
    Rule "/\\left\\\{frac/g" (lit "\left\{frac") true [T "\left(\frac"];
    Rule "/\\left\{frac/g" (lit "\left{frac") true [T "\left(\frac"];
    Rule "/\\left\{f\(/g" (lit "\left{f(") true [T "\left(\frac{"];
    Rule "/\\right\}/g" (lit "\right}") true [T "\right)"];
    Rule "/\}right\)/g" (lit "}right)") true [T "\right)"];
    Rule "/right\\\^(\d)/g" (seq [lit "right\^"; Grp digit]) true
         [T "\right)^"; TGrp 1];
    Rule "/\}right\^(\d)/g" (seq [lit "}right^"; Grp digit]) true
         [T "\right)^"; TGrp 1];
    Rule "/\(right\)/g" (lit "(right)") true [T "\right)"];
    Rule "/\\frac\(([^)]+)\)\(([^)]+)\)/g"
         (seq [lit "\frac("; Grp not_close_paren; lit ")(";
               Grp not_close_paren; lit ")"]) true
         [T "\frac{"; TGrp 1; T "}{"; TGrp 2; T "}"];
    Rule "/\\\{frac\{([^}]+)\}\{([^}]+)\}\}/g"
         (seq [lit "\{frac{"; Grp not_close_brace; lit "}{";
               Grp not_close_brace; lit "}}"]) true
         [T "\frac{"; TGrp 1; T "}{"; TGrp 2; T "}"];
    Rule "/\{frac\{([^}]+)\}\{([^}]+)\}/g"
         (seq [lit "{frac{"; Grp not_close_brace; lit "}{";
               Grp not_close_brace; lit "}"]) true
         [T "\frac{"; TGrp 1; T "}{"; TGrp 2; T "}"];
    Rule "/\\wedge/g" (lit "\wedge") true [T "^"];
    Rule "/\\\^/g" (lit "\^") true [T "^"];
    Rule "/\{\^(\d+)\}/g" (seq [lit "{^"; Grp (plus CDigit); lit "}"]) true
         [T "^{"; TGrp 1; T "}"];
    Rule "/\\mathrm\{([a-zA-Z])\}/g"
         (seq [lit "\mathrm{"; Grp (Chr CAlpha); lit "}"]) true [TGrp 1];
    Rule "/\\underline\{([^}]+)\}/g"
         (seq [lit "\underline{"; Grp not_close_brace; lit "}"]) true
         [TGrp 1];
    Rule "/\\boldsymbol\{([^}]+)\}/g"
         (seq [lit "\boldsymbol{"; Grp not_close_brace; lit "}"]) true
         [TGrp 1];
    Rule "/\\quad\s*/g" (seq [lit "\quad"; ws]) true [T " "];
    Rule "/\\qquad\s*/g" (seq [lit "\qquad"; ws]) true [T "  "];
    Rule "/\\\\\s*(?![\\[])/g"
         (seq [lit "\\"; ws; NotAhead (Chr (COneOf [92%N; 91%N]))]) true
         [T " "];
    Rule "/\\text\s*\{/g" (seq [lit "\text"; ws; lit "{"]) true [T "\text{"];
    Rule "/\\f\s+r\s+a\s+c/g"
         (seq [lit "\f"; ws1; lit "r"; ws1; lit "a"; ws1; lit "c"]) true
         [T "\frac"];
    Rule "/\\s\s+q\s+r\s+t/g"
         (seq [lit "\s"; ws1; lit "q"; ws1; lit "r"; ws1; lit "t"]) true
         [T "\sqrt"];
    Rule "/\\neq\s+0/g" (seq [lit "\neq"; ws1; lit "0"]) true [T "\neq 0"];
    Rule "/\\text\(\s*/g" (seq [lit "\text("; ws]) true [T "\text{"];
    Rule "/\s*\)\\text/g" (seq [ws; lit ")\text"]) true [T "}"] ].

Definition open_brace : N := 123.
Definition close_brace : N := 125.

(** The last statements of cleanLatexContent:
    [openBraces = (cleaned.match(/\{/g) || []).length], the same for the
    closing brace, and [if (openBraces > closeBraces)
    cleaned += '}'.repeat(openBraces - closeBraces)]. *)
Definition balanceBraces (cleaned : jsstring) : jsstring :=
  let openBraces := count open_brace cleaned in
  let closeBraces := count close_brace cleaned in
  if closeBraces <? openBraces
  then cleaned ++ repeat1 close_brace (openBraces - closeBraces)
  else cleaned.

Definition cleanLatexContent (latex : jsstring) : jsstring :=
  balanceBraces (apply_rules cleanRules latex).

(** The code units that can start or complete a rewrite of each pass. *)
Definition fixTriggers : list N := [92; 124; 60]%N.
Definition cleanTriggers : list N := [92; 124; 123; 125; 40; 46]%N.

(** [s] has no code unit of [T]. *)
Definition free_of (T : list N) (s : jsstring) : Prop :=
  Forall (fun c => mem c T = false) s.

Definition free_ofb (T : list N) (s : jsstring) : bool :=
  forallb (fun c => negb (mem c T)) s.

End Repair.

Import Repair.

(* ===================================================================== *)
(** * The repair pass of the PDF exporter (src/exporters/pdf.ts) *)
(* ===================================================================== *)

Module PdfExporter.

Definition dash : cclass := COne 45.
Definition newline : cclass := COne 10.

(** [-{3,}] *)
Definition dashes3 : re := seq [Chr dash; Chr dash; Chr dash; Star dash].

Definition trig_names : list string :=
  ["cos"; "sin"; "tan"; "log"; "ln"; "exp"; "sqrt"]%string.

(** fixCorruptedLatex, statement by statement. *)
Definition pdfRules : list rule :=
  [ Rule "/^-{3,}$/gm" (seq [BolM; dashes3; EolM]) true [];
    Rule "/\n-{3,}\n/g" (seq [Chr newline; dashes3; Chr newline]) true
         [TLit js_newline];
    Rule "/\\\$/g" (lit "\$") true [T "$"];
    Rule "/\|(frac|left|right|sqrt|sin|cos|tan|text|Rightarrow|neq|leq|geq|pi)/g"
         (seq [lit "|"; Grp (alts bar_commands)]) true [T "\"; TGrp 1];
    Rule "/\\langle\s*/g" (seq [lit "\langle"; ws]) true [T "{"];
    Rule "/\s*\\rangle/g" (seq [ws; lit "\rangle"]) true [T "}"];
    Rule "/\\backslash\s*/g" (seq [lit "\backslash"; ws]) true [T "\"];
    Rule "/\\f\s*r\s*a\s*c/g"
         (seq [lit "\f"; ws; lit "r"; ws; lit "a"; ws; lit "c"]) true
         [T "\frac"];
    Rule "/\\s\s*q\s*r\s*t/g"
         (seq [lit "\s"; ws; lit "q"; ws; lit "r"; ws; lit "t"]) true
         [T "\sqrt"];
    Rule "/\\t\s*e\s*x\s*t/g"
         (seq [lit "\t"; ws; lit "e"; ws; lit "x"; ws; lit "t"]) true
         [T "\text"];
    Rule "/\\\{operatorname\{(frac|sin|cos|tan|log|ln|exp|sqrt)\}\}/g"
         (seq [lit "\{operatorname{"; Grp (alts operator_names); lit "}}"])
         true [T "\"; TGrp 1];
    Rule "/\{\\operatorname\{(frac|sin|cos|tan|log|ln|exp|sqrt)\}/g"
         (seq [lit "{\operatorname{"; Grp (alts operator_names); lit "}"])
         true [T "\"; TGrp 1; T "{"];
    Rule "/\\operatorname\{(frac|sin|cos|tan|log|ln|exp|sqrt)\}/g"
         (seq [lit "\operatorname{"; Grp (alts operator_names); lit "}"])
         true [T "\"; TGrp 1];
    Rule "/\\left\\\{frac/g" (lit "\left\{frac") true [T "\left(\frac"];
    Rule "/\\left\{frac/g" (lit "\left{frac") true [T "\left(\frac"];
    Rule "/\\right\}/g" (lit "\right}") true [T "\right)"];
    Rule "/\}right\)/g" (lit "}right)") true [T "\right)"];
    Rule "/\(right\)/g" (lit "(right)") true [T "\right)"];
    Rule "/right\\\^(\d)/g" (seq [lit "right\^"; Grp digit]) true
         [T "\right)^"; TGrp 1];
    Rule "/\}right\^(\d)/g" (seq [lit "}right^"; Grp digit]) true
         [T "\right)^"; TGrp 1];
    Rule "/\\frac\(([^)]+)\)\(([^)]+)\)/g"
         (seq [lit "\frac("; Grp not_close_paren; lit ")(";
               Grp not_close_paren; lit ")"]) true
         [T "\frac{"; TGrp 1; T "}{"; TGrp 2; T "}"];
    Rule "/\\\{frac\{([^}]+)\}\{([^}]+)\}\}/g"
         (seq [lit "\{frac{"; Grp not_close_brace; lit "}{";
               Grp not_close_brace; lit "}}"]) true
         [T "\frac{"; TGrp 1; T "}{"; TGrp 2; T "}"];
    Rule "/\{frac\{([^}]+)\}\{([^}]+)\}/g"
         (seq [lit "{frac{"; Grp not_close_brace; lit "}{";
               Grp not_close_brace; lit "}"]) true
         [T "\frac{"; TGrp 1; T "}{"; TGrp 2; T "}"];
    Rule "/\\mathrm\{([a-zA-Z])\}/g"
         (seq [lit "\mathrm{"; Grp (Chr CAlpha); lit "}"]) true [TGrp 1];
    Rule "/\\\^/g" (lit "\^") true [T "^"];
    Rule "/\{\\wedge\}/g" (lit "{\wedge}") true [T "^"];
    Rule "/\\wedge/g" (lit "\wedge") true [T "^"];
    Rule "/\\text\s*\{/g" (seq [lit "\text"; ws; lit "{"]) true [T "\text{"];
    Rule "/\{text\{([^}]*)\}/g"
         (seq [lit "{text{"; Grp (Star (CNot [125%N])); lit "}"]) true
         [T "\text{"; TGrp 1; T "}"];
    Rule "/\\dfrac/g" (lit "\dfrac") true [T "\frac"];
    Rule "/\\quad\s*/g" (seq [lit "\quad"; ws]) true [T " "];
    Rule "/\\qquad\s*/g" (seq [lit "\qquad"; ws]) true [T "  "];
    Rule "/\\left\s*\(/g" (seq [lit "\left"; ws; lit "("]) true [T "\left("];
    Rule "/\\right\s*\)/g" (seq [lit "\right"; ws; lit ")"]) true
         [T "\right)"];
    Rule "/\\Rightarrow\s*/g" (seq [lit "\Rightarrow"; ws]) true
         [T " \Rightarrow "];
    Rule "/\\underline\{([^}]+)\}/g"
         (seq [lit "\underline{"; Grp not_close_brace; lit "}"]) true
         [TGrp 1];
    Rule "/\\boldsymbol\{([^}]+)\}/g"
         (seq [lit "\boldsymbol{"; Grp not_close_brace; lit "}"]) true
         [TGrp 1];
    Rule "/\\\s+(cos|sin|tan|log|ln|exp|sqrt)/g"
         (seq [lit "\"; ws1; Grp (alts trig_names)]) true [T "\"; TGrp 1];
    Rule "/\\\\/g" (lit "\\") true [T " "] ].

Definition fixCorruptedLatex (text : jsstring) : jsstring :=
  apply_rules pdfRules text.

(** The code units a rule of the pass needs. *)
Definition pdfTriggers : list N := [92; 124; 45; 123; 125; 40]%N.

End PdfExporter.

Import PdfExporter.

(* ===================================================================== *)
(** * The renderer adapter and the expression scanners
      (shared LaTeX module) *)
(* ===================================================================== *)

Module Latex.

(** ** escapeHtml *)

(** [text.replace(/&/g, '&amp;').replace(/</g, '&lt;')
         .replace(/>/g, '&gt;').replace(/[quotation mark]/g, '&quot;')
         .replace(/'/g, '&#39;')] *)
Definition escapeHtml (text : jsstring) : jsstring :=
  let t := replace_all (lit "&") [T "&amp;"] text in
  let t := replace_all (lit "<") [T "&lt;"] t in
  let t := replace_all (lit ">") [T "&gt;"] t in
  let t := replace_all (Chr (COne 34)) [T "&quot;"] t in
  replace_all (lit "'") [T "&#39;"] t.

(** ** renderLatex *)

(** What a call can end in: a value, or a thrown value, which is an
    [Error] carrying a message or something else. *)
Inductive thrown :=
| ThrownError (message : jsstring)
| ThrownOther.

Inductive outcome (A : Type) :=
| Returns (a : A)
| Throws (e : thrown).

Arguments Returns {A} a.
Arguments Throws {A} e.

Inductive strictness := StrictWarn | StrictOff.

(** The options object handed to [katex.renderToString]. *)
Record KatexOptions := {
  k_displayMode : bool;
  k_throwOnError : bool;
  k_errorColor : jsstring;
  k_macros : list (jsstring * jsstring);
  k_trust : bool;
  k_strict : strictness
}.

(** [LatexRenderOptions]: every field is optional. *)
Record LatexRenderOptions := {
  displayMode : option bool;
  throwOnError : option bool;
  errorColor : option jsstring;
  macros : option (list (jsstring * jsstring))
}.

Definition noOptions : LatexRenderOptions :=
  {| displayMode := None; throwOnError := None;
     errorColor := None; macros := None |}.

Record RenderedLatex := {
  html : jsstring;
  error : option jsstring
}.

Definition orDefault {A} (d : A) (o : option A) : A :=
  match o with Some a => a | None => d end.

Section Renderer.

(** The formula renderer of the KaTeX library, which is not part of the
    repository: any function from a formula and options to markup or a
    thrown value. *)
Variable renderToString : jsstring -> KatexOptions -> outcome jsstring.

Definition renderLatex (latex : jsstring) (options : LatexRenderOptions)
  : outcome RenderedLatex :=
  let displayMode := orDefault false (displayMode options) in
  let throwOnError := orDefault false (throwOnError options) in
  let errorColor := orDefault (js "#cc0000") (errorColor options) in
  let macros := orDefault [] (macros options) in
  let cleanedLatex := trim latex in
  let cleanedLatex :=
    if endsWith (js ".") cleanedLatex then dropLast cleanedLatex
    else cleanedLatex in
  match renderToString cleanedLatex
          {| k_displayMode := displayMode; k_throwOnError := true;
             k_errorColor := errorColor; k_macros := macros;
             k_trust := false; k_strict := StrictWarn |} with
  | Returns h => Returns {| html := h; error := None |}
  | Throws err =>
      match renderToString cleanedLatex
              {| k_displayMode := displayMode; k_throwOnError := false;
                 k_errorColor := errorColor; k_macros := macros;
                 k_trust := true; k_strict := StrictOff |} with
      | Returns h => Returns {| html := h; error := None |}
      | Throws _ =>
          let errorMessage :=
            match err with
            | ThrownError message => message
            | ThrownOther => js "Unknown error"
            end in
          if throwOnError then Throws err
          else
            Returns
              {| html := js "<span style=" ++ dquote ++ js "color: " ++
                         errorColor ++ js "; font-family: monospace;" ++
                         dquote ++ js ">" ++ escapeHtml latex ++
                         js "</span>";
                 error := Some errorMessage |}
      end
  end.

Definition renderInlineMath (latex : jsstring) : outcome RenderedLatex :=
  renderLatex latex
    {| displayMode := Some false; throwOnError := None;
       errorColor := None; macros := None |}.

Definition renderBlockMath (latex : jsstring) : outcome RenderedLatex :=
  renderLatex latex
    {| displayMode := Some true; throwOnError := None;
       errorColor := None; macros := None |}.

End Renderer.

(** ** extractLatexExpressions *)

Definition dollar : N := 36.

Record Expression := {
  e_raw : jsstring;
  e_isBlock : bool;
  startIndex : nat;
  endIndex : nat
}.

(** [/\$\$([^$]+)\$\$/g] *)
Definition blockRegex : re :=
  seq [lit "$$"; Grp (plus (CNot [dollar])); lit "$$"].

(** [/(?<!\$)\$(?!\$)([^$]+)\$(?!\$)/g] *)
Definition guardedInlineRegex : re :=
  seq [NotBehind (COne dollar); lit "$"; NotAhead (lit "$");
       Grp (plus (CNot [dollar])); lit "$"; NotAhead (lit "$")].

Definition expressionOf (blk : bool) (mt : rmatch) : Expression :=
  {| e_raw := nth 0 (groups mt) [];
     e_isBlock := blk;
     startIndex := index mt;
     endIndex := index mt + length (whole mt) |}.

(** [expressions.some(exp => i >= exp.startIndex && i < exp.endIndex)] *)
Definition overlaps (expressions : list Expression) (i : nat) : bool :=
  existsb (fun exp => (startIndex exp <=? i) && (i <? endIndex exp))
          expressions.

(** [expressions.sort((a, b) => a.startIndex - b.startIndex)]: the sort of
    the language is stable. *)
Fixpoint insertByStart (x : Expression) (l : list Expression)
  : list Expression :=
  match l with
  | [] => [x]
  | y :: l' =>
      if startIndex x <? startIndex y then x :: l
      else y :: insertByStart x l'
  end.

Definition sortByStart (l : list Expression) : list Expression :=
  fold_left (fun acc x => insertByStart x acc) l [].

Definition extractLatexExpressions (text : jsstring) : list Expression :=
  let expressions :=
    fold_left (fun exprs mt => exprs ++ [expressionOf true mt])
              (exec_all blockRegex text) [] in
  let expressions :=
    fold_left (fun exprs mt =>
                 if overlaps exprs (index mt) then exprs
                 else exprs ++ [expressionOf false mt])
              (exec_all guardedInlineRegex text) expressions in
  sortByStart expressions.

End Latex.

Import Latex.

(* ===================================================================== *)
(** * The document object model *)
(* ===================================================================== *)

Module Dom.

(** A node is an element (lower-case tag name, attributes in source order,
    children) or a text node. Every element is an HTML element: its
    [className] is a string and its tag name matches selectors as
    written. *)
#[warnings="-register-all"]
Inductive node :=
| Elem (tag : jsstring) (attrs : list (jsstring * jsstring))
       (children : list node)
| Text (data : jsstring).

(** A node is addressed by the child indices that lead to it from the top
    of its tree. *)
Definition path := list nat.

(** A tree is the document (its top node stands for the document node,
    which is no element) or a detached subtree made by [cloneNode] (its top
    node is an element without parent). *)
Record tree := Tree {
  is_document : bool;
  top : node
}.

Definition kids (nd : node) : list node :=
  match nd with
  | Elem _ _ ks => ks
  | Text _ => []
  end.

Definition is_element (nd : node) : bool :=
  match nd with
  | Elem _ _ _ => true
  | Text _ => false
  end.

Fixpoint get (nd : node) (p : path) : option node :=
  match p with
  | [] => Some nd
  | i :: p' =>
      match nth_error (kids nd) i with
      | Some k => get k p'
      | None => None
      end
  end.

Fixpoint set_nth {A} (i : nat) (x : A) (l : list A) : list A :=
  match l, i with
  | [], _ => []
  | _ :: l', O => x :: l'
  | y :: l', S i' => y :: set_nth i' x l'
  end.

(** The tree with the node at [p] changed by [f]; unchanged when [p] leads
    nowhere. *)
Fixpoint update (nd : node) (p : path) (f : node -> node) : node :=
  match p with
  | [] => f nd
  | i :: p' =>
      match nd with
      | Elem t a ks =>
          match nth_error ks i with
          | Some k => Elem t a (set_nth i (update k p' f) ks)
          | None => nd
          end
      | Text _ => nd
      end
  end.

(** ** Attributes *)

Fixpoint assoc (name : jsstring) (l : list (jsstring * jsstring))
  : option jsstring :=
  match l with
  | [] => None
  | (k, v) :: l' => if str_eqb k name then Some v else assoc name l'
  end.

(** [el.getAttribute(name)], [None] for null. *)
Definition getAttribute (nd : node) (name : string) : option jsstring :=
  match nd with
  | Elem _ a _ => assoc (js name) a
  | Text _ => None
  end.

Definition attr_or_empty (nd : node) (name : string) : jsstring :=
  match getAttribute nd name with
  | Some v => v
  | None => []
  end.

(** [el.className] and [el.id] of an HTML element. *)
Definition className (nd : node) : jsstring := attr_or_empty nd "class".
Definition id (nd : node) : jsstring := attr_or_empty nd "id".

Definition tagName (nd : node) : jsstring :=
  match nd with
  | Elem t _ _ => t
  | Text _ => []
  end.

(** ASCII white space, which separates the tokens of a class attribute. *)
Definition is_ascii_space (c : N) : bool :=
  ((c =? 9) || (c =? 10) || (c =? 12) || (c =? 13) || (c =? 32))%N.

Fixpoint tokens_aux (cur : jsstring) (s : jsstring) : list jsstring :=
  match s with
  | [] => match cur with [] => [] | _ :: _ => [rev cur] end
  | c :: s' =>
      if is_ascii_space c
      then match cur with
           | [] => tokens_aux [] s'
           | _ :: _ => rev cur :: tokens_aux [] s'
           end
      else tokens_aux (c :: cur) s'
  end.

(** [el.classList] *)
Definition classList (nd : node) : list jsstring :=
  tokens_aux [] (className nd).

Definition classList_contains (nd : node) (c : string) : bool :=
  existsb (str_eqb (js c)) (classList nd).

(** ** Text and markup *)

(** [node.textContent] *)
Fixpoint textContent (nd : node) : jsstring :=
  match nd with
  | Text d => d
  | Elem _ _ ks =>
      (fix go (l : list node) : jsstring :=
         match l with
         | [] => []
         | k :: l' => textContent k ++ go l'
         end) ks
  end.

Definition nbsp : N := 160.

Fixpoint escape (in_attr : bool) (s : jsstring) : jsstring :=
  match s with
  | [] => []
  | c :: s' =>
      (if N.eqb c 38 then js "&amp;"
       else if N.eqb c nbsp then js "&nbsp;"
       else if in_attr then (if N.eqb c 34 then js "&quot;" else [c])
       else if N.eqb c 60 then js "&lt;"
       else if N.eqb c 62 then js "&gt;"
       else [c]) ++ escape in_attr s'
  end.

Definition void_tags : list string :=
  ["area"; "base"; "br"; "col"; "embed"; "hr"; "img"; "input"; "link";
   "meta"; "source"; "track"; "wbr"]%string.

Definition raw_text_tags : list string :=
  ["style"; "script"; "xmp"; "iframe"; "noembed"; "noframes";
   "plaintext"]%string.

Definition tag_in (t : jsstring) (l : list string) : bool :=
  existsb (fun s => str_eqb (js s) t) l.

Fixpoint serialize_attrs (a : list (jsstring * jsstring)) : jsstring :=
  match a with
  | [] => []
  | (k, v) :: a' =>
      js " " ++ k ++ js "=" ++ dquote ++ escape true v ++ dquote ++
      serialize_attrs a'
  end.

(** The markup of a node, by the fragment serialisation algorithm of HTML;
    [raw] tells that the parent holds its text unescaped. *)
Fixpoint outerHTML (raw : bool) (nd : node) : jsstring :=
  match nd with
  | Text d => if raw then d else escape false d
  | Elem t a ks =>
      js "<" ++ t ++ serialize_attrs a ++ js ">" ++
      (if tag_in t void_tags then []
       else
         (fix go (l : list node) : jsstring :=
            match l with
            | [] => []
            | k :: l' => outerHTML (tag_in t raw_text_tags) k ++ go l'
            end) ks ++
         js "</" ++ t ++ js ">")
  end.

(** [el.innerHTML] *)
Definition innerHTML (nd : node) : jsstring :=
  match nd with
  | Text _ => []
  | Elem t _ ks =>
      JsString.concat (map (outerHTML (tag_in t raw_text_tags)) ks)
  end.

(** ** Selectors *)

Inductive simple :=
| STag (t : string)                    (* t *)
| SClass (c : string)                  (* .c *)
| SHasAttr (a : string)                (* [a] *)
| SAttrEq (a v : string)               (* [a="v"] *)
| SAttrPrefix (a v : string)           (* [a^="v"] *)
| SAttrContains (a v : string)         (* [a*="v"] *)
| SScope.                              (* :scope *)

(** A compound selector: all of its simple selectors hold. *)
Definition compound := list simple.

Inductive combinator := Child | Descendant.

(** A complex selector: the compound the element itself matches, then the
    compounds on its left, nearest first. *)
Record complex := Complex {
  subject : compound;
  leftward : list (combinator * compound)
}.

(** A selector list: one of its complex selectors matches. *)
Definition selector := list complex.

Definition matches_simple (nd : node) (scope : bool) (s : simple) : bool :=
  match s with
  | STag t => str_eqb (js t) (tagName nd)
  | SClass c => classList_contains nd c
  | SHasAttr a =>
      match getAttribute nd a with Some _ => true | None => false end
  | SAttrEq a v =>
      match getAttribute nd a with
      | Some x => str_eqb (js v) x
      | None => false
      end
  | SAttrPrefix a v =>
      match getAttribute nd a with
      | Some x => startsWith (js v) x
      | None => false
      end
  | SAttrContains a v =>
      match getAttribute nd a with
      | Some x => includes (js v) x
      | None => false
      end
  | SScope => scope
  end.

Definition matches_compound (nd : node) (scope : bool) (c : compound)
  : bool :=
  is_element nd && forallb (matches_simple nd scope) c.

(** The element ancestors of a node, nearest first, each with the flag
    that tells whether it is the scoping element of the query. *)
Definition chain := list (node * bool).

Fixpoint matches_left (l : list (combinator * compound)) (ancs : chain)
  : bool :=
  match l with
  | [] => true
  | (Child, c) :: l' =>
      match ancs with
      | (a, sc) :: ancs' => matches_compound a sc c && matches_left l' ancs'
      | [] => false
      end
  | (Descendant, c) :: l' =>
      (fix search (as_ : chain) : bool :=
         match as_ with
         | [] => false
         | (a, sc) :: as' =>
             (matches_compound a sc c && matches_left l' as') || search as'
         end) ancs
  end.

Definition matches_complex (nd : node) (ancs : chain) (cx : complex)
  : bool :=
  matches_compound nd false (subject cx) && matches_left (leftward cx) ancs.

Definition matches_selector (nd : node) (ancs : chain) (sel : selector)
  : bool :=
  existsb (matches_complex nd ancs) sel.

(** ** Traversal *)

(** The elements of a subtree in document order, the top of the subtree
    first, each with its path and its chain of ancestors. *)
Fixpoint walk (ancs : chain) (p : path) (nd : node)
  : list (path * node * chain) :=
  match nd with
  | Text _ => []
  | Elem _ _ ks =>
      (p, nd, ancs) ::
      (fix go (l : list node) (i : nat) : list (path * node * chain) :=
         match l with
         | [] => []
         | k :: l' => walk ((nd, false) :: ancs) (p ++ [i]) k ++ go l' (S i)
         end) ks 0
  end.

Fixpoint walk_kids (ancs : chain) (p : path) (l : list node) (i : nat)
  : list (path * node * chain) :=
  match l with
  | [] => []
  | k :: l' => walk ancs (p ++ [i]) k ++ walk_kids ancs p l' (S i)
  end.

(** The chain of element ancestors of the node at [p], the node itself
    not included, nearest first; [acc] is the chain of [nd]. *)
Fixpoint chain_to (nd : node) (p : path) (acc : chain) : chain :=
  match p with
  | [] => acc
  | i :: p' =>
      match nth_error (kids nd) i with
      | Some k => chain_to k p' ((nd, false) :: acc)
      | None => acc
      end
  end.

Definition node_at (t : tree) (p : path) : option node := get (top t) p.

(** The ancestors of the node at [p]: the document node is no element. *)
Definition ancestors (t : tree) (p : path) : chain :=
  if is_document t then
    match p with
    | [] => []
    | i :: p' =>
        match nth_error (kids (top t)) i with
        | Some k => chain_to k p' []
        | None => []
        end
    end
  else chain_to (top t) p [].

(** The descendant elements of the node at [p], in document order. *)
Definition descendants (t : tree) (p : path) : list (path * node * chain) :=
  match node_at t p with
  | Some nd =>
      let own :=
        match p, is_document t with
        | [], true => []
        | _, _ => (nd, true) :: ancestors t p
        end in
      walk_kids own p (kids nd) 0
  | None => []
  end.

(** [scope.querySelectorAll(sel)]: a static list, in document order. *)
Definition querySelectorAll (t : tree) (p : path) (sel : selector)
  : list path :=
  map (fun x => fst (fst x))
      (filter (fun x => matches_selector (snd (fst x)) (snd x) sel)
              (descendants t p)).

(** [scope.querySelector(sel)] *)
Definition querySelector (t : tree) (p : path) (sel : selector)
  : option path :=
  hd_error (querySelectorAll t p sel).

(** [el.matches(sel)] *)
Definition matches (t : tree) (p : path) (sel : selector) : bool :=
  match node_at t p with
  | Some nd => matches_selector nd (ancestors t p) sel
  | None => false
  end.

(** [el.closest(sel)]: the element itself or its nearest matching
    ancestor; only whether there is one is used. *)
Fixpoint closest_in (nd : node) (ancs : chain) (sel : selector) : bool :=
  matches_selector nd ancs sel ||
  match ancs with
  | [] => false
  | (a, _) :: ancs' => closest_in a ancs' sel
  end.

Definition has_closest (t : tree) (p : path) (sel : selector) : bool :=
  match node_at t p with
  | Some nd => closest_in nd (ancestors t p) sel
  | None => false
  end.

(** [el.parentElement] *)
Definition parentElement (t : tree) (p : path) : option path :=
  match rev p with
  | [] => None
  | _ :: q =>
      match q, is_document t with
      | [], true => None
      | _, _ => Some (rev q)
      end
  end.

(** [el.children]: the element children. *)
Definition children (t : tree) (p : path) : list path :=
  match node_at t p with
  | Some nd =>
      map (fun x => p ++ [fst x])
          (filter (fun x => is_element (snd x))
                  (combine (List.seq 0 (length (kids nd))) (kids nd)))
  | None => []
  end.

Definition text_of (t : tree) (p : path) : jsstring :=
  match node_at t p with
  | Some nd => textContent nd
  | None => []
  end.

Definition node_or_empty (t : tree) (p : path) : node :=
  match node_at t p with
  | Some nd => nd
  | None => Text []
  end.

(** Simple selectors and lists of them. *)
Definition one (c : compound) : complex := Complex c [].
Definition any_of (cs : list compound) : selector := map one cs.

End Dom.

(* ===================================================================== *)
(** * Selector resolution (src/content/dom/selectors.ts) *)
(* ===================================================================== *)

Module Selectors.

Import Dom.

(** ** The selectors of the module *)

(** ['article'] *)
Definition sel_article : selector := any_of [[STag "article"]].
(** the attribute data-testid starting with conversation-turn *)
Definition sel_turn : selector :=
  any_of [[SAttrPrefix "data-testid" "conversation-turn"]].
(** ['[data-message-author-role]'] *)
Definition sel_role : selector :=
  any_of [[SHasAttr "data-message-author-role"]].
(** ['main'] *)
Definition sel_main : selector := any_of [[STag "main"]].
(** [':scope > div > div > div'] *)
Definition sel_scope_div3 : selector :=
  [Complex [STag "div"]
           [(Child, [STag "div"]); (Child, [STag "div"]); (Child, [SScope])]].
(** the classes prose and markdown, or a class attribute containing
    prose or markdown *)
Definition sel_content : selector :=
  any_of [[SClass "prose"]; [SClass "markdown"];
          [SAttrContains "class" "prose"];
          [SAttrContains "class" "markdown"]].
(** ['h1'] *)
Definition sel_h1 : selector := any_of [[STag "h1"]].

(** The selectors getMessageContent tries, in order: .markdown, .prose, a
    class attribute containing markdown, prose or text-base, and a div
    whose class attribute contains whitespace. *)
Definition contentSelectors : list selector :=
  [ any_of [[SClass "markdown"]];
    any_of [[SClass "prose"]];
    any_of [[SAttrContains "class" "markdown"]];
    any_of [[SAttrContains "class" "prose"]];
    any_of [[SAttrContains "class" "text-base"]];
    any_of [[STag "div"; SAttrContains "class" "whitespace"]] ].

(** ** Queries with a record of the strategies consulted *)

(** A computation that also reports which strategies it consulted. *)
Definition Traced (A : Type) : Type := A * list nat.

Definition tret {A} (a : A) : Traced A := (a, []).

Definition tbind {A B} (c : Traced A) (k : A -> Traced B) : Traced B :=
  let r := k (fst c) in (fst r, snd c ++ snd r).

(** Strategy [n] is consulted: its queries run and give [a]. *)
Definition consult {A} (n : nat) (a : A) : Traced A := (a, [n]).

Definition nonEmpty {A} (l : list A) : bool :=
  match l with [] => false | _ :: _ => true end.

Fixpoint path_eqb (p q : path) : bool :=
  match p, q with
  | [], [] => true
  | i :: p', j :: q' => Nat.eqb i j && path_eqb p' q'
  | _, _ => false
  end.

(** [set.add(x)] on a set of elements kept in insertion order. *)
Definition set_add (x : path) (s : list path) : list path :=
  if existsb (path_eqb x) s then s else s ++ [x].

(** The strategy 5 loop:
    [contentElements.forEach(el => { if (el.parentElement?.parentElement)
       parents.add(el.parentElement.parentElement) })]. *)
Definition grandparents (doc : tree) (contentElements : list path)
  : list path :=
  fold_left
    (fun parents el =>
       match parentElement doc el with
       | Some par =>
           match parentElement doc par with
           | Some gp => set_add gp parents
           | None => parents
           end
       | None => parents
       end)
    contentElements [].

(** findAllMessageElements, statement by statement. *)
Definition findAllMessageElements_traced (doc : tree) : Traced (list path) :=
  (* Strategy 1: article elements *)
  tbind (consult 1 (querySelectorAll doc [] sel_article)) (fun elements =>
  if nonEmpty elements then tret elements else
  (* Strategy 2: data-testid with conversation-turn *)
  tbind (consult 2 (querySelectorAll doc [] sel_turn)) (fun elements =>
  if nonEmpty elements then tret elements else
  (* Strategy 3: data-message-author-role *)
  tbind (consult 3 (querySelectorAll doc [] sel_role)) (fun elements =>
  if nonEmpty elements then tret elements else
  (* Strategy 4: message-like divs of the main content area *)
  tbind (consult 4
           (match querySelector doc [] sel_main with
            | Some main =>
                filter (fun el => 20 <? length (text_of doc el))
                       (querySelectorAll doc main sel_scope_div3)
            | None => []
            end)) (fun elements =>
  if nonEmpty elements then tret elements else
  (* Strategy 5: parents of the parents of prose/markdown elements *)
  tbind (consult 5 (querySelectorAll doc [] sel_content))
        (fun contentElements =>
  if nonEmpty contentElements
  then tret (grandparents doc contentElements)
  else tret []))))).

Definition findAllMessageElements (doc : tree) : list path :=
  fst (findAllMessageElements_traced doc).

(** ** The five strategies on their own *)

Definition strategy1 (doc : tree) : list path :=
  querySelectorAll doc [] sel_article.

Definition strategy2 (doc : tree) : list path :=
  querySelectorAll doc [] sel_turn.

Definition strategy3 (doc : tree) : list path :=
  querySelectorAll doc [] sel_role.

Definition strategy4 (doc : tree) : list path :=
  match querySelector doc [] sel_main with
  | Some main =>
      filter (fun el => 20 <? length (text_of doc el))
             (querySelectorAll doc main sel_scope_div3)
  | None => []
  end.

Definition strategy5 (doc : tree) : list path :=
  grandparents doc (querySelectorAll doc [] sel_content).

Definition strategies (doc : tree) : list (list path) :=
  [strategy1 doc; strategy2 doc; strategy3 doc; strategy4 doc;
   strategy5 doc].

(** The first non-empty result of a list of results, with the number of
    results looked at. *)
Fixpoint first_nonempty {A} (ls : list (list A)) : list A * nat :=
  match ls with
  | [] => ([], 0)
  | l :: ls' =>
      if nonEmpty l then (l, 1)
      else let r := first_nonempty ls' in (fst r, S (snd r))
  end.

(** ** getMessageRole *)

Inductive resolvedRole := RoleUser | RoleAssistant | RoleUnknown.

Definition role_of_attr (v : option jsstring) : resolvedRole :=
  match v with
  | Some s =>
      if str_eqb s (js "user") then RoleUser
      else if str_eqb s (js "assistant") then RoleAssistant
      else RoleUnknown
  | None => RoleUnknown
  end.

(** The last check of the source reads the computed background colour and
    returns 'unknown' on both of its branches; it is left out. *)
Definition getMessageRole (t : tree) (element : path) : resolvedRole :=
  let el := node_or_empty t element in
  match role_of_attr (getAttribute el "data-message-author-role") with
  | RoleUser => RoleUser
  | RoleAssistant => RoleAssistant
  | RoleUnknown =>
      let nestedRole :=
        match querySelector t element sel_role with
        | Some nested =>
            role_of_attr (getAttribute (node_or_empty t nested)
                                       "data-message-author-role")
        | None => RoleUnknown
        end in
      match nestedRole with
      | RoleUser => RoleUser
      | RoleAssistant => RoleAssistant
      | RoleUnknown =>
          let className :=
            className el ++ js " " ++ substring0 500 (innerHTML el) in
          if includes (js "user") className || includes (js "human") className
          then RoleUser
          else if includes (js "assistant") className ||
                  includes (js "gpt") className ||
                  includes (js "ai") className
          then RoleAssistant
          else RoleUnknown
      end
  end.

(** ** getMessageContent *)

Fixpoint first_match (t : tree) (element : path) (sels : list selector)
  : option path :=
  match sels with
  | [] => None
  | s :: sels' =>
      match querySelector t element s with
      | Some content => Some content
      | None => first_match t element sels'
      end
  end.

Definition getMessageContent (t : tree) (element : path) : option path :=
  match first_match t element contentSelectors with
  | Some content => Some content
  | None =>
      if 0 <? length (trim (text_of t element)) then Some element else None
  end.

(** ** The page: location, title and document *)

Record page := {
  href : jsstring;
  title : jsstring;
  document : node
}.

(** [/^https:\/\/(chat\.openai\.com|chatgpt\.com)\/c\/[a-zA-Z0-9-]+/] *)
Definition urlPattern : re :=
  seq [Bol; lit "https://"; Grp (alts ["chat.openai.com"; "chatgpt.com"]%string);
       lit "/c/"; plus CAlnumDash].

Definition isConversationPage (pg : page) : bool :=
  test urlPattern (href pg).

(** [href.match(/\/c\/([a-zA-Z0-9-]+)/)], then its first group. *)
Definition getConversationIdFromUrl (pg : page) : option jsstring :=
  match search (seq [lit "/c/"; Grp (plus CAlnumDash)]) [] (href pg) with
  | Some mt => Some (nth 0 (groups mt) [])
  | None => None
  end.

(** A word matched without regard to case (flag i). *)
Fixpoint nocase (s : list ascii) : re :=
  match s with
  | [] => Eps
  | c :: s' =>
      let n := N_of_ascii c in
      let other :=
        if is_alpha n
        then (if (n <? 97)%N then (n + 32)%N else (n - 32)%N)
        else n in
      Seq (Chr (COneOf [n; other])) (nocase s')
  end.

Definition chatgpt_nocase : re := nocase (list_ascii_of_string "ChatGPT"%string).

(** The separators [-], en dash, em dash and vertical bar. *)
Definition separators : cclass := COneOf [45; 8211; 8212; 124]%N.

Definition getConversationTitle (pg : page) : jsstring :=
  let doc := Tree true (document pg) in
  let fromH1 :=
    match querySelector doc [] sel_h1 with
    | Some h1 =>
        if truthy (text_of doc h1) then
          let text := trim (text_of doc h1) in
          if truthy text && negb (str_eqb text (js "ChatGPT"))
          then Some text else None
        else None
    | None => None
    end in
  match fromH1 with
  | Some text => text
  | None =>
      if truthy (title pg) then
        let t1 :=
          replace_first (seq [Bol; chatgpt_nocase; Star CSpace;
                              Chr separators; Star CSpace]) [] (title pg) in
        let t2 :=
          replace_first (seq [Star CSpace; Chr separators; Star CSpace;
                              chatgpt_nocase; Eoi]) [] t1 in
        if truthy (trim t2) then trim t2 else js "Untitled Conversation"
      else js "Untitled Conversation"
  end.

End Selectors.

(* ===================================================================== *)
(** * The DOM parser (src/content/dom/parser.ts) *)
(* ===================================================================== *)

Module Parser.

Import Dom Selectors.

(** ** Data model (src/types/index.d.ts, src/content/dom/types.ts) *)

Record LatexExpression := {
  raw : jsstring;
  isBlock : bool;
  position : nat
}.

Record TextBlock := {
  tb_content : jsstring;
  hasLatex : bool;
  latexExpressions : list LatexExpression
}.

Record CodeBlock := {
  language : option jsstring;
  cb_content : jsstring;
  filename : option jsstring
}.

Record TableBlock := {
  headers : list jsstring;
  rows : list (list jsstring)
}.

Record ImageBlock := {
  src : jsstring;
  alt : jsstring;
  isGenerated : bool
}.

Record ThinkingBlock := {
  th_content : jsstring;
  isCollapsed : bool
}.

Inductive ContentBlock :=
| BText (b : TextBlock)
| BCode (b : CodeBlock)
| BTable (b : TableBlock)
| BImage (b : ImageBlock)
| BThinking (b : ThinkingBlock).

Inductive MessageRole := User | Assistant.

(** The timestamp is null in every message the parser builds. *)
Record Message := {
  m_id : jsstring;
  m_index : nat;
  role : MessageRole;
  content : list ContentBlock;
  rawHtml : jsstring;
  isSelected : bool
}.

Record Conversation := {
  c_id : jsstring;
  c_title : jsstring;
  url : jsstring;
  messages : list Message;
  messageCount : nat
}.

(** [ExtractionResult<T>] *)
Record ExtractionResult (T : Type) := {
  success : bool;
  data : option T;
  error : option jsstring;
  warnings : list jsstring
}.

Arguments success {T} _.
Arguments data {T} _.
Arguments error {T} _.
Arguments warnings {T} _.

Record ExtractionOptions := {
  includeRawHtml : bool;
  extractTimestamps : bool;
  parseLaTeX : bool;
  parseCodeBlocks : bool;
  parseTables : bool;
  includeThinkingBlocks : bool;
  maxMessages : nat
}.

Definition DEFAULT_EXTRACTION_OPTIONS : ExtractionOptions :=
  {| includeRawHtml := true; extractTimestamps := true; parseLaTeX := true;
     parseCodeBlocks := true; parseTables := true;
     includeThinkingBlocks := true; maxMessages := 0 |}.

(** [Partial<ExtractionOptions>]: each field may be left out. *)
Record PartialOptions := {
  p_includeRawHtml : option bool;
  p_extractTimestamps : option bool;
  p_parseLaTeX : option bool;
  p_parseCodeBlocks : option bool;
  p_parseTables : option bool;
  p_includeThinkingBlocks : option bool;
  p_maxMessages : option nat
}.

Definition noOverrides : PartialOptions :=
  {| p_includeRawHtml := None; p_extractTimestamps := None;
     p_parseLaTeX := None; p_parseCodeBlocks := None; p_parseTables := None;
     p_includeThinkingBlocks := None; p_maxMessages := None |}.

(** [{ ...DEFAULT_EXTRACTION_OPTIONS, ...options }] *)
Definition withDefaults (o : PartialOptions) : ExtractionOptions :=
  let d := DEFAULT_EXTRACTION_OPTIONS in
  {| includeRawHtml := orDefault (includeRawHtml d) (p_includeRawHtml o);
     extractTimestamps :=
       orDefault (extractTimestamps d) (p_extractTimestamps o);
     parseLaTeX := orDefault (parseLaTeX d) (p_parseLaTeX o);
     parseCodeBlocks := orDefault (parseCodeBlocks d) (p_parseCodeBlocks o);
     parseTables := orDefault (parseTables d) (p_parseTables o);
     includeThinkingBlocks :=
       orDefault (includeThinkingBlocks d) (p_includeThinkingBlocks o);
     maxMessages := orDefault (maxMessages d) (p_maxMessages o) |}.

(** A full options record passed where a partial one is expected. *)
Definition asPartial (o : ExtractionOptions) : PartialOptions :=
  {| p_includeRawHtml := Some (includeRawHtml o);
     p_extractTimestamps := Some (extractTimestamps o);
     p_parseLaTeX := Some (parseLaTeX o);
     p_parseCodeBlocks := Some (parseCodeBlocks o);
     p_parseTables := Some (parseTables o);
     p_includeThinkingBlocks := Some (includeThinkingBlocks o);
     p_maxMessages := Some (maxMessages o) |}.

(** ** The store: the live page and the clones *)

Inductive root := Live | Scratch (n : nat).

(** An element handle: the tree it lives in and its path there. *)
Record handle := Handle {
  h_root : root;
  h_path : path
}.

Record world := World {
  live : node;
  scratch : list node
}.

Definition tree_of (w : world) (r : root) : tree :=
  match r with
  | Live => Tree true (live w)
  | Scratch n => Tree false (nth n (scratch w) (Text []))
  end.

(** The store with the top node of tree [r] changed by [f]. *)
Definition update_tree (r : root) (f : node -> node) (w : world) : world :=
  match r with
  | Live => World (f (live w)) (scratch w)
  | Scratch n =>
      World (live w)
            (match nth_error (scratch w) n with
             | Some nd => set_nth n (f nd) (scratch w)
             | None => scratch w
             end)
  end.

(** Computations on the store. *)
Definition M (A : Type) : Type := world -> A * world.

Definition ret {A} (a : A) : M A := fun w => (a, w).

Definition bind {A B} (c : M A) (k : A -> M B) : M B :=
  fun w => let r := c w in k (fst r) (snd r).

(** A read of the store. *)
Definition reads {A} (f : world -> A) : M A := fun w => (f w, w).

Declare Scope dom_scope.
Delimit Scope dom_scope with dom.
Notation "x <- c ;; k" := (bind c (fun x => k))
  (at level 61, c at next level, right associativity) : dom_scope.
Notation "c ;;; k" := (bind c (fun _ => k))
  (at level 61, right associativity) : dom_scope.
Local Open Scope dom_scope.

(** [for (const x of l) body(x)] *)
Fixpoint forEach {A} (l : list A) (body : A -> M unit) : M unit :=
  match l with
  | [] => ret tt
  | x :: l' => body x ;;; forEach l' body
  end.

(** A loop that carries an accumulator. *)
Fixpoint foldM {A B} (l : list A) (acc : B) (body : B -> A -> M B) : M B :=
  match l with
  | [] => ret acc
  | x :: l' => acc' <- body acc x ;; foldM l' acc' body
  end.

(** [el.cloneNode(true)]: a copy of the subtree becomes a new detached
    tree of the store. *)
Definition cloneNode (h : handle) : M handle :=
  fun w =>
    (Handle (Scratch (length (scratch w))) [],
     World (live w)
           (scratch w ++ [node_or_empty (tree_of w (h_root h)) (h_path h)])).

(** [el.replaceWith(text)]: a new text node takes the place of the element
    among the children of its parent; nothing happens without a parent. *)
Definition replaceWith (h : handle) (text : jsstring) : M unit :=
  fun w =>
    (tt,
     match rev (h_path h) with
     | [] => w
     | i :: q =>
         update_tree (h_root h)
           (fun tp =>
              update tp (rev q)
                (fun parent =>
                   match parent with
                   | Elem t a ks => Elem t a (set_nth i (Text text) ks)
                   | Text _ => parent
                   end))
           w
     end).

(** [el.append(text)]: a new text node becomes the last child. *)
Definition append (h : handle) (text : jsstring) : M unit :=
  fun w =>
    (tt,
     update_tree (h_root h)
       (fun tp =>
          update tp (h_path h)
            (fun nd =>
               match nd with
               | Elem t a ks => Elem t a (ks ++ [Text text])
               | Text _ => nd
               end))
       w).

(** Reads through a handle. *)
Definition qsa (h : handle) (sel : selector) : M (list handle) :=
  reads (fun w =>
           map (Handle (h_root h))
               (querySelectorAll (tree_of w (h_root h)) (h_path h) sel)).

Definition qs (h : handle) (sel : selector) : M (option handle) :=
  reads (fun w =>
           option_map (Handle (h_root h))
                      (querySelector (tree_of w (h_root h)) (h_path h) sel)).

Definition textOf (h : handle) : M jsstring :=
  reads (fun w => text_of (tree_of w (h_root h)) (h_path h)).

Definition nodeOf (h : handle) : M node :=
  reads (fun w => node_or_empty (tree_of w (h_root h)) (h_path h)).

Definition closestOf (h : handle) (sel : selector) : M bool :=
  reads (fun w => has_closest (tree_of w (h_root h)) (h_path h) sel).

(** ** cleanExtractedLatex *)

Definition extractedRules : list rule :=
  [ Rule "/\|(frac|left|right|sqrt|sin|cos|tan|text|Rightarrow|neq|leq|geq|pi)/g"
         (seq [lit "|"; Grp (alts bar_commands)]) true [T "\"; TGrp 1];
    Rule "/\\langle\s*/g" (seq [lit "\langle"; ws]) true [T "{"];
    Rule "/\s*\\rangle/g" (seq [ws; lit "\rangle"]) true [T "}"];
    Rule "/\\backslash\s*/g" (seq [lit "\backslash"; ws]) true [T "\"];
    Rule "/\\f\s*r\s*a\s*c/g"
         (seq [lit "\f"; ws; lit "r"; ws; lit "a"; ws; lit "c"]) true
         [T "\frac"];
    Rule "/\\s\s*q\s*r\s*t/g"
         (seq [lit "\s"; ws; lit "q"; ws; lit "r"; ws; lit "t"]) true
         [T "\sqrt"];
    Rule "/\\t\s*e\s*x\s*t/g"
         (seq [lit "\t"; ws; lit "e"; ws; lit "x"; ws; lit "t"]) true
         [T "\text"];
    Rule "/\\\{operatorname\{(frac|sin|cos|tan|log|ln|exp|sqrt)\}\}/g"
         (seq [lit "\{operatorname{"; Grp (alts operator_names); lit "}}"])
         true [T "\"; TGrp 1];
    Rule "/\{\\operatorname\{(frac|sin|cos|tan|log|ln|exp|sqrt)\}/g"
         (seq [lit "{\operatorname{"; Grp (alts operator_names); lit "}"])
         true [T "\"; TGrp 1; T "{"];
    Rule "/\\operatorname\{(frac|sin|cos|tan|log|ln|exp|sqrt)\}/g"
         (seq [lit "\operatorname{"; Grp (alts operator_names); lit "}"])
         true [T "\"; TGrp 1];
    Rule "/\\left\\\{frac/g" (lit "\left\{frac") true [T "\left(\frac"];
    Rule "/\\left\{frac/g" (lit "\left{frac") true [T "\left(\frac"];
    Rule "/\\frac\(([^)]+)\)\(([^)]+)\)/g"
         (seq [lit "\frac("; Grp not_close_paren; lit ")(";
               Grp not_close_paren; lit ")"]) true
         [T "\frac{"; TGrp 1; T "}{"; TGrp 2; T "}"];
    Rule "/\\\{frac\{([^}]+)\}\{([^}]+)\}\}/g"
         (seq [lit "\{frac{"; Grp not_close_brace; lit "}{";
               Grp not_close_brace; lit "}}"]) true
         [T "\frac{"; TGrp 1; T "}{"; TGrp 2; T "}"];
    Rule "/\{frac\{([^}]+)\}\{([^}]+)\}/g"
         (seq [lit "{frac{"; Grp not_close_brace; lit "}{";
               Grp not_close_brace; lit "}"]) true
         [T "\frac{"; TGrp 1; T "}{"; TGrp 2; T "}"];
    Rule "/right\\\^(\d)/g" (seq [lit "right\^"; Grp digit]) true
         [T "\right)^"; TGrp 1];
    Rule "/\}right\^(\d)/g" (seq [lit "}right^"; Grp digit]) true
         [T "\right)^"; TGrp 1];
    Rule "/\\right\}/g" (lit "\right}") true [T "\right)"];
    Rule "/\(right\)/g" (lit "(right)") true [T "\right)"];
    Rule "/\\mathrm\{([a-zA-Z])\}/g"
         (seq [lit "\mathrm{"; Grp (Chr CAlpha); lit "}"]) true [TGrp 1];
    Rule "/\\wedge/g" (lit "\wedge") true [T "^"];
    Rule "/\\\^/g" (lit "\^") true [T "^"];
    Rule "/\\underline\{([^}]+)\}/g"
         (seq [lit "\underline{"; Grp not_close_brace; lit "}"]) true
         [TGrp 1];
    Rule "/\\boldsymbol\{([^}]+)\}/g"
         (seq [lit "\boldsymbol{"; Grp not_close_brace; lit "}"]) true
         [TGrp 1];
    Rule "/\\quad\s*/g" (seq [lit "\quad"; ws]) true [T " "];
    Rule "/\\qquad\s*/g" (seq [lit "\qquad"; ws]) true [T "  "];
    Rule "/\\\\/g" (lit "\\") true [T " "] ].

Definition cleanExtractedLatex (latex : jsstring) : jsstring :=
  apply_rules extractedRules latex.

(** ** createTextBlock *)

(** [/\$([^$]+)\$/g] *)
Definition inlineRegex : re :=
  seq [lit "$"; Grp (plus (CNot [dollar])); lit "$"].

(** One turn of [while ((match = regex.exec(text)) !== null)]: the flag is
    set and the expression pushed. *)
Definition pushExpression (blk : bool)
           (st : bool * list LatexExpression) (mt : rmatch)
  : bool * list LatexExpression :=
  (true,
   snd st ++ [{| raw := nth 0 (groups mt) [];
                 isBlock := blk;
                 position := index mt |}]).

Definition createTextBlock (text : jsstring) (options : ExtractionOptions)
  : TextBlock :=
  let st := (false, []) in
  let st :=
    if parseLaTeX options then
      let st := fold_left (pushExpression false)
                          (exec_all inlineRegex text) st in
      fold_left (pushExpression true) (exec_all blockRegex text) st
    else st in
  {| tb_content := text; hasLatex := fst st; latexExpressions := snd st |}.

(** ** getElementTextWithStructure *)

(** ['del, s, strike'] *)
Definition sel_strike : selector :=
  any_of [[STag "del"]; [STag "s"]; [STag "strike"]].
(** a style attribute containing line-through *)
Definition sel_line_through : selector :=
  any_of [[SAttrContains "style" "line-through"]].
(** ['.katex'] *)
Definition sel_katex : selector := any_of [[SClass "katex"]].
(** an annotation element whose encoding is application/x-tex *)
Definition sel_annotation_tex : selector :=
  any_of [[STag "annotation"; SAttrEq "encoding" "application/x-tex"]].
(** ['.katex-display'] *)
Definition sel_katex_display : selector := any_of [[SClass "katex-display"]].
(** ['mjx-container'] *)
Definition sel_mjx : selector := any_of [[STag "mjx-container"]].
(** a script element whose type contains math *)
Definition sel_script_math : selector :=
  any_of [[STag "script"; SAttrContains "type" "math"]].
(** ['span.math, span.math-inline, span.math-display'] *)
Definition sel_math_span : selector :=
  any_of [[STag "span"; SClass "math"]; [STag "span"; SClass "math-inline"];
          [STag "span"; SClass "math-display"]].
(** ['annotation'] *)
Definition sel_annotation : selector := any_of [[STag "annotation"]].
(** ['br'] *)
Definition sel_br : selector := any_of [[STag "br"]].
(** ['p, div, h1, h2, h3, h4, h5, h6'] *)
Definition sel_blocks : selector :=
  any_of [[STag "p"]; [STag "div"]; [STag "h1"]; [STag "h2"]; [STag "h3"];
          [STag "h4"]; [STag "h5"]; [STag "h6"]].

(** [a || b] on strings that may be null. *)
Definition orElse (a b : option jsstring) : option jsstring :=
  match a with
  | Some s => if truthy s then a else b
  | None => b
  end.

Definition isTruthy (a : option jsstring) : bool :=
  match a with
  | Some s => truthy s
  | None => false
  end.

(** The text node that stands for a formula: the source between [$$] for
    block math and between [$] for inline math. *)
Definition delimited (isBlock : bool) (latex : jsstring) : jsstring :=
  let delimiter := if isBlock then js "$$" else js "$" in
  delimiter ++ latex ++ delimiter.

(** Every rewrite works on [clone]. An element that an earlier replacement
    has detached keeps its old path, which leads nowhere in the clone any
    more: reads of it give the empty text and writes to it change nothing
    in the clone, as in the DOM, where they stay inside the detached
    subtree. *)
Definition getElementTextWithStructure (element : handle) : M jsstring :=
  (* Clone to avoid modifying original *)
  clone <- cloneNode element ;;
  els <- qsa clone sel_strike ;;
  forEach els (fun el =>
    text <- textOf el ;;
    replaceWith el text) ;;;
  els <- qsa clone sel_line_through ;;
  forEach els (fun el =>
    text <- textOf el ;;
    replaceWith el text) ;;;
  els <- qsa clone sel_katex ;;
  forEach els (fun katex =>
    annotation <- qs katex sel_annotation_tex ;;
    match annotation with
    | Some ann =>
        annText <- textOf ann ;;
        if truthy annText then
          let latex := cleanExtractedLatex (trim annText) in
          isBlock <- closestOf katex sel_katex_display ;;
          replaceWith katex (delimited isBlock latex)
        else ret tt
    | None => ret tt
    end) ;;;
  els <- qsa clone sel_mjx ;;
  forEach els (fun mjx =>
    nd <- nodeOf mjx ;;
    script <- qs mjx sel_script_math ;;
    scriptText <- match script with
                  | Some sc => t <- textOf sc ;; ret (Some t)
                  | None => ret None
                  end ;;
    let formula := orElse (getAttribute nd "data-formula") scriptText in
    match formula with
    | Some f =>
        if truthy f then
          let latex := cleanExtractedLatex f in
          let isBlock :=
            match getAttribute nd "display" with
            | Some d => str_eqb d (js "block")
            | None => false
            end || classList_contains nd "MathJax_Display" in
          replaceWith mjx (delimited isBlock latex)
        else ret tt
    | None => ret tt
    end) ;;;
  els <- qsa clone sel_math_span ;;
  forEach els (fun span =>
    nd <- nodeOf span ;;
    ann <- qs span sel_annotation ;;
    annText <- match ann with
               | Some a => t <- textOf a ;; ret (Some t)
               | None => ret None
               end ;;
    let rawLatex :=
      orElse (orElse (getAttribute nd "data-latex")
                     (getAttribute nd "data-value")) annText in
    match rawLatex with
    | Some rl =>
        if truthy rl then
          let latex := cleanExtractedLatex rl in
          let isBlock := classList_contains nd "math-display" in
          replaceWith span (delimited isBlock latex)
        else ret tt
    | None => ret tt
    end) ;;;
  els <- qsa clone sel_br ;;
  forEach els (fun br => replaceWith br (js_newline)) ;;;
  els <- qsa clone sel_blocks ;;
  forEach els (fun block =>
    text <- textOf block ;;
    if truthy text then append block js_newline else ret tt) ;;;
  textOf clone.

(** ** parseListToText *)

(** [':scope > li'] *)
Definition sel_scope_li : selector :=
  [Complex [STag "li"] [(Child, [SScope])]].

(** The prefix of an unordered item as the source file has it: the code
    units U+00E2, U+20AC, U+00A2 and a space. *)
Definition bulletPrefix : jsstring := [226; 8364; 162; 32]%N.

Definition indexed {A} (l : list A) : list (nat * A) :=
  combine (List.seq 0 (length l)) l.

Definition parseListToText (listElement : handle) (isOrdered : bool)
  : M jsstring :=
  items <- qsa listElement sel_scope_li ;;
  lines <-
    foldM (indexed items) []
      (fun lines it =>
         let index := fst it in
         let prefix :=
           if isOrdered then JsString.of_nat (index + 1) ++ js ". "
           else bulletPrefix in
         t <- getElementTextWithStructure (snd it) ;;
         let text := trim t in
         if truthy text
         then ret (lines ++
                   [prefix ++ replace_all (plus (COne 10)) [T " "] text])
         else ret lines) ;;
  ret (join js_newline lines).

(** ** parseCodeBlock, parseTableBlock, parseThinkingBlock *)

(** ['code'] *)
Definition sel_code : selector := any_of [[STag "code"]].
(** a class attribute containing filename or file-name *)
Definition sel_filename : selector :=
  any_of [[SAttrContains "class" "filename"];
          [SAttrContains "class" "file-name"]].

(** [/^(language-|lang-)/] *)
Definition langPrefix : re :=
  seq [Bol; Grp (alts ["language-"; "lang-"]%string)].

Definition parseCodeBlock (t : tree) (element : path) : option CodeBlock :=
  let codeElement :=
    match querySelector t element sel_code with
    | Some c => c
    | None => element
    end in
  let code := text_of t codeElement in
  if negb (truthy (trim code)) then None
  else
    let classList := classList (node_or_empty t codeElement) in
    let langClass :=
      find (fun c => startsWith (js "language-") c ||
                     startsWith (js "lang-") c) classList in
    let language :=
      match langClass with
      | Some c => Some (replace_first langPrefix [] c)
      | None => None
      end in
    let filename :=
      match parentElement t element with
      | Some parent =>
          match querySelector t parent sel_filename with
          | Some filenameElement =>
              let f := trim (text_of t filenameElement) in
              if truthy f then Some f else None
          | None => None
          end
      | None => None
      end in
    Some {| language := language; cb_content := trim code;
            filename := filename |}.

(** ['thead th, thead td'] *)
Definition sel_head_cells : selector :=
  [Complex [STag "th"] [(Descendant, [STag "thead"])];
   Complex [STag "td"] [(Descendant, [STag "thead"])]].
(** ['tr'] *)
Definition sel_tr : selector := any_of [[STag "tr"]].
(** ['th, td'] and ['td, th'] *)
Definition sel_cells : selector := any_of [[STag "th"]; [STag "td"]].
(** ['tbody tr'] *)
Definition sel_body_rows : selector :=
  [Complex [STag "tr"] [(Descendant, [STag "tbody"])]].
(** ['td'] *)
Definition sel_td : selector := any_of [[STag "td"]].

Definition cellTexts (t : tree) (row : path) (sel : selector)
  : list jsstring :=
  map (fun cell => trim (text_of t cell)) (querySelectorAll t row sel).

(** The rows with at least one cell. *)
Definition rowsOf (t : tree) (rws : list path) (sel : selector)
  : list (list jsstring) :=
  filter (fun rowData => 0 <? length rowData)
         (map (fun row => cellTexts t row sel) rws).

Definition parseTableBlock (t : tree) (element : path) : TableBlock :=
  let headers := cellTexts t element sel_head_cells in
  let headers :=
    match headers with
    | [] =>
        match querySelector t element sel_tr with
        | Some firstRow => cellTexts t firstRow sel_cells
        | None => []
        end
    | _ :: _ => headers
    end in
  let rows := rowsOf t (querySelectorAll t element sel_body_rows) sel_td in
  let rows :=
    match rows with
    | [] => rowsOf t (tl (querySelectorAll t element sel_tr)) sel_cells
    | _ :: _ => rows
    end in
  {| headers := headers; rows := rows |}.

(** [SELECTORS.thinkingBlock]: the attribute data-thinking, or a class
    attribute containing thinking. *)
Definition sel_thinking : selector :=
  any_of [[SHasAttr "data-thinking"]; [SAttrContains "class" "thinking"]].

Definition isThinkingElement (t : tree) (element : path) : bool :=
  let nd := node_or_empty t element in
  matches t element sel_thinking ||
  match getAttribute nd "data-thinking" with
  | Some _ => true
  | None => false
  end ||
  includes (js "thinking") (className nd).

Definition parseThinkingBlock (t : tree) (element : path) : ThinkingBlock :=
  let nd := node_or_empty t element in
  {| th_content := trim (text_of t element);
     isCollapsed :=
       match getAttribute nd "data-collapsed" with
       | Some v => str_eqb v (js "true")
       | None => false
       end || classList_contains nd "collapsed" |}.

(** ** parseContentBlocks *)

Definition tagIs (nd : node) (t : string) : bool :=
  str_eqb (tagName nd) (js t).

Definition push {A} (l : list A) (o : option A) : list A :=
  match o with
  | Some x => l ++ [x]
  | None => l
  end.

Definition parseContentBlocks (contentElement : handle)
           (options : ExtractionOptions) : M (list ContentBlock) :=
  let r := h_root contentElement in
  children <- reads (fun w => children (tree_of w r)
                                       (h_path contentElement)) ;;
  match children with
  | [] =>
      t <- textOf contentElement ;;
      let text := trim t in
      if truthy text then ret [BText (createTextBlock text options)]
      else ret []
  | _ :: _ =>
      blocks <-
        foldM children []
          (fun blocks child =>
             nd <- nodeOf (Handle r child) ;;
             if tagIs nd "pre" && parseCodeBlocks options then
               block <- reads (fun w => parseCodeBlock (tree_of w r) child) ;;
               ret (push blocks (option_map BCode block))
             else if tagIs nd "table" && parseTables options then
               block <- reads (fun w => parseTableBlock (tree_of w r) child) ;;
               ret (blocks ++ [BTable block])
             else
               thinking <- reads (fun w =>
                                    includeThinkingBlocks options &&
                                    isThinkingElement (tree_of w r) child) ;;
               if thinking then
                 block <- reads (fun w =>
                                   parseThinkingBlock (tree_of w r) child) ;;
                 ret (blocks ++ [BThinking block])
               else if tagIs nd "ol" || tagIs nd "ul" then
                 listText <- parseListToText (Handle r child)
                                             (tagIs nd "ol") ;;
                 if truthy listText
                 then ret (blocks ++
                           [BText (createTextBlock listText options)])
                 else ret blocks
               else
                 text <- getElementTextWithStructure (Handle r child) ;;
                 if truthy (trim text)
                 then ret (blocks ++ [BText (createTextBlock text options)])
                 else ret blocks) ;;
      match blocks with
      | [] =>
          t <- textOf contentElement ;;
          let allText := trim t in
          if truthy allText then ret [BText (createTextBlock allText options)]
          else ret []
      | _ :: _ => ret blocks
      end
  end.

(** ** parseMessageElement *)

(** ['[data-message-id]'] *)
Definition sel_message_id : selector :=
  any_of [[SHasAttr "data-message-id"]].

Definition extractMessageId (t : tree) (element : path) : option jsstring :=
  match querySelector t element sel_message_id with
  | Some messageIdAttr =>
      getAttribute (node_or_empty t messageIdAttr) "data-message-id"
  | None =>
      let nd := node_or_empty t element in
      match getAttribute nd "data-testid" with
      | Some testId =>
          if truthy testId then Some testId
          else if truthy (id nd) then Some (id nd) else None
      | None => if truthy (id nd) then Some (id nd) else None
      end
  end.

(** [role === 'unknown' ? (index % 2 === 0 ? 'user' : 'assistant') : role] *)
Definition finalRole (role : resolvedRole) (index : nat) : MessageRole :=
  match role with
  | RoleUnknown => if index mod 2 =? 0 then User else Assistant
  | RoleUser => User
  | RoleAssistant => Assistant
  end.

Definition isUnknown (r : resolvedRole) : bool :=
  match r with RoleUnknown => true | _ => false end.

Definition parseMessageElement (element : handle) (index : nat)
           (options : ExtractionOptions) : M (option Message) :=
  let r := h_root element in
  (* Determine role *)
  role <- reads (fun w => getMessageRole (tree_of w r) (h_path element)) ;;
  (* Get content element *)
  contentElement <-
    reads (fun w => getMessageContent (tree_of w r) (h_path element)) ;;
  (* Extract content blocks *)
  content <- match contentElement with
             | Some ce => parseContentBlocks (Handle r ce) options
             | None => ret []
             end ;;
  (* Get raw HTML for fallback *)
  rawHtml <-
    reads (fun w =>
             let t := tree_of w r in
             let own := innerHTML (node_or_empty t (h_path element)) in
             match contentElement with
             | Some ce =>
                 let inner := innerHTML (node_or_empty t ce) in
                 if truthy inner then inner else own
             | None => own
             end) ;;
  (* If we couldn't determine role and have no content, skip *)
  if isUnknown role && (length content =? 0) && negb (truthy (trim rawHtml))
  then ret None
  else
    explicitId <- reads (fun w => extractMessageId (tree_of w r)
                                                   (h_path element)) ;;
    let messageId :=
      if isTruthy explicitId then orDefault [] explicitId
      else js "msg-" ++ JsString.of_nat index in
    ret (Some {| m_id := messageId;
                 m_index := index;
                 role := finalRole role index;
                 content := content;
                 rawHtml := rawHtml;
                 isSelected := true |}).

(** ** extractMessages *)

Definition theDocument : handle := Handle Live [].

Definition fallbackWarning : jsstring :=
  js "Using fallback extraction - structure may not be ideal".

Definition noMessagesError : jsstring :=
  js "No messages found in conversation. Please make sure the page is fully loaded.".

Definition limitWarning (found cap : nat) : jsstring :=
  js "Conversation has " ++ JsString.of_nat found ++
  js " messages, limiting to " ++ JsString.of_nat cap.

Definition fallbackMessage (content rawHtml : jsstring) : Message :=
  {| m_id := js "fallback-0";
     m_index := 0;
     role := Assistant;
     content := [BText {| tb_content := trim content; hasLatex := false;
                          latexExpressions := [] |}];
     rawHtml := rawHtml;
     isSelected := true |}.

(** The loop over the elements to process and the final check. No
    operation that parseMessageElement performs on HTML elements raises an
    exception, so the catch clause of the source, which would push a
    warning and go on with the next element, never runs here. *)
Definition processElements (elementsToProcess : list path)
           (opts : ExtractionOptions) (warnings : list jsstring)
  : M (ExtractionResult (list Message)) :=
  messages <-
    foldM (indexed elementsToProcess) []
      (fun messages it =>
         message <- parseMessageElement (Handle Live (snd it)) (fst it)
                                        opts ;;
         ret (push messages message)) ;;
  match messages with
  | [] =>
      ret {| success := false; data := None;
             error := Some (js "Failed to parse any messages");
             warnings := warnings |}
  | _ :: _ =>
      ret {| success := true; data := Some messages; error := None;
             warnings := warnings |}
  end.

Definition extractMessages (options : PartialOptions)
  : M (ExtractionResult (list Message)) :=
  let opts := withDefaults options in
  let warnings := [] in
  (* Use the robust message finding function *)
  messageElements <-
    reads (fun w => findAllMessageElements (tree_of w Live)) ;;
  if length messageElements =? 0 then
    (* Try one more fallback - just get all text content from main *)
    main <- qs theDocument sel_main ;;
    fallback <-
      match main with
      | Some mainEl =>
          content <- textOf mainEl ;;
          mainNode <- nodeOf mainEl ;;
          if truthy (trim content)
          then ret (Some (fallbackMessage content (innerHTML mainNode)))
          else ret None
      | None => ret None
      end ;;
    let warnings :=
      match main with
      | Some _ => warnings ++ [fallbackWarning]
      | None => warnings
      end in
    match fallback with
    | Some message =>
        ret {| success := true; data := Some [message]; error := None;
               warnings := warnings |}
    | None =>
        ret {| success := false; data := None;
               error := Some noMessagesError; warnings := warnings |}
    end
  else
    (* Check message limit *)
    let warnings :=
      if (0 <? maxMessages opts) &&
         (maxMessages opts <? length messageElements)
      then warnings ++ [limitWarning (length messageElements)
                                     (maxMessages opts)]
      else warnings in
    let elementsToProcess :=
      if 0 <? maxMessages opts
      then firstn (maxMessages opts) messageElements
      else messageElements in
    processElements elementsToProcess opts warnings.

(** ** extractConversation *)

(** The page location and title are read from the browser; the document
    is the live tree of the store. *)
Definition extractConversation (location docTitle : jsstring)
           (options : PartialOptions) : M (ExtractionResult Conversation) :=
  let opts := withDefaults options in
  let warnings := [] in
  pg <- reads (fun w => {| href := location; title := docTitle;
                           document := live w |}) ;;
  if negb (isConversationPage pg) then
    ret {| success := false; data := None;
           error := Some (js "Not on a ChatGPT conversation page");
           warnings := warnings |}
  else
    match getConversationIdFromUrl pg with
    | None =>
        ret {| success := false; data := None;
               error := Some (js "Could not extract conversation ID from URL");
               warnings := warnings |}
    | Some conversationId =>
        let title := getConversationTitle pg in
        messagesResult <- extractMessages (asPartial opts) ;;
        match success messagesResult, data messagesResult with
        | true, Some msgs =>
            ret {| success := true;
                   data := Some {| c_id := conversationId;
                                   c_title := title;
                                   url := location;
                                   messages := msgs;
                                   messageCount := length msgs |};
                   error := None;
                   warnings := warnings ++ Parser.warnings messagesResult |}
        | _, _ =>
            ret {| success := false; data := None;
                   error :=
                     Some (if isTruthy (error messagesResult)
                           then orDefault [] (error messagesResult)
                           else js "Failed to extract messages");
                   warnings := warnings ++ Parser.warnings messagesResult |}
        end
    end.

End Parser.

(* ===================================================================== *)
(** * The export handler (service worker) and its limits
      (src/shared/config.ts) *)
(* ===================================================================== *)

Module ExportHandler.

Import Parser.

Record Limits := {
  warning : nat;
  max : nat;
  progressIndicator : nat
}.

Definition MESSAGE_LIMITS : Limits :=
  {| warning := 500; max := 1000; progressIndicator := 100 |}.

Inductive ExportFormat := Pdf | Markdown | PlainText | Json | Csv | Image.

Inductive ExportStatus :=
| Pending | Extracting | Rendering | Generating | Completed | Failed.

(** Of the export configuration the handler reads the format only; the
    rest is carried along. *)
Record ExportConfig (Rest : Type) := {
  format : ExportFormat;
  others : Rest
}.

Arguments format {Rest} _.
Arguments others {Rest} _.

Record ExportJob (Rest : Type) := {
  job_id : jsstring;
  conversationId : jsstring;
  job_format : ExportFormat;
  job_config : ExportConfig Rest;
  job_selected : list jsstring;
  status : ExportStatus;
  progress : nat;
  job_error : option jsstring
}.

(** The messages the handler answers with. *)
Inductive reply :=
| ExportProgress (jobId : jsstring) (st : ExportStatus) (percent : nat)
                 (step : jsstring)
| ExportError (jobId error : jsstring) (recoverable : bool)
              (suggestion : option jsstring).

(** What the handler sets off besides its answer. *)
Inductive effect (Rest : Type) :=
| TabMessage (tabId : nat) (msg : reply)
| ExecuteExport (jobId : jsstring) (conversation : Conversation)
                (selectedMessages : list Message)
                (config : ExportConfig Rest) (tabId : option nat).

Arguments TabMessage {Rest} tabId msg.
Arguments ExecuteExport {Rest} jobId conversation selectedMessages config tabId.

Record StartExportPayload (Rest : Type) := {
  conversation : Conversation;
  selectedMessageIds : list jsstring;
  config : ExportConfig Rest
}.

Arguments conversation {Rest} _.
Arguments selectedMessageIds {Rest} _.
Arguments config {Rest} _.

(** [if (!tabId) return; ... chrome.tabs.sendMessage(tabId, message)] *)
Definition sendProgressToTab {Rest} (tabId : option nat) (jobId : jsstring)
           (st : ExportStatus) (percent : nat) (step : jsstring)
  : list (effect Rest) :=
  match tabId with
  | Some (S n) => [TabMessage (S n) (ExportProgress jobId st percent step)]
  | _ => []
  end.

(** handleStartExport: the answer, the module variable [currentJob]
    afterwards, and the effects set off. [jobId] stands for the identifier
    the source builds from the clock and a random number. *)
Definition handleStartExport {Rest} (payload : StartExportPayload Rest)
           (tabId : option nat) (jobId : jsstring)
           (currentJob : option (ExportJob Rest))
  : reply * option (ExportJob Rest) * list (effect Rest) :=
  let conversation := conversation payload in
  let selectedMessageIds := selectedMessageIds payload in
  let config := config payload in
  (* Validate message count *)
  if length selectedMessageIds =? 0 then
    (ExportError (js "error-no-messages")
                 (js "No messages selected for export") true
                 (Some (js "Please select at least one message to export")),
     currentJob, [])
  else if max MESSAGE_LIMITS <? length selectedMessageIds then
    (ExportError (js "error-limit-exceeded")
                 (js "Conversation exceeds " ++
                  JsString.of_nat (max MESSAGE_LIMITS) ++
                  js " message limit") false None,
     currentJob, [])
  else
    let job :=
      {| job_id := jobId;
         conversationId := c_id conversation;
         job_format := format config;
         job_config := config;
         job_selected := selectedMessageIds;
         status := Pending;
         progress := 0;
         job_error := None |} in
    let selectedMessages :=
      filter (fun m => existsb (str_eqb (m_id m)) selectedMessageIds)
             (messages conversation) in
    (ExportProgress jobId Pending 0 (js "Starting export..."),
     Some job,
     sendProgressToTab tabId jobId Pending 0 (js "Starting export...") ++
     [ExecuteExport jobId conversation selectedMessages config tabId]).

End ExportHandler.

(* ===================================================================== *)
(** * Vocabulary of the properties, and sample inputs *)
(* ===================================================================== *)

Module Vocabulary.

Import Dom Selectors Parser ExportHandler.

(** ** Scanning *)

(** [s] starts with a unit other than [d], or is empty. *)
Definition hd_ne (d : N) (s : jsstring) : Prop :=
  match s with
  | [] => True
  | x :: _ => x <> d
  end.

(** Every match of [r] starts with the unit [d]. *)
Definition needs_first (d : N) (r : re) : Prop :=
  forall pv rs cs, hd_ne d rs -> m r (MState pv rs cs) = [].

Definition no_unit (d : N) (s : jsstring) : Prop := Forall (fun x => x <> d) s.

(** ** The renderer *)

(** What escapeHtml makes of one code unit. *)
Definition escapeUnit (x : N) : jsstring :=
  if N.eqb x 38 then js "&amp;"
  else if N.eqb x 60 then js "&lt;"
  else if N.eqb x 62 then js "&gt;"
  else if N.eqb x 34 then js "&quot;"
  else if N.eqb x 39 then js "&#39;"
  else [x].

(** The formula handed to the library: trimmed, one final period cut. *)
Definition renderInput (latex : jsstring) : jsstring :=
  if endsWith (js ".") (trim latex) then dropLast (trim latex)
  else trim latex.

Definition strictOptions (o : LatexRenderOptions) : KatexOptions :=
  {| k_displayMode := orDefault false (displayMode o);
     k_throwOnError := true;
     k_errorColor := orDefault (js "#cc0000") (errorColor o);
     k_macros := orDefault [] (macros o);
     k_trust := false; k_strict := StrictWarn |}.

Definition lenientOptions (o : LatexRenderOptions) : KatexOptions :=
  {| k_displayMode := orDefault false (displayMode o);
     k_throwOnError := false;
     k_errorColor := orDefault (js "#cc0000") (errorColor o);
     k_macros := orDefault [] (macros o);
     k_trust := true; k_strict := StrictOff |}.

(** The error-styled inline element around the escaped formula. *)
Definition errorSpan (color latex : jsstring) : jsstring :=
  js "<span style=" ++ dquote ++ js "color: " ++ color ++
  js "; font-family: monospace;" ++ dquote ++ js ">" ++
  flat_map escapeUnit latex ++ js "</span>".

Definition messageOf (e : thrown) : jsstring :=
  match e with
  | ThrownError message => message
  | ThrownOther => js "Unknown error"
  end.

(** A renderer that rejects every formula. *)
Definition rejectAll (_ : jsstring) (_ : KatexOptions) : outcome jsstring :=
  Throws (ThrownError (js "KaTeX parse error")).

(** ** The store *)

(** Started in a store whose live tree is [L], the computation [c] ends
    in a store whose live tree is still [L], with a value that
    satisfies [Q]. *)
Definition hoare (L : node) {A} (c : M A) (Q : A -> Prop) : Prop :=
  forall w, live w = L -> live (snd (c w)) = L /\ Q (fst (c w)).

Definition isScratch (h : handle) : Prop :=
  match h_root h with
  | Scratch _ => True
  | Live => False
  end.

Definition anything {A} : A -> Prop := fun _ => True.

(** A message that comes from the element at position [m_index] of the
    processed elements and has the role resolved for it, or the role of
    its position parity when none was resolved. *)
Definition from_element (L : node) (elements : list path) (msg : Message)
  : Prop :=
  exists e,
    nth_error elements (m_index msg) = Some e /\
    role msg = finalRole (getMessageRole (Tree true L) e) (m_index msg).

(** The elements extractMessages processes: all that were found, or the
    first [maxMessages] of them under a positive cap. *)
Definition elementsToProcess (L : node) (options : PartialOptions)
  : list path :=
  let found := findAllMessageElements (Tree true L) in
  let cap := maxMessages (withDefaults options) in
  if 0 <? cap then firstn cap found else found.

Definition failure {T} (message : jsstring) (ws : list jsstring)
  : ExtractionResult T :=
  {| success := false; data := None; error := Some message;
     warnings := ws |}.

(** The main element offers text to fall back on. *)
Definition fallbackText (doc : tree) : option (jsstring * jsstring) :=
  match querySelector doc [] sel_main with
  | Some mainEl =>
      if truthy (trim (text_of doc mainEl))
      then Some (text_of doc mainEl, innerHTML (node_or_empty doc mainEl))
      else None
  | None => None
  end.

Definition hasMain (doc : tree) : bool :=
  match querySelector doc [] sel_main with
  | Some _ => true
  | None => false
  end.

Definition countOf {T} (o : option (list T)) : nat :=
  match o with
  | Some l => length l
  | None => 0
  end.

(** ** Sample pages and inputs *)

(** The document node over an html and a body element. *)
Definition htmlPage (content : list node) : node :=
  Elem (js "#document") []
       [Elem (js "html") [] [Elem (js "body") [] content]].

(** A paragraph with a struck-out word and a line break. *)
Definition sampleParagraph : node :=
  Elem (js "p") []
       [Text (js "First "); Elem (js "del") [] [Text (js "old")];
        Elem (js "br") [] []; Text (js "line")].

Definition sampleWorld : world := World (htmlPage [sampleParagraph]) [].

(** Two turns without any role marker. *)
Definition plainTurns : world :=
  World (htmlPage
           [Elem (js "main") []
              [Elem (js "article") [] [Elem (js "p") [] [Text (js "hello")]];
               Elem (js "article") [] [Elem (js "p") [] [Text (js "hi")]]]])
        [].

(** A page without article elements whose turns carry a test id. *)
Definition turnsByTestId : tree :=
  Tree true
    (htmlPage
       [Elem (js "main") []
          [Elem (js "div")
                [(js "data-testid", js "conversation-turn-1")]
                [Text (js "hello")];
           Elem (js "div")
                [(js "data-testid", js "conversation-turn-2");
                 (js "data-message-author-role", js "assistant")]
                [Text (js "hi")]]]).

(** A page whose only content is text directly inside main. *)
Definition bareMain : world :=
  World (htmlPage [Elem (js "main") [] [Text (js "Hello")]]) [].

(** A page without main element and without message elements. *)
Definition emptyPage : world :=
  World (htmlPage [Text (js "x")]) [].

(** A page with [n] turns, each an article with a short text. *)
Definition manyTurns (n : nat) : world :=
  World (htmlPage
           [Elem (js "main") []
              (repeat (Elem (js "article") [] [Text (js "hi")]) n)])
        [].

Definition capAt (n : nat) : PartialOptions :=
  {| p_includeRawHtml := None; p_extractTimestamps := None;
     p_parseLaTeX := None; p_parseCodeBlocks := None; p_parseTables := None;
     p_includeThinkingBlocks := None; p_maxMessages := Some n |}.

Definition tooMany : StartExportPayload unit :=
  {| conversation :=
       {| c_id := js "abc"; c_title := js "t"; url := js "u";
          messages := []; messageCount := 0 |};
     selectedMessageIds := repeat (js "msg-0") 1001;
     config := {| format := Pdf; others := tt |} |}.

End Vocabulary.

Import Vocabulary.

(* ===================================================================== *)
(** * Further functions of the cited modules *)
(* ===================================================================== *)

(** ** unescapeHtmlEntities and containsLatex (shared LaTeX module) *)

Module LatexText.

(** [text.replace(/&lt;/g, '<').replace(/&gt;/g, '>')
         .replace(/&amp;/g, '&').replace(/&quot;/g, quotation mark)
         .replace(/&#39;/g, apostrophe)] *)
Definition unescapeHtmlEntities (text : jsstring) : jsstring :=
  let t := replace_all (lit "&lt;") [T "<"] text in
  let t := replace_all (lit "&gt;") [T ">"] t in
  let t := replace_all (lit "&amp;") [T "&"] t in
  let t := replace_all (lit "&quot;") [TLit dquote] t in
  replace_all (lit "&#39;") [T "'"] t.

Definition notDollar : re := plus (CNot [dollar]).

(** The ten tests of containsLatex, in order. *)
Definition latexTests : list (string * re) :=
  [ ("/\$[^$]+\$/", seq [lit "$"; notDollar; lit "$"]);
    ("/\\\([^)]+\\\)/", seq [lit "\("; plus (CNot [41%N]); lit "\)"]);
    ("/\\\[[^\]]+\\\]/", seq [lit "\["; plus (CNot [93%N]); lit "\]"]);
    ("/\\begin\{/", lit "\begin{");
    ("/\\frac\{/", lit "\frac{");
    ("/\\sqrt\{/", lit "\sqrt{");
    ("/\\sum/", lit "\sum");
    ("/\\int/", lit "\int");
    ("/\\alpha|\\beta|\\gamma|\\delta/",
     alts ["\alpha"; "\beta"; "\gamma"; "\delta"]%string);
    ("/\\ge|\\le|\\neq/", alts ["\ge"; "\le"; "\neq"]%string) ]%string.

Definition containsLatex (text : jsstring) : bool :=
  existsb (fun t => test (snd t) text) latexTests.

End LatexText.

Import LatexText.

(** ** sanitizeFilename (src/exporters/types.ts) *)

Module Filenames.

(** The units of the class of characters a file name may not hold:
    less-than, greater-than, colon, quotation mark, slash, backslash,
    bar, question mark and star. *)
Definition invalidUnits : list N := [60; 62; 58; 34; 47; 92; 124; 63; 42]%N.

Definition hyphen : N := 45.

(** Four replacements and a cut: every invalid character becomes a dash,
    every run of white space becomes a dash, every run of dashes becomes
    one dash, a leading and a trailing dash are removed, and
    [substring(0, 200)] keeps the first 200 units. *)
Definition sanitizeFilename (filename : jsstring) : jsstring :=
  let f := replace_all (Chr (COneOf invalidUnits)) [TLit [hyphen]] filename in
  let f := replace_all (plus CSpace) [TLit [hyphen]] f in
  let f := replace_all (plus (COne hyphen)) [TLit [hyphen]] f in
  let f := replace_all (Alt (Seq Bol (Chr (COne hyphen)))
                            (Seq (Chr (COne hyphen)) Eoi)) [] f in
  firstn 200 f.

End Filenames.

Import Filenames.

(** ** validateSelectors (src/content/dom/selectors.ts) *)

Module SelectorValidation.

Import Dom Selectors.

(** [SELECTORS.conversationContainerFallback]: the attribute role with the
    value main. *)
Definition sel_role_main : selector := any_of [[SAttrEq "role" "main"]].

(** [SELECTORS.messageGroup]: article elements, a data-testid starting
    with conversation-turn, or the attribute data-message-author-role. *)
Definition sel_messageGroup : selector :=
  any_of [[STag "article"];
          [SAttrPrefix "data-testid" "conversation-turn"];
          [SHasAttr "data-message-author-role"]].

(** [SELECTORS.messageGroupFallback]: a class attribute containing both
    group and w-full, or containing conversation-turn. *)
Definition sel_messageGroupFallback : selector :=
  any_of [[SAttrContains "class" "group"; SAttrContains "class" "w-full"];
          [SAttrContains "class" "conversation-turn"]].

(** [SELECTORS.messageContent]: the classes markdown and prose, or a class
    attribute containing markdown or prose. *)
Definition sel_messageContent : selector :=
  any_of [[SClass "markdown"]; [SClass "prose"];
          [SAttrContains "class" "markdown"];
          [SAttrContains "class" "prose"]].

(** [SELECTORS.messageContentFallback]: a class attribute containing
    text-base or whitespace-pre-wrap. *)
Definition sel_messageContentFallback : selector :=
  any_of [[SAttrContains "class" "text-base"];
          [SAttrContains "class" "whitespace-pre-wrap"]].

Record SelectorValidationResult := {
  valid : bool;
  working : list string;
  broken : list string
}.

Definition isSome {A} (o : option A) : bool :=
  match o with Some _ => true | None => false end.

(** One [if (ok) working.push(name) else broken.push(name)]. *)
Definition record (ok : bool) (name : string)
           (wb : list string * list string) : list string * list string :=
  if ok then (fst wb ++ [name], snd wb) else (fst wb, snd wb ++ [name]).

Definition validateSelectors (doc : tree) : SelectorValidationResult :=
  let wb := ([], []) in
  (* Check conversation container *)
  let container :=
    isSome (querySelector doc [] sel_main) ||
    isSome (querySelector doc [] sel_role_main) in
  let wb := record container "conversationContainer" wb in
  (* Check for message groups *)
  let messages := querySelectorAll doc [] sel_messageGroup in
  let messagesFallback := querySelectorAll doc [] sel_messageGroupFallback in
  let articles := querySelectorAll doc [] sel_article in
  let wb :=
    record ((0 <? length messages) || (0 <? length messagesFallback) ||
            (0 <? length articles)) "messageGroup" wb in
  (* Check for message content *)
  let content :=
    isSome (querySelector doc [] sel_messageContent) ||
    isSome (querySelector doc [] sel_messageContentFallback) in
  let wb := record content "messageContent" wb in
  {| valid := length (snd wb) =? 0; working := fst wb; broken := snd wb |}.

End SelectorValidation.

Import SelectorValidation.


(** ** Message schemas and their guards (src/shared/messages.ts) *)

Module MessageSchemas.

(** The values a message can be made of: a received message is of type
    unknown. An array counts as an object here, as for [typeof]. *)
#[warnings="-register-all"]
Inductive jsvalue :=
| JUndefined
| JNull
| JBool (b : bool)
| JNum (n : nat)
| JStr (s : jsstring)
| JObj (fields : list (jsstring * jsvalue))
| JFun.

(** [typeof v] *)
Definition typeOf (v : jsvalue) : string :=
  match v with
  | JUndefined => "undefined"
  | JNull => "object"
  | JBool _ => "boolean"
  | JNum _ => "number"
  | JStr _ => "string"
  | JObj _ => "object"
  | JFun => "function"
  end.

Fixpoint lookup (name : jsstring) (fs : list (jsstring * jsvalue))
  : jsvalue :=
  match fs with
  | [] => JUndefined
  | (k, v) :: fs' => if str_eqb k name then v else lookup name fs'
  end.

(** [v.name] on a value that is not null or undefined. *)
Definition field (name : string) (v : jsvalue) : jsvalue :=
  match v with
  | JObj fs => lookup (js name) fs
  | _ => JUndefined
  end.

Definition VALID_MESSAGE_TYPES : list string :=
  [ "EXTRACT_CONVERSATION"; "START_EXPORT"; "GET_CONFIG"; "SAVE_CONFIG";
    "REPORT_SELECTOR_FAILURE"; "EXTRACTION_RESULT"; "EXPORT_PROGRESS";
    "EXPORT_COMPLETE"; "EXPORT_ERROR"; "CONFIG_RESULT"; "CONFIG_SAVED";
    "SELECTOR_UPDATE_AVAILABLE"; "GET_EXPORT_HISTORY";
    "EXPORT_HISTORY_RESULT"; "DISMISS_DONATION_PROMPT";
    "OPEN_OPTIONS_PAGE" ]%string.

(** [set.has(t)] and [array.includes(t)] for a string [t]. *)
Definition has (types : list string) (t : jsstring) : bool :=
  existsb (fun v => str_eqb (js v) t) types.

Definition isNull (v : jsvalue) : bool :=
  match v with JNull => true | _ => false end.

Definition isValidMessage (msg : jsvalue) : bool :=
  if negb (String.eqb (typeOf msg) "object") || isNull msg then false
  else
    match field "type" msg with
    | JStr t => has VALID_MESSAGE_TYPES t
    | _ => false
    end.

(** [msg.type] of a message that passed isValidMessage. *)
Definition typeField (msg : jsvalue) : jsstring :=
  match field "type" msg with
  | JStr t => t
  | _ => []
  end.

Definition contentScriptTypes : list string :=
  [ "EXTRACT_CONVERSATION"; "START_EXPORT"; "GET_CONFIG"; "SAVE_CONFIG";
    "REPORT_SELECTOR_FAILURE" ]%string.

Definition isContentScriptMessage (msg : jsvalue) : bool :=
  if negb (isValidMessage msg) then false
  else has contentScriptTypes (typeField msg).

Definition serviceWorkerTypes : list string :=
  [ "EXTRACTION_RESULT"; "EXPORT_PROGRESS"; "EXPORT_COMPLETE";
    "EXPORT_ERROR"; "CONFIG_RESULT"; "CONFIG_SAVED";
    "SELECTOR_UPDATE_AVAILABLE" ]%string.

Definition isServiceWorkerMessage (msg : jsvalue) : bool :=
  if negb (isValidMessage msg) then false
  else has serviceWorkerTypes (typeField msg).

(** ** Message creators *)

Definition message (type : string) (payload : list (jsstring * jsvalue))
  : jsvalue :=
  JObj [(js "type", JStr (js type)); (js "payload", JObj payload)].

Definition createGetConfigMessage : jsvalue := message "GET_CONFIG" [].

Definition createSaveConfigMessage (config : jsvalue) : jsvalue :=
  message "SAVE_CONFIG" [(js "config", config)].

Definition createStartExportMessage
           (conversation selectedMessageIds config : jsvalue) : jsvalue :=
  message "START_EXPORT"
          [(js "conversation", conversation);
           (js "selectedMessageIds", selectedMessageIds);
           (js "config", config)].

Definition createExportProgressMessage (jobId : jsstring) (status : jsvalue)
           (progress : nat) (currentStep : jsstring) : jsvalue :=
  message "EXPORT_PROGRESS"
          [(js "jobId", JStr jobId); (js "status", status);
           (js "progress", JNum progress);
           (js "currentStep", JStr currentStep)].

Definition createExportCompleteMessage (jobId filename : jsstring)
           (format : jsvalue) (blobUrl : jsstring) (byteSize : nat)
  : jsvalue :=
  message "EXPORT_COMPLETE"
          [(js "jobId", JStr jobId); (js "filename", JStr filename);
           (js "format", format); (js "blobUrl", JStr blobUrl);
           (js "byteSize", JNum byteSize)].

Definition createExportErrorMessage (jobId error : jsstring)
           (recoverable : bool) (suggestion : option jsstring) : jsvalue :=
  message "EXPORT_ERROR"
          [(js "jobId", JStr jobId); (js "error", JStr error);
           (js "recoverable", JBool recoverable);
           (js "suggestion",
            match suggestion with
            | Some s => JStr s
            | None => JUndefined
            end)].

End MessageSchemas.

Import MessageSchemas.

(** ** generateFilename (src/exporters/types.ts) *)

Module FilenameGeneration.

Import Parser ExportHandler.

Definition FILE_EXTENSIONS (format : ExportFormat) : string :=
  match format with
  | Pdf => "pdf"
  | Markdown => "md"
  | PlainText => "txt"
  | Json => "json"
  | Csv => "csv"
  | Image => "png"
  end.

(** The text that takes the place of a match when the replacement is given
    as a string and the pattern has no capture group: two dollar signs
    stand for one, a dollar sign with an ampersand for the matched text,
    with a grave accent for the text before the match and with an
    apostrophe for the text behind it; every other unit stands for
    itself. *)
Fixpoint getSubstitution (matched before after replacement : jsstring)
  : jsstring :=
  match replacement with
  | [] => []
  | c :: r =>
      if N.eqb c 36 then
        match r with
        | d :: r' =>
            if N.eqb d 36
            then 36%N :: getSubstitution matched before after r'
            else if N.eqb d 38
            then matched ++ getSubstitution matched before after r'
            else if N.eqb d 96
            then before ++ getSubstitution matched before after r'
            else if N.eqb d 39
            then after ++ getSubstitution matched before after r'
            else c :: getSubstitution matched before after r
        | [] => [c]
        end
      else c :: getSubstitution matched before after r
  end.

(** [s.replace(/r/g, f)] where [f] makes the replacement from the matched
    text, the text before it and the text behind it. *)
Fixpoint replace_scan_with (r : re)
         (f : jsstring -> jsstring -> jsstring -> jsstring)
         (pv rs : list N) (skip : nat) {struct rs} : jsstring :=
  match skip with
  | S k =>
      match rs with
      | [] => []
      | c :: rs' => replace_scan_with r f (c :: pv) rs' k
      end
  | O =>
      match exec_at r pv rs with
      | Some st' =>
          let n := length rs - length (rest st') in
          f (firstn n rs) (rev pv) (rest st') ++
          match rs with
          | [] => []
          | c :: rs' =>
              match n with
              | O => c :: replace_scan_with r f (c :: pv) rs' 0
              | S k => replace_scan_with r f (c :: pv) rs' k
              end
          end
      | None =>
          match rs with
          | [] => []
          | c :: rs' => c :: replace_scan_with r f (c :: pv) rs' 0
          end
      end
  end.

(** [s.replace(/r/g, replacement)] for a replacement held in a variable. *)
Definition replaceAllString (r : re) (replacement s : jsstring) : jsstring :=
  replace_scan_with r
    (fun matched before after =>
       getSubstitution matched before after replacement) [] s 0.

(** generateFilename. [today] stands for
    [new Date().toISOString().split('T')[0]] and [now] for
    [Date.now().toString()]. *)
Definition generateFilename (template : jsstring) (conversation : Conversation)
           (format : ExportFormat) (today now : jsstring) : jsstring :=
  let extension := js (FILE_EXTENSIONS format) in
  (* Replace placeholders *)
  let filename := replaceAllString (lit "{title}") (c_title conversation)
                                   template in
  let filename := replaceAllString (lit "{id}") (c_id conversation)
                                   filename in
  let filename := replaceAllString (lit "{date}") today filename in
  let filename := replaceAllString (lit "{timestamp}") now filename in
  (* Sanitize filename *)
  let filename := sanitizeFilename filename in
  (* Add extension if not present *)
  if negb (endsWith (js "." ++ extension) filename)
  then filename ++ js "." ++ extension
  else filename.

End FilenameGeneration.

Import FilenameGeneration.

(* ===================================================================== *)
(** * Vocabulary of the further properties *)
(* ===================================================================== *)

From Stdlib Require Import Sorted.

Module MoreVocabulary.

Import Dom Selectors Parser ExportHandler.

(** ** Scanning *)

(** The scan for [r] copies the piece [a] as it is. *)
Definition passes (r : re) (tpl : template) (a : jsstring) : Prop :=
  forall pv tl,
    replace_scan r tpl pv (a ++ tl) 0 =
    a ++ replace_scan r tpl (rev a ++ pv) tl 0.

(** The text with the characters of [E] escaped. *)
Definition esc (E : list N) (x : N) : jsstring :=
  if mem x E then escapeUnit x else [x].

(** ** Formulas *)

(** The order of the start indices. *)
Definition byStart (a b : Expression) : Prop := startIndex a <= startIndex b.

(** ** Blocks and messages *)

(** A text or code block with content; the other kinds of block carry no
    such condition. *)
Definition substantial (b : ContentBlock) : Prop :=
  match b with
  | BText tb => tb_content tb <> []
  | BCode cb => cb_content cb <> []
  | _ => True
  end.

(** The element parseCodeBlock reads the code from: the first code element
    inside, or the element itself. *)
Definition codeElementOf (t : tree) (element : path) : path :=
  match querySelector t element sel_code with
  | Some c => c
  | None => element
  end.

(** A message as parseMessageElement and the fallback make it: an
    identifier, the selection flag set, and only text and code blocks with
    content. *)
Definition wellFormed (msg : Message) : Prop :=
  m_id msg <> [] /\ isSelected msg = true /\
  Forall substantial (content msg).

(** The indices of the messages increase strictly. *)
Definition increasing (msgs : list Message) : Prop :=
  StronglySorted lt (map m_index msgs).

(** ** Messages *)

(** The message types that are valid but belong to neither the content
    script nor the service worker. *)
Definition otherTypes : list string :=
  [ "GET_EXPORT_HISTORY"; "EXPORT_HISTORY_RESULT";
    "DISMISS_DONATION_PROMPT"; "OPEN_OPTIONS_PAGE" ]%string.

End MoreVocabulary.

Import MoreVocabulary.

(* ===================================================================== *)
(** * Properties *)
(* ===================================================================== *)

(** ** The matcher *)

Section MatcherFacts.

Lemma mem_In (c : N) (cs : list N) : mem c cs = true <-> In c cs.
Proof.
  induction cs as [|d cs IH]; simpl.
  - split; [discriminate | tauto].
  - rewrite orb_true_iff, N.eqb_eq, IH. split; intros [H|H]; auto.
Qed.

Lemma flat_map_nil {A B} (f : A -> list B) (l : list A) :
  (forall x, In x l -> f x = []) -> flat_map f l = [].
Proof.
  induction l as [|x l IH]; simpl; intros H; [reflexivity|].
  rewrite (H x (or_introl eq_refl)), IH; auto.
Qed.

Lemma star_suffix cl pv rs p :
  In p (star cl pv rs) -> exists l, rs = l ++ snd p.
Proof.
  revert pv; induction rs as [|c rs IH]; simpl; intros pv H.
  - destruct H as [<-|[]]. now exists [].
  - destruct (cmatch cl c).
    + apply in_app_or in H. destruct H as [H|[<-|[]]].
      * destruct (IH _ H) as [l ->]. now exists (c :: l).
      * now exists [].
    + destruct H as [<-|[]]. now exists [].
Qed.

(** A match only moves forward: what is left is a suffix of the input. *)
Lemma m_suffix r : forall st st',
  In st' (m r st) -> exists l, rest st = l ++ rest st'.
Proof.
  induction r; simpl; intros st st' H.
  - destruct (rest st) as [|c rs]; [destruct H|].
    destruct (cmatch cl c); [|destruct H].
    destruct H as [<-|[]]. now exists [c].
  - destruct H as [<-|[]]. now exists [].
  - apply in_flat_map in H. destruct H as (st1 & H1 & H2).
    destruct (IHr1 _ _ H1) as [l1 E1], (IHr2 _ _ H2) as [l2 E2].
    exists (l1 ++ l2). now rewrite E1, E2, app_assoc.
  - apply in_app_or in H. destruct H; eauto.
  - apply in_map_iff in H. destruct H as (p & <- & H).
    apply star_suffix in H. exact H.
  - apply in_map_iff in H. destruct H as (st1 & <- & H). simpl. eauto.
  - destruct (prev st); simpl in H; [|contradiction].
    destruct H as [<-|[]]. now exists [].
  - destruct (rest st) eqn:E; simpl in H; [|contradiction].
    destruct H as [<-|[]]. exists []. now rewrite E.
  - destruct (prev st) as [|c ?]; [|destruct (is_line_terminator c)];
      simpl in H; try contradiction;
      destruct H as [<-|[]]; now exists [].
  - destruct (rest st) as [|c ?] eqn:E; [|destruct (is_line_terminator c)];
      simpl in H; try contradiction;
      destruct H as [<-|[]]; exists []; now rewrite E.
  - destruct (m r st); simpl in H; [|contradiction].
    destruct H as [<-|[]]. now exists [].
  - destruct (prev st) as [|c ?]; [|destruct (cmatch cl c)];
      simpl in H; try contradiction;
      destruct H as [<-|[]]; now exists [].
Qed.

Lemma free_of_suffix T l s : free_of T (l ++ s) -> free_of T s.
Proof. unfold free_of. rewrite Forall_app. tauto. Qed.

(** A pattern that needs a unit of [T] has no match in an input without. *)
Lemma m_needs_nil T r : forall st,
  needs T r = true -> free_of T (rest st) -> m r st = [].
Proof.
  induction r; simpl; intros st Hn Hf; try discriminate.
  - destruct (rest st) as [|c rs]; [reflexivity|].
    inversion Hf as [|? ? Hc _]; subst.
    destruct cl; try discriminate; simpl.
    + destruct (N.eqb_spec c c0) as [->|]; [congruence | reflexivity].
    + destruct (mem c cs) eqn:E; [|reflexivity].
      apply mem_In in E. rewrite forallb_forall in Hn.
      rewrite (Hn _ E) in Hc. discriminate.
  - apply orb_true_iff in Hn. destruct Hn as [Hn|Hn].
    + now rewrite IHr1.
    + apply flat_map_nil. intros st1 H1. apply IHr2; [exact Hn|].
      destruct (m_suffix _ _ _ H1) as [l E]. rewrite E in Hf.
      eapply free_of_suffix; eauto.
  - apply andb_true_iff in Hn. destruct Hn. now rewrite IHr1, IHr2.
  - now rewrite IHr.
Qed.

Lemma exec_at_needs T r pv rs :
  needs T r = true -> free_of T rs -> exec_at r pv rs = None.
Proof. intros Hn Hf. unfold exec_at. now rewrite (m_needs_nil T r). Qed.

Lemma replace_scan_free T r tp : forall rs pv,
  needs T r = true -> free_of T rs -> replace_scan r tp pv rs 0 = rs.
Proof.
  induction rs as [|c rs IH]; intros pv Hn Hf; simpl;
    rewrite (exec_at_needs T r) by assumption; [reflexivity|].
  inversion Hf; subst. now rewrite IH.
Qed.

Lemma replace_first_scan_free T r tp : forall rs pv,
  needs T r = true -> free_of T rs -> replace_first_scan r tp pv rs = rs.
Proof.
  induction rs as [|c rs IH]; intros pv Hn Hf; simpl;
    rewrite (exec_at_needs T r) by assumption; [reflexivity|].
  inversion Hf; subst. now rewrite IH.
Qed.

Lemma apply_rule_free T rl s :
  needs T (pat rl) = true -> free_of T s -> apply_rule rl s = s.
Proof.
  intros Hn Hf. unfold apply_rule, replace_all, replace_first.
  destruct (global rl);
    [eapply replace_scan_free | eapply replace_first_scan_free]; eauto.
Qed.

Lemma apply_rules_free T rls : forall s,
  forallb (fun rl => needs T (pat rl)) rls = true ->
  free_of T s -> apply_rules rls s = s.
Proof.
  unfold apply_rules.
  induction rls as [|rl rls IH]; simpl; intros s Hn Hf; [reflexivity|].
  apply andb_true_iff in Hn. destruct Hn as [H1 H2].
  rewrite (apply_rule_free T) by assumption. now apply IH.
Qed.

Lemma free_of_count T c s :
  mem c T = true -> free_of T s -> count c s = 0.
Proof.
  unfold count. intros Hc Hf.
  induction Hf as [|d s Hd _ IH]; [reflexivity|]. simpl.
  destruct (N.eqb_spec c d) as [->|]; [congruence | exact IH].
Qed.

Lemma free_ofb_spec T s : free_ofb T s = true -> free_of T s.
Proof.
  unfold free_ofb, free_of. rewrite forallb_forall, Forall_forall.
  intros H c Hc. specialize (H c Hc). now destruct (mem c T).
Qed.

End MatcherFacts.

(** ** Brace counting *)

Section BraceFacts.

Lemma count_app c s t : count c (s ++ t) = count c s + count c t.
Proof. unfold count. now rewrite filter_app, length_app. Qed.

Lemma count_repeat_same c n : count c (repeat1 c n) = n.
Proof.
  unfold count, repeat1. induction n; simpl; [reflexivity|].
  rewrite N.eqb_refl. simpl. now rewrite IHn.
Qed.

Lemma count_repeat_other c d n : c <> d -> count c (repeat1 d n) = 0.
Proof.
  unfold count, repeat1. intros Hne. induction n; simpl; [reflexivity|].
  destruct (N.eqb_spec c d); [contradiction | exact IHn].
Qed.

Lemma balanceBraces_spec s :
  balanceBraces s =
  s ++ repeat1 close_brace (count open_brace s - count close_brace s).
Proof.
  unfold balanceBraces.
  destruct (Nat.ltb_spec (count close_brace s) (count open_brace s)) as [H|H].
  - reflexivity.
  - replace (count open_brace s - count close_brace s) with 0 by lia.
    simpl. now rewrite app_nil_r.
Qed.

End BraceFacts.

(** ** The repair passes *)

Lemma fixRules_need_trigger :
  forallb (fun rl => needs fixTriggers (pat rl)) fixRules = true.
Proof. vm_compute. reflexivity. Qed.

Lemma cleanRules_need_trigger :
  forallb (fun rl => needs cleanTriggers (pat rl)) cleanRules = true.
Proof. vm_compute. reflexivity. Qed.

Lemma pdfRules_need_trigger :
  forallb (fun rl => needs pdfTriggers (pat rl)) pdfRules = true.
Proof. vm_compute. reflexivity. Qed.

Lemma fixCorruptedLatex_free x :
  free_of pdfTriggers x -> fixCorruptedLatex x = x.
Proof.
  intros H. unfold fixCorruptedLatex.
  apply (apply_rules_free pdfTriggers); [apply pdfRules_need_trigger | exact H].
Qed.

Lemma fixCorruptedLatexPatterns_free x :
  free_of fixTriggers x -> fixCorruptedLatexPatterns x = x.
Proof.
  intros H. unfold fixCorruptedLatexPatterns.
  apply (apply_rules_free fixTriggers); [apply fixRules_need_trigger | exact H].
Qed.

Lemma cleanLatexContent_free x :
  free_of cleanTriggers x -> cleanLatexContent x = x.
Proof.
  intros H. unfold cleanLatexContent.
  rewrite (apply_rules_free cleanTriggers);
    [| apply cleanRules_need_trigger | exact H].
  unfold balanceBraces.
  rewrite (free_of_count cleanTriggers open_brace) by (reflexivity || exact H).
  reflexivity.
Qed.




(** C4, as the specification states it, fails for the repair pass as a
    whole: the rewrite rules that run before the balancing step delete and
    insert braces. [\underline{x}] has as many closing as opening braces
    and loses both; [\langle] has no brace and gains two. *)
Lemma C4_rules_change_braces :
  count open_brace (js "\underline{x}") <= count close_brace (js "\underline{x}") /\
  cleanLatexContent (js "\underline{x}") = js "x" /\
  count open_brace (cleanLatexContent (js "\underline{x}"))
    <> count open_brace (js "\underline{x}") /\
  cleanLatexContent (js "\langle") = js "{}".
Proof. repeat split; vm_compute; try congruence. lia. Qed.

(** C4, amended: the balancing step works on the string [y] that the
    rewrite rules of cleanLatexContent produce, not on the raw formula. It
    appends to [y] exactly (opening braces of y - closing braces of y)
    closing braces, none when the difference is not positive, and changes
    nothing else: the opening braces stay as they are in [y], and the
    result has max(opening, closing) closing braces, so it is balanced
    whenever [y] had more opening braces. On [\frac{1}{2] no rule applies
    and the result is [\frac{1}{2}]. *)
Theorem C4_balancer_appends_deficit (x : jsstring) :
  let y := apply_rules cleanRules x in
  cleanLatexContent x =
    y ++ repeat1 close_brace (count open_brace y - count close_brace y) /\
  count open_brace (cleanLatexContent x) = count open_brace y /\
  count close_brace (cleanLatexContent x) =
    Nat.max (count open_brace y) (count close_brace y) /\
  apply_rules cleanRules (js "\frac{1}{2") = js "\frac{1}{2" /\
  cleanLatexContent (js "\frac{1}{2") = js "\frac{1}{2}".
Proof.
  intros y. unfold cleanLatexContent. fold y.
  rewrite balanceBraces_spec. repeat split.
  - rewrite count_app, count_repeat_other by discriminate. lia.
  - rewrite count_app, count_repeat_same. lia.
Qed.

(** ** Scanning for dollar-delimited spans *)

Section ScanFacts.

Import Parser.

Lemma needs_first_chr d r2 : needs_first d (Seq (Chr (COne d)) r2).
Proof.
  intros pv rs cs H. simpl. destruct rs as [|x rs]; [reflexivity|].
  simpl in H. destruct (N.eqb_spec x d); [contradiction | reflexivity].
Qed.

Lemma needs_first_behind d cl r2 :
  needs_first d (Seq (NotBehind cl) (Seq (Chr (COne d)) r2)).
Proof.
  intros pv rs cs H.
  change (m (Seq (NotBehind cl) (Seq (Chr (COne d)) r2)) (MState pv rs cs))
    with (flat_map (m (Seq (Chr (COne d)) r2))
                   (m (NotBehind cl) (MState pv rs cs))).
  apply flat_map_nil. intros st Hst. simpl in Hst.
  assert (E : st = MState pv rs cs).
  { destruct pv as [|c pv]; [|destruct (cmatch cl c)]; simpl in Hst;
      try contradiction; destruct Hst as [<-|[]]; reflexivity. }
  subst st. now apply needs_first_chr.
Qed.

Lemma exec_at_first d r pv rs :
  needs_first d r -> hd_ne d rs -> exec_at r pv rs = None.
Proof. intros Hr H. unfold exec_at. now rewrite Hr. Qed.

Lemma firstn_len_app {A} (a b : list A) : firstn (length a) (a ++ b) = a.
Proof. induction a; simpl; [reflexivity | now f_equal]. Qed.

Lemma exec_scan_skip r : forall l pv rs,
  exec_scan r pv (l ++ rs) (length l) = exec_scan r (rev l ++ pv) rs 0.
Proof.
  induction l as [|c l IH]; intros pv rs; simpl; [reflexivity|].
  rewrite IH, <- app_assoc. reflexivity.
Qed.

Lemma exec_scan_skip_all r l pv :
  exec_scan r pv l (length l) = exec_scan r (rev l ++ pv) [] 0.
Proof. rewrite <- (app_nil_r l) at 1. apply exec_scan_skip. Qed.

Lemma exec_scan_free d r : needs_first d r -> forall l pv rs,
  no_unit d l ->
  exec_scan r pv (l ++ rs) 0 = exec_scan r (rev l ++ pv) rs 0.
Proof.
  intros Hr. induction l as [|c l IH]; intros pv rs Hl; [reflexivity|].
  inversion Hl; subst. simpl.
  rewrite (exec_at_first d) by (assumption || (simpl; assumption)).
  rewrite IH by assumption. now rewrite <- app_assoc.
Qed.

Lemma exec_scan_end d r pv : needs_first d r -> exec_scan r pv [] 0 = [].
Proof. intros Hr. simpl. now rewrite (exec_at_first d) by (assumption || exact I). Qed.

Lemma exec_scan_free_end d r l pv :
  needs_first d r -> no_unit d l -> exec_scan r pv l 0 = [].
Proof.
  intros Hr Hl. rewrite <- (app_nil_r l).
  rewrite (exec_scan_free d) by assumption. now apply (exec_scan_end d).
Qed.

Lemma exec_scan_none r pv c rs :
  exec_at r pv (c :: rs) = None ->
  exec_scan r pv (c :: rs) 0 = exec_scan r (c :: pv) rs 0.
Proof. intros H. simpl. now rewrite H. Qed.

Lemma exec_scan_some r pv c rs st' :
  exec_at r pv (c :: rs) = Some st' ->
  exec_scan r pv (c :: rs) 0 =
  RMatch (length pv)
         (firstn (length (c :: rs) - length (rest st')) (c :: rs))
         (caps st') ::
  exec_scan r (c :: pv) rs (length (c :: rs) - length (rest st') - 1).
Proof. intros H. unfold exec_scan at 1. fold exec_scan. now rewrite H. Qed.

(** The greedy class [[^d]*] on a run of units other than [d] followed by
    [d]: the first alternative takes the whole run, every other one stops
    inside the run. *)
Lemma star_run d post : forall f pv,
  no_unit d f ->
  exists tail,
    star (CNot [d]) pv (f ++ d :: post) = (rev f ++ pv, d :: post) :: tail /\
    Forall (fun p => hd_ne d (snd p) /\ snd p <> []) tail.
Proof.
  induction f as [|x f IH]; intros pv Hf.
  - exists []. simpl. rewrite N.eqb_refl. simpl. now split.
  - inversion Hf as [|? ? Hx Hf']; subst.
    destruct (IH (x :: pv) Hf') as (tail & E & Ht).
    exists (tail ++ [(pv, x :: f ++ d :: post)]). simpl.
    destruct (N.eqb_spec x d) as [|_]; [contradiction|]. simpl.
    rewrite E, <- app_assoc. split; [reflexivity|].
    apply Forall_app. split; [exact Ht|].
    constructor; [|constructor]. simpl. split; [exact Hx | discriminate].
Qed.

(** A group [([^d]+)] followed by a pattern that starts with [d], on a
    non-empty run [f] without [d] followed by [d]: the group captures
    exactly [f]. *)
Lemma m_group_run d r2 f post pv cs :
  needs_first d r2 -> f <> [] -> no_unit d f ->
  m (Seq (Grp (plus (CNot [d]))) r2) (MState pv (f ++ d :: post) cs) =
  m r2 (MState (rev f ++ pv) (d :: post) (cs ++ [f])).
Proof.
  intros Hr Hne Hf. destruct f as [|x f]; [congruence|].
  inversion Hf as [|? ? Hx Hf']; subst.
  cbn [m plus flat_map rest prev caps app].
  replace (cmatch (CNot [d]) x) with true
    by (simpl; destruct (N.eqb_spec x d); [contradiction | reflexivity]).
  cbn [flat_map m rest prev caps]. rewrite app_nil_r.
  destruct (star_run d post f (x :: pv) Hf') as (tail & E & Ht).
  rewrite E. cbn [map flat_map fst snd rest prev caps].
  replace (length (x :: f ++ d :: post) - length (d :: post))
    with (length (x :: f))
    by (simpl; rewrite length_app; simpl; lia).
  change (x :: f ++ d :: post) with ((x :: f) ++ d :: post).
  rewrite firstn_app, firstn_all, Nat.sub_diag, firstn_O, app_nil_r.
  cbn [rev]. rewrite <- (app_assoc (rev f) [x] pv). cbn [app].
  match goal with |- ?a ++ ?b = _ => assert (Hb : b = []) end.
  { apply flat_map_nil. intros st Hst.
    apply in_map_iff in Hst. destruct Hst as (st1 & <- & Hst1).
    apply in_map_iff in Hst1. destruct Hst1 as (p & <- & Hp).
    rewrite Forall_forall in Ht. destruct (Ht p Hp) as [H1 _].
    cbn [rest prev caps]. now apply Hr. }
  rewrite Hb, app_nil_r. reflexivity.
Qed.

End ScanFacts.

Section DollarSpans.

Import Parser.

Lemma inlineRegex_eq :
  inlineRegex =
  Seq (Chr (COne dollar)) (Seq (Grp (plus (CNot [dollar]))) (Chr (COne dollar))).
Proof. reflexivity. Qed.

Lemma blockRegex_eq :
  blockRegex =
  Seq (Seq (Chr (COne dollar)) (Chr (COne dollar)))
      (Seq (Grp (plus (CNot [dollar]))) (Seq (Chr (COne dollar)) (Chr (COne dollar)))).
Proof. reflexivity. Qed.

Lemma guardedInlineRegex_eq :
  guardedInlineRegex =
  Seq (NotBehind (COne dollar))
      (Seq (Chr (COne dollar))
           (Seq (NotAhead (Chr (COne dollar)))
                (Seq (Grp (plus (CNot [dollar])))
                     (Seq (Chr (COne dollar)) (NotAhead (Chr (COne dollar))))))).
Proof. reflexivity. Qed.

Lemma needs_first_seq c a b : needs_first c a -> needs_first c (Seq a b).
Proof. intros Ha pv rs cs H. simpl. now rewrite Ha. Qed.

Lemma inline_needs_first : needs_first dollar inlineRegex.
Proof. rewrite inlineRegex_eq. apply needs_first_chr. Qed.

Lemma block_needs_first : needs_first dollar blockRegex.
Proof.
  rewrite blockRegex_eq. apply needs_first_seq, needs_first_chr.
Qed.

Lemma guarded_needs_first : needs_first dollar guardedInlineRegex.
Proof. rewrite guardedInlineRegex_eq. apply needs_first_behind. Qed.

(** The group [([^$]+)] cannot start at a dollar sign or at the end. *)
Lemma m_group_stuck r2 pv rs cs :
  match rs with [] => True | x :: _ => x = dollar end ->
  m (Seq (Grp (plus (CNot [dollar]))) r2) (MState pv rs cs) = [].
Proof.
  intros H. destruct rs as [|x rs]; [reflexivity|]. subst x.
  reflexivity.
Qed.

(** Two dollar signs in a row do not match where the second unit is not
    one. *)
Lemma m_two_stuck r2 pv rs cs :
  hd_ne dollar rs ->
  m (Seq (Seq (Chr (COne dollar)) (Chr (COne dollar))) r2) (MState pv (dollar :: rs) cs)
  = [].
Proof.
  intros H. cbn [m flat_map rest prev caps cmatch]. rewrite N.eqb_refl.
  cbn [flat_map m rest prev caps app].
  destruct rs as [|x rs]; [reflexivity|]. simpl in H.
  destruct (N.eqb_spec x dollar); [contradiction | reflexivity].
Qed.

Lemma no_unit_hd c s post : no_unit c s -> hd_ne c post -> hd_ne c (s ++ post).
Proof. intros Hs Hp. destruct s; [exact Hp|]. inversion Hs; subst. assumption. Qed.

Lemma no_unit_hd_nil c s : no_unit c s -> hd_ne c s.
Proof. intros Hs. destruct s; [exact I|]. now inversion Hs. Qed.

Lemma needs_first_one c : needs_first c (Chr (COne c)).
Proof.
  intros pv rs cs H. simpl. destruct rs as [|x rs]; [reflexivity|].
  simpl in H. destruct (N.eqb_spec x c); [contradiction | reflexivity].
Qed.

Lemma m_chr_hit c pv rs cs :
  m (Chr (COne c)) (MState pv (c :: rs) cs) = [MState (c :: pv) rs cs].
Proof. simpl. now rewrite N.eqb_refl. Qed.

Lemma m_seq_chr c r pv rs cs :
  m (Seq (Chr (COne c)) r) (MState pv (c :: rs) cs) =
  m r (MState (c :: pv) rs cs).
Proof.
  change (m (Seq (Chr (COne c)) r) (MState pv (c :: rs) cs))
    with (flat_map (m r) (m (Chr (COne c)) (MState pv (c :: rs) cs))).
  rewrite m_chr_hit. simpl. now rewrite app_nil_r.
Qed.

(** The inline pattern at [$f$]: one match, which captures [f]. *)
Lemma inline_exec_at pv f post :
  f <> [] -> no_unit dollar f ->
  exec_at inlineRegex pv (dollar :: f ++ dollar :: post) =
  Some (MState (dollar :: rev f ++ dollar :: pv) post [f]).
Proof.
  intros Hne Hf. unfold exec_at. rewrite inlineRegex_eq, m_seq_chr.
  rewrite (m_group_run dollar) by (assumption || apply needs_first_one).
  rewrite m_chr_hit. reflexivity.
Qed.

(** The scan for inline spans over [pre $f$ post]. *)
Lemma inline_scan pre f post pv :
  no_unit dollar pre -> f <> [] -> no_unit dollar f -> no_unit dollar post ->
  exec_scan inlineRegex pv (pre ++ dollar :: f ++ dollar :: post) 0 =
  [RMatch (length pre + length pv) (dollar :: f ++ [dollar]) [f]].
Proof.
  intros Hpre Hne Hf Hpost.
  rewrite (exec_scan_free dollar) by (apply inline_needs_first || assumption).
  rewrite (exec_scan_some _ _ _ _ _ (inline_exec_at _ f post Hne Hf)).
  cbn [rest caps].
  replace (length (dollar :: f ++ dollar :: post) - length post) with (S (S (length f)))
    by (cbn [length]; rewrite length_app; cbn [length]; lia).
  f_equal.
  - f_equal.
    + rewrite length_app, length_rev. reflexivity.
    + replace (S (S (length f))) with (length (dollar :: f ++ [dollar]))
        by (cbn [length]; rewrite length_app; cbn [length]; lia).
      change (dollar :: f ++ dollar :: post) with ((dollar :: f) ++ [dollar] ++ post).
      rewrite app_assoc. apply firstn_len_app.
  - replace (S (S (length f)) - 1) with (length (f ++ [dollar]))
      by (rewrite length_app; simpl; lia).
    change (f ++ dollar :: post) with (f ++ [dollar] ++ post).
    rewrite app_assoc, exec_scan_skip.
    apply (exec_scan_free_end dollar); [apply inline_needs_first | assumption].
Qed.

(** The scan for block spans finds nothing around a single [$f$]. *)
Lemma block_scan_single pre f post pv :
  no_unit dollar pre -> f <> [] -> no_unit dollar f -> no_unit dollar post ->
  exec_scan blockRegex pv (pre ++ dollar :: f ++ dollar :: post) 0 = [].
Proof.
  intros Hpre Hne Hf Hpost.
  rewrite (exec_scan_free dollar) by (apply block_needs_first || assumption).
  rewrite exec_scan_none.
  2:{ unfold exec_at. rewrite blockRegex_eq, m_two_stuck; [reflexivity|].
      destruct f; [congruence|]. now inversion Hf. }
  rewrite (exec_scan_free dollar) by (apply block_needs_first || assumption).
  rewrite exec_scan_none.
  2:{ unfold exec_at. rewrite blockRegex_eq, m_two_stuck; [reflexivity|].
      now apply no_unit_hd_nil. }
  apply (exec_scan_free_end dollar); [apply block_needs_first | assumption].
Qed.

End DollarSpans.

Section BlockSpan.

Import Parser.

Lemma inline_scan_block f :
  f <> [] -> no_unit dollar f ->
  exec_all inlineRegex (dollar :: dollar :: f ++ [dollar; dollar]) =
  [RMatch 1 (dollar :: f ++ [dollar]) [f]].
Proof.
  intros Hne Hf. unfold exec_all.
  rewrite exec_scan_none.
  2:{ unfold exec_at. rewrite inlineRegex_eq, m_seq_chr, m_group_stuck;
        reflexivity. }
  change (f ++ [dollar; dollar]) with (f ++ dollar :: [dollar]).
  rewrite (exec_scan_some _ _ _ _ _ (inline_exec_at _ f [dollar] Hne Hf)).
  cbn [rest caps].
  replace (length (dollar :: f ++ dollar :: [dollar]) - length [dollar]) with (S (S (length f)))
    by (cbn [length]; rewrite length_app; cbn [length]; lia).
  f_equal.
  - f_equal.
    replace (S (S (length f))) with (length (dollar :: f ++ [dollar]))
      by (cbn [length]; rewrite length_app; cbn [length]; lia).
    change (dollar :: f ++ dollar :: [dollar]) with ((dollar :: f) ++ [dollar] ++ [dollar]).
    rewrite app_assoc. apply firstn_len_app.
  - replace (S (S (length f)) - 1) with (length (f ++ [dollar]))
      by (rewrite length_app; simpl; lia).
    change (f ++ dollar :: [dollar]) with (f ++ [dollar] ++ [dollar]).
    rewrite app_assoc, exec_scan_skip.
    rewrite exec_scan_none.
    2:{ unfold exec_at. rewrite inlineRegex_eq, m_seq_chr, m_group_stuck;
          [reflexivity | exact I]. }
    apply (exec_scan_end dollar), inline_needs_first.
Qed.

Lemma m_two_hit r2 pv rs cs :
  m (Seq (Seq (Chr (COne dollar)) (Chr (COne dollar))) r2) (MState pv (dollar :: dollar :: rs) cs)
  = m r2 (MState (dollar :: dollar :: pv) rs cs).
Proof.
  change (m (Seq (Seq (Chr (COne dollar)) (Chr (COne dollar))) r2)
            (MState pv (dollar :: dollar :: rs) cs))
    with (flat_map (m r2)
            (m (Seq (Chr (COne dollar)) (Chr (COne dollar)))
               (MState pv (dollar :: dollar :: rs) cs))).
  rewrite m_seq_chr, m_chr_hit. simpl. now rewrite app_nil_r.
Qed.

Lemma block_exec_at pv f post :
  f <> [] -> no_unit dollar f ->
  exec_at blockRegex pv (dollar :: dollar :: f ++ dollar :: dollar :: post) =
  Some (MState (dollar :: dollar :: rev f ++ dollar :: dollar :: pv) post [f]).
Proof.
  intros Hne Hf. unfold exec_at. rewrite blockRegex_eq, m_two_hit.
  rewrite (m_group_run dollar) by (assumption || apply needs_first_chr).
  rewrite m_seq_chr, m_chr_hit. reflexivity.
Qed.

Lemma block_scan_block f :
  f <> [] -> no_unit dollar f ->
  exec_all blockRegex (dollar :: dollar :: f ++ [dollar; dollar]) =
  [RMatch 0 (dollar :: dollar :: f ++ [dollar; dollar]) [f]].
Proof.
  intros Hne Hf. unfold exec_all.
  rewrite (exec_scan_some _ _ _ _ _ (block_exec_at [] f [] Hne Hf)).
  cbn [rest caps length]. rewrite Nat.sub_0_r.
  f_equal.
  - f_equal.
    apply (firstn_all (dollar :: dollar :: f ++ [dollar; dollar])).
  - replace (S (S (length (f ++ [dollar; dollar]))) - 1)
      with (length (dollar :: f ++ [dollar; dollar]))
      by (cbn [length]; lia).
    rewrite (exec_scan_skip_all _ (dollar :: f ++ [dollar; dollar])).
    apply (exec_scan_end dollar), block_needs_first.
Qed.

(** The guarded inline pattern does not match at a dollar sign that is
    followed by another one. *)
Lemma guarded_stuck_ahead pv rs :
  exec_at guardedInlineRegex pv (dollar :: dollar :: rs) = None.
Proof.
  unfold exec_at. rewrite guardedInlineRegex_eq.
  match goal with
  | |- hd_error (m (Seq ?a ?b) ?st) = _ =>
      change (m (Seq a b) st) with (flat_map (m b) (m a st))
  end.
  assert (H : forall st, rest st = dollar :: dollar :: rs ->
              m (Seq (Chr (COne dollar))
                     (Seq (NotAhead (Chr (COne dollar)))
                          (Seq (Grp (plus (CNot [dollar])))
                               (Seq (Chr (COne dollar))
                                    (NotAhead (Chr (COne dollar))))))) st = []).
  { intros [pv' rs' cs'] E. simpl in E. subst rs'.
    rewrite m_seq_chr.
    match goal with
    | |- m (Seq ?a ?b) ?st = _ =>
        change (m (Seq a b) st) with (flat_map (m b) (m a st))
    end.
    cbn [m rest prev caps cmatch]. rewrite N.eqb_refl. reflexivity. }
  rewrite flat_map_nil; [reflexivity|].
  intros st Hst. apply H.
  cbn [m prev] in Hst. destruct pv as [|c pv'];
    [|destruct (cmatch (COne dollar) c)]; simpl in Hst; try contradiction;
    destruct Hst as [<-|[]]; reflexivity.
Qed.

(** Nor right after a dollar sign. *)
Lemma guarded_stuck_behind pv rs :
  exec_at guardedInlineRegex (dollar :: pv) rs = None.
Proof.
  unfold exec_at. rewrite guardedInlineRegex_eq.
  match goal with
  | |- hd_error (m (Seq ?a ?b) ?st) = _ =>
      change (m (Seq a b) st) with (flat_map (m b) (m a st))
  end.
  cbn [m prev cmatch]. rewrite N.eqb_refl. reflexivity.
Qed.

Lemma guarded_scan_block f :
  f <> [] -> no_unit dollar f ->
  exec_all guardedInlineRegex (dollar :: dollar :: f ++ [dollar; dollar]) = [].
Proof.
  intros Hne Hf. unfold exec_all.
  rewrite exec_scan_none by apply guarded_stuck_ahead.
  rewrite exec_scan_none by apply guarded_stuck_behind.
  rewrite (exec_scan_free dollar) by (apply guarded_needs_first || assumption).
  rewrite exec_scan_none by apply guarded_stuck_ahead.
  rewrite exec_scan_none by apply guarded_stuck_behind.
  apply (exec_scan_end dollar), guarded_needs_first.
Qed.

End BlockSpan.

(** ** Text blocks *)

Section TextBlocks.

Import Parser.

(** C9: for a text whose only dollar signs are those of one span [$x^2$],
    createTextBlock with LaTeX parsing enabled sets hasLatex and records
    exactly one expression: raw [x^2], inline, positioned at the offset of
    the opening dollar sign. *)
Theorem C9_single_inline_span (pre post : jsstring)
        (options : ExtractionOptions) :
  parseLaTeX options = true ->
  no_unit dollar pre -> no_unit dollar post ->
  createTextBlock (pre ++ js "$x^2$" ++ post) options =
  {| tb_content := pre ++ js "$x^2$" ++ post;
     hasLatex := true;
     latexExpressions :=
       [{| raw := js "x^2"; isBlock := false; position := length pre |}] |}.
Proof.
  intros Hp Hpre Hpost. unfold createTextBlock. rewrite Hp.
  assert (Hf : no_unit dollar (js "x^2")) by (repeat constructor; discriminate).
  assert (Hne : js "x^2" <> []) by discriminate.
  change (pre ++ js "$x^2$" ++ post)
    with (pre ++ dollar :: js "x^2" ++ dollar :: post).
  unfold exec_all.
  rewrite (inline_scan pre (js "x^2") post [] Hpre Hne Hf Hpost).
  rewrite (block_scan_single pre (js "x^2") post [] Hpre Hne Hf Hpost).
  cbn [fold_left pushExpression fst snd app groups index nth length].
  now rewrite Nat.add_0_r.
Qed.

Lemma C9_single_inline_span_witness :
  createTextBlock (js "Let $x^2$ be given") DEFAULT_EXTRACTION_OPTIONS =
  {| tb_content := js "Let $x^2$ be given";
     hasLatex := true;
     latexExpressions :=
       [{| raw := js "x^2"; isBlock := false; position := 4 |}] |}.
Proof.
  apply (C9_single_inline_span (js "Let ") (js " be given")
                               DEFAULT_EXTRACTION_OPTIONS).
  - reflexivity.
  - repeat constructor; discriminate.
  - repeat constructor; discriminate.
Defined.

(** C10: for the text [$$f$$] with [f] non-empty and free of dollar signs,
    createTextBlock with LaTeX parsing enabled records the formula twice,
    first as an inline expression found inside the double dollars (at
    offset 1), then as a block expression (at offset 0), whereas
    extractLatexExpressions returns the block expression alone. *)
Theorem C10_block_recorded_twice (f : jsstring)
        (options : ExtractionOptions) :
  parseLaTeX options = true ->
  f <> [] -> no_unit dollar f ->
  createTextBlock (js "$$" ++ f ++ js "$$") options =
  {| tb_content := js "$$" ++ f ++ js "$$";
     hasLatex := true;
     latexExpressions :=
       [{| raw := f; isBlock := false; position := 1 |};
        {| raw := f; isBlock := true; position := 0 |}] |} /\
  extractLatexExpressions (js "$$" ++ f ++ js "$$") =
  [{| e_raw := f; e_isBlock := true; startIndex := 0;
      endIndex := length f + 4 |}].
Proof.
  intros Hp Hne Hf.
  change (js "$$" ++ f ++ js "$$") with (dollar :: dollar :: f ++ [dollar; dollar]).
  split.
  - unfold createTextBlock. rewrite Hp.
    rewrite (inline_scan_block f Hne Hf), (block_scan_block f Hne Hf).
    reflexivity.
  - unfold extractLatexExpressions.
    rewrite (block_scan_block f Hne Hf), (guarded_scan_block f Hne Hf).
    unfold sortByStart, expressionOf, overlaps.
    cbn [fold_left app insertByStart groups index whole nth Nat.add length].
    rewrite length_app. cbn [length].
    repeat f_equal. lia.
Qed.

Lemma C10_block_recorded_twice_witness :
  createTextBlock (js "$$E=mc^2$$") DEFAULT_EXTRACTION_OPTIONS =
  {| tb_content := js "$$E=mc^2$$";
     hasLatex := true;
     latexExpressions :=
       [{| raw := js "E=mc^2"; isBlock := false; position := 1 |};
        {| raw := js "E=mc^2"; isBlock := true; position := 0 |}] |} /\
  extractLatexExpressions (js "$$E=mc^2$$") =
  [{| e_raw := js "E=mc^2"; e_isBlock := true; startIndex := 0;
      endIndex := 10 |}].
Proof.
  apply (C10_block_recorded_twice (js "E=mc^2") DEFAULT_EXTRACTION_OPTIONS).
  - reflexivity.
  - discriminate.
  - repeat constructor; discriminate.
Defined.

End TextBlocks.

(** ** Computations on the store that leave the live page alone *)

Section Frame.

Import Dom Selectors Parser.
Local Open Scope dom_scope.

Lemma hoare_ret L {A} (a : A) (Q : A -> Prop) : Q a -> hoare L (ret a) Q.
Proof. intros H w Hw. now split. Qed.

Lemma hoare_bind L {A B} (c : M A) (k : A -> M B) (P : A -> Prop)
      (Q : B -> Prop) :
  hoare L c P -> (forall a, P a -> hoare L (k a) Q) -> hoare L (bind c k) Q.
Proof.
  intros Hc Hk w Hw. unfold bind.
  destruct (Hc w Hw) as [H1 H2]. exact (Hk _ H2 _ H1).
Qed.

Lemma hoare_weaken L {A} (c : M A) (P Q : A -> Prop) :
  hoare L c P -> (forall a, P a -> Q a) -> hoare L c Q.
Proof. intros Hc HPQ w Hw. destruct (Hc w Hw). split; auto. Qed.

Lemma hoare_reads L {A} (f : world -> A) (Q : A -> Prop) :
  (forall w, live w = L -> Q (f w)) -> hoare L (reads f) Q.
Proof. intros H w Hw. split; [exact Hw | now apply H]. Qed.

Lemma hoare_forEach L {A} (l : list A) (body : A -> M unit) :
  (forall x, In x l -> hoare L (body x) anything) ->
  hoare L (forEach l body) anything.
Proof.
  induction l as [|x l IH]; intros H; simpl.
  - now apply hoare_ret.
  - eapply hoare_bind; [apply H; now left|].
    intros _ _. apply IH. intros y Hy. apply H. now right.
Qed.

Lemma hoare_foldM L {A B} (l : list A) (body : B -> A -> M B)
      (I : B -> Prop) : forall acc,
  I acc ->
  (forall b x, In x l -> I b -> hoare L (body b x) I) ->
  hoare L (foldM l acc body) I.
Proof.
  induction l as [|x l IH]; intros acc Hacc H; simpl.
  - now apply hoare_ret.
  - eapply hoare_bind; [apply H; [now left | exact Hacc]|].
    intros b Hb. apply IH; [exact Hb|].
    intros b' y Hy. apply H. now right.
Qed.

Lemma hoare_if L {A} (b : bool) (c1 c2 : M A) (Q : A -> Prop) :
  hoare L c1 Q -> hoare L c2 Q -> hoare L (if b then c1 else c2) Q.
Proof. now destruct b. Qed.

(** The primitive operations. *)

Lemma hoare_cloneNode L h : hoare L (cloneNode h) isScratch.
Proof. intros w Hw. split; [exact Hw | exact I]. Qed.

Lemma update_tree_scratch n f w : live (update_tree (Scratch n) f w) = live w.
Proof. reflexivity. Qed.

Lemma hoare_replaceWith L h text :
  isScratch h -> hoare L (replaceWith h text) anything.
Proof.
  intros Hs w Hw. split; [|exact I].
  unfold replaceWith, isScratch in *. simpl.
  destruct (rev (h_path h)); [exact Hw|].
  destruct (h_root h); [contradiction | exact Hw].
Qed.

Lemma hoare_append L h text :
  isScratch h -> hoare L (append h text) anything.
Proof.
  intros Hs w Hw. split; [|exact I].
  unfold append, isScratch in *. simpl.
  destruct (h_root h); [contradiction | exact Hw].
Qed.

Lemma hoare_qsa L h sel :
  isScratch h -> hoare L (qsa h sel) (Forall isScratch).
Proof.
  intros Hs. apply hoare_reads. intros w _.
  apply Forall_forall. intros h' Hin.
  apply in_map_iff in Hin. destruct Hin as (p & <- & _). exact Hs.
Qed.

Lemma hoare_qs L h sel :
  isScratch h ->
  hoare L (qs h sel)
        (fun o => match o with Some h' => isScratch h' | None => True end).
Proof.
  intros Hs. apply hoare_reads. intros w _.
  destruct (querySelector _ _ _); simpl; [exact Hs | exact I].
Qed.

Lemma hoare_any_reads L {A} (f : world -> A) : hoare L (reads f) anything.
Proof. apply hoare_reads. intros; exact I. Qed.

End Frame.

Section FrameOfTheParser.

Import Dom Selectors Parser.
Local Open Scope dom_scope.

Lemma hoare_bind_any L {A B} (c : M A) (k : A -> M B) (Q : B -> Prop) :
  hoare L c anything -> (forall a, hoare L (k a) Q) ->
  hoare L (bind c k) Q.
Proof. intros Hc Hk. eapply hoare_bind; [exact Hc | intros a _; apply Hk]. Qed.

Lemma hoare_foldM_any L {A B} (l : list A) (body : B -> A -> M B) acc :
  (forall b x, hoare L (body b x) anything) ->
  hoare L (foldM l acc body) anything.
Proof.
  intros H. apply hoare_foldM; [exact I | intros; apply H].
Qed.

Lemma Forall_In_scratch (els : list handle) (x : handle) :
  Forall isScratch els -> In x els -> isScratch x.
Proof. intros H Hin. rewrite Forall_forall in H. auto. Qed.

(** One step of a proof that a computation leaves the live tree alone. *)
Ltac frame :=
  lazymatch goal with
  | |- hoare _ (ret _) anything => apply hoare_ret; exact I
  | |- hoare _ (reads _) anything => apply hoare_any_reads
  | |- hoare _ (textOf _) anything => apply hoare_any_reads
  | |- hoare _ (nodeOf _) anything => apply hoare_any_reads
  | |- hoare _ (closestOf _ _) anything => apply hoare_any_reads
  | |- hoare _ (qsa _ _) anything => apply hoare_any_reads
  | |- hoare _ (qs _ _) anything => apply hoare_any_reads
  | |- hoare _ (replaceWith _ _) anything =>
      apply hoare_replaceWith; assumption
  | |- hoare _ (append _ _) anything => apply hoare_append; assumption
  | |- hoare _ (forEach ?l _) anything =>
      let x := fresh "x" in
      let Hin := fresh "Hin" in
      apply hoare_forEach; intros x Hin;
      try (match goal with
           | H : Forall isScratch l |- _ =>
               pose proof (Forall_In_scratch l x H Hin)
           end);
      frame
  | |- hoare _ (foldM _ _ _) anything =>
      apply hoare_foldM_any; intros ? ?; frame
  | |- hoare _ (bind (cloneNode _) _) _ =>
      eapply hoare_bind; [apply hoare_cloneNode | intros ? ?; frame]
  | |- hoare _ (bind (qsa _ _) _) _ =>
      first [ eapply hoare_bind;
              [apply hoare_qsa; assumption | intros ? ?; frame]
            | apply hoare_bind_any;
              [apply hoare_any_reads | intros ?; frame] ]
  | |- hoare _ (bind (qs _ _) _) _ =>
      first [ eapply hoare_bind;
              [apply hoare_qs; assumption | intros ? ?; frame]
            | apply hoare_bind_any;
              [apply hoare_any_reads | intros ?; frame] ]
  | |- hoare _ (bind _ _) _ =>
      apply hoare_bind_any; [frame | intros ?; frame]
  | |- hoare _ (match ?o with Some _ => _ | None => _ end) _ =>
      destruct o; frame
  | |- hoare _ (match ?l with [] => _ | _ :: _ => _ end) _ =>
      destruct l; frame
  | |- hoare _ (if ?b then _ else _) _ => destruct b; frame
  | |- hoare _ ?c _ => fail "no rule for" c
  end.

Lemma frame_getElementTextWithStructure L element :
  hoare L (getElementTextWithStructure element) anything.
Proof. unfold getElementTextWithStructure. frame. Qed.

Lemma frame_parseListToText L listElement isOrdered :
  hoare L (parseListToText listElement isOrdered) anything.
Proof.
  unfold parseListToText.
  apply hoare_bind_any; [apply hoare_any_reads | intros items].
  apply hoare_bind_any; [|intros; frame].
  apply hoare_foldM_any. intros lines it.
  apply hoare_bind_any; [apply frame_getElementTextWithStructure|].
  intros t. frame.
Qed.

Lemma frame_parseContentBlocks L contentElement options :
  hoare L (parseContentBlocks contentElement options) anything.
Proof.
  unfold parseContentBlocks.
  apply hoare_bind_any; [apply hoare_any_reads | intros children].
  destruct children as [|c cs]; [frame|].
  apply hoare_bind_any; [|intros; frame].
  apply hoare_foldM_any. intros blocks child.
  apply hoare_bind_any; [apply hoare_any_reads | intros nd].
  destruct (tagIs nd "pre" && parseCodeBlocks options); [frame|].
  destruct (tagIs nd "table" && parseTables options); [frame|].
  apply hoare_bind_any; [apply hoare_any_reads | intros thinking].
  destruct thinking; [frame|].
  destruct (tagIs nd "ol" || tagIs nd "ul").
  - apply hoare_bind_any; [apply frame_parseListToText | intros; frame].
  - apply hoare_bind_any; [apply frame_getElementTextWithStructure|].
    intros; frame.
Qed.

Lemma frame_parseMessageElement L element index options :
  hoare L (parseMessageElement element index options) anything.
Proof.
  unfold parseMessageElement.
  apply hoare_bind_any; [apply hoare_any_reads | intros role].
  apply hoare_bind_any; [apply hoare_any_reads | intros contentElement].
  apply hoare_bind_any.
  - destruct contentElement; [apply frame_parseContentBlocks | frame].
  - intros content. frame.
Qed.

Lemma frame_processElements L elements opts ws :
  hoare L (processElements elements opts ws) anything.
Proof.
  unfold processElements.
  apply hoare_bind_any; [|intros; frame].
  apply hoare_foldM_any. intros messages it.
  apply hoare_bind_any; [apply frame_parseMessageElement | intros; frame].
Qed.

Lemma frame_extractMessages L options :
  hoare L (extractMessages options) anything.
Proof.
  unfold extractMessages.
  apply hoare_bind_any; [apply hoare_any_reads | intros messageElements].
  destruct (length messageElements =? 0).
  - frame.
  - apply frame_processElements.
Qed.

Lemma frame_extractConversation L location docTitle options :
  hoare L (extractConversation location docTitle options) anything.
Proof.
  unfold extractConversation.
  apply hoare_bind_any; [apply hoare_any_reads | intros pg].
  destruct (negb (isConversationPage pg)); [frame|].
  destruct (getConversationIdFromUrl pg); [|frame].
  apply hoare_bind_any; [apply frame_extractMessages | intros r].
  destruct (success r); [destruct (data r)|]; frame.
Qed.

End FrameOfTheParser.

(** ** The live page under extraction *)

Section LivePage.

Import Dom Selectors Parser.

(** C7: extraction never changes the live document. Whatever the store and
    the element, the live tree after getElementTextWithStructure,
    parseContentBlocks, extractMessages and extractConversation is the
    live tree before: the rewrites (strike-through stripping, formula
    reconstruction, line breaks, block newlines) go to the clone that
    cloneNode adds to the store. *)
Theorem C7_extraction_keeps_live_dom (w : world) :
  (forall element,
     live (snd (getElementTextWithStructure element w)) = live w) /\
  (forall contentElement options,
     live (snd (parseContentBlocks contentElement options w)) = live w) /\
  (forall options,
     live (snd (extractMessages options w)) = live w) /\
  (forall location docTitle options,
     live (snd (extractConversation location docTitle options w)) = live w).
Proof.
  repeat split; intros.
  - apply (frame_getElementTextWithStructure (live w) element w eq_refl).
  - apply (frame_parseContentBlocks (live w) contentElement options w eq_refl).
  - apply (frame_extractMessages (live w) options w eq_refl).
  - apply (frame_extractConversation (live w) location docTitle options w
                                     eq_refl).
Qed.

(** The text is taken from the rewritten clone, which is the new tree of
    the store; the paragraph of the live tree keeps its elements. *)
Example getElementTextWithStructure_sample :
  let r := getElementTextWithStructure (Handle Live [0; 0; 0]) sampleWorld in
  fst r = js "First old" ++ js_newline ++ js "line" /\
  live (snd r) = live sampleWorld /\
  scratch (snd r) =
    [Elem (js "p") []
          [Text (js "First "); Text (js "old"); Text js_newline;
           Text (js "line")]].
Proof. vm_compute. repeat split. Qed.

(** The store can tell the difference: the same replacement aimed at the
    live element does change the live tree. *)
Example replaceWith_live_changes_page :
  live (snd (replaceWith (Handle Live [0; 0; 0; 1]) (js "old") sampleWorld))
  <> live sampleWorld.
Proof. vm_compute. discriminate. Qed.

End LivePage.

(** ** Roles *)

Section Roles.

Import Dom Selectors Parser.

Lemma finalRole_unknown index :
  finalRole RoleUnknown index = if Nat.even index then User else Assistant.
Proof.
  unfold finalRole.
  destruct (Nat.eqb_spec (index mod 2) 0) as [E|E];
    destruct (Nat.even index) eqn:Ev; try reflexivity.
  - apply Nat.Div0.mod_divides in E. destruct E as [k ->].
    rewrite Nat.even_mul in Ev. discriminate.
  - apply Nat.even_spec in Ev. destruct Ev as [k ->].
    rewrite Nat.mul_comm, Nat.Div0.mod_mul in E. congruence.
Qed.

(** The role and index of a message that parseMessageElement builds. *)
Lemma parseMessageElement_role element index options w msg :
  fst (parseMessageElement element index options w) = Some msg ->
  m_index msg = index /\
  role msg =
    finalRole (getMessageRole (tree_of w (h_root element)) (h_path element))
              index.
Proof.
  unfold parseMessageElement, bind, reads, ret. cbn [fst snd].
  match goal with
  | |- context [if ?b then _ else _] => destruct b
  end; cbn [fst snd]; intros H; [discriminate|].
  injection H as <-. split; reflexivity.
Qed.

Lemma In_combine_seq {A} (l : list A) : forall s i e,
  In (i, e) (combine (List.seq s (length l)) l) ->
  s <= i /\ nth_error l (i - s) = Some e.
Proof.
  induction l as [|x l IH]; intros s i e H; simpl in H; [contradiction|].
  destruct H as [H|H].
  - injection H as <- <-. rewrite Nat.sub_diag. split; [lia | reflexivity].
  - destruct (IH _ _ _ H) as [H1 H2]. split; [lia|].
    replace (i - s) with (S (i - S s)) by lia. exact H2.
Qed.

Lemma In_indexed {A} (l : list A) i e :
  In (i, e) (indexed l) -> nth_error l i = Some e.
Proof.
  intros H. apply In_combine_seq in H. destruct H as [_ H].
  now rewrite Nat.sub_0_r in H.
Qed.

Lemma hoare_parseMessageElement L p index options :
  hoare L (parseMessageElement (Handle Live p) index options)
        (fun r => forall msg, r = Some msg ->
                    m_index msg = index /\
                    role msg = finalRole (getMessageRole (Tree true L) p)
                                         index).
Proof.
  intros w Hw. split.
  - apply (frame_parseMessageElement L _ _ _ w Hw).
  - intros msg H. apply parseMessageElement_role in H.
    simpl in H. now rewrite Hw in H.
Qed.

Lemma hoare_processElements L elements opts ws :
  hoare L (processElements elements opts ws)
        (fun r => warnings r = ws /\
                  forall msgs, data r = Some msgs ->
                    Forall (from_element L elements) msgs).
Proof.
  unfold processElements.
  eapply hoare_bind.
  - apply (hoare_foldM L (indexed elements) _
                       (Forall (from_element L elements))).
    + constructor.
    + intros msgs [i e] Hin Hmsgs.
      eapply hoare_bind; [apply hoare_parseMessageElement|].
      intros r Hr. apply hoare_ret. cbn [fst snd] in *.
      destruct r as [msg|]; simpl; [|exact Hmsgs].
      apply Forall_app. split; [exact Hmsgs|]. constructor; [|constructor].
      destruct (Hr msg eq_refl) as [Hi Hrole].
      exists e. rewrite Hi. split; [now apply In_indexed | exact Hrole].
  - intros msgs Hmsgs. destruct msgs as [|m0 msgs']; apply hoare_ret; simpl.
    + split; [reflexivity | discriminate].
    + split; [reflexivity|]. intros ? H. injection H as <-. exact Hmsgs.
Qed.

(** C8: a message whose role resolves to unknown gets its role from the
    parity of its zero-based index, user for an even index and assistant
    for an odd one (0 user, 1 assistant, 2 user). Every message that
    extractMessages returns has role user or assistant; when elements were
    found, it stems from the processed element at its index and carries
    the role resolved for that element or, when that is unknown, the role
    of its parity. *)
Theorem C8_unknown_role_by_parity :
  (forall element index options w msg,
     fst (parseMessageElement element index options w) = Some msg ->
     getMessageRole (tree_of w (h_root element)) (h_path element)
       = RoleUnknown ->
     m_index msg = index /\
     role msg = if Nat.even index then User else Assistant) /\
  (forall w options msgs msg,
     data (fst (extractMessages options w)) = Some msgs ->
     In msg msgs ->
     (role msg = User \/ role msg = Assistant) /\
     (findAllMessageElements (Tree true (live w)) <> [] ->
      exists e,
        nth_error (elementsToProcess (live w) options) (m_index msg)
          = Some e /\
        role msg =
          match getMessageRole (Tree true (live w)) e with
          | RoleUser => User
          | RoleAssistant => Assistant
          | RoleUnknown =>
              if Nat.even (m_index msg) then User else Assistant
          end)) /\
  finalRole RoleUnknown 0 = User /\
  finalRole RoleUnknown 1 = Assistant /\
  finalRole RoleUnknown 2 = User.
Proof.
  split; [|split; [|repeat split]].
  - intros element index options w msg H Hu.
    apply parseMessageElement_role in H. destruct H as [Hi Hr].
    rewrite Hu, finalRole_unknown in Hr. now split.
  - intros w options msgs msg Hd Hin. split.
    + destruct (role msg); auto.
    + intros Hne. revert Hd.
      unfold extractMessages, bind, reads. cbn [fst snd].
      change (tree_of w Live) with (Tree true (live w)).
      destruct (findAllMessageElements (Tree true (live w))) as [|e0 found]
        eqn:Ef; [congruence|].
      cbn [length Nat.eqb].
      match goal with
      | |- data (fst (processElements ?els ?o ?ws w)) = _ -> _ =>
          destruct (hoare_processElements (live w) els o ws w eq_refl)
            as [_ [_ Hp]];
          intros Hd; specialize (Hp _ Hd)
      end.
      rewrite Forall_forall in Hp. destruct (Hp _ Hin) as (e & He & Hr).
      exists e. split.
      * unfold elementsToProcess. rewrite Ef. exact He.
      * rewrite Hr. destruct (getMessageRole _ e); try reflexivity.
        apply finalRole_unknown.
Qed.

End Roles.

Section RolesOnAPage.

Import Dom Selectors Parser.

Lemma C8_unknown_role_by_parity_witness :
  exists msg,
    fst (parseMessageElement (Handle Live [0; 0; 0; 1]) 1
                             DEFAULT_EXTRACTION_OPTIONS plainTurns)
      = Some msg /\
    m_index msg = 1 /\ role msg = Assistant.
Proof.
  eexists. split; [vm_compute; reflexivity|].
  apply (proj1 C8_unknown_role_by_parity (Handle Live [0; 0; 0; 1]) 1
               DEFAULT_EXTRACTION_OPTIONS plainTurns).
  - vm_compute. reflexivity.
  - vm_compute. reflexivity.
Defined.

End RolesOnAPage.

(** ** The cascade of strategies *)

Section Cascade.

Import Dom Selectors.

Lemma first_nonempty_spec {A} (ls : list (list A)) :
  let r := first_nonempty ls in
  (fst r = [] /\ Forall (fun l => l = []) ls /\ snd r = length ls) \/
  (exists k,
     nth_error ls k = Some (fst r) /\ fst r <> [] /\
     (forall j, j < k -> nth_error ls j = Some []) /\ snd r = S k).
Proof.
  induction ls as [|l ls IH]; simpl.
  - left. repeat split. constructor.
  - destruct l as [|x l]; simpl.
    + destruct IH as [(H1 & H2 & H3)|(k & H1 & H2 & H3 & H4)].
      * left. repeat split; auto.
      * right. exists (S k). repeat split; auto.
        intros [|j] Hj; [reflexivity|]. simpl. apply H3. lia.
    + right. exists 0. repeat split; [discriminate|]. intros j Hj. lia.
Qed.

(** C5: findAllMessageElements returns the result of the first of its five
    strategies that yields an element, having consulted exactly the
    strategies up to that one, in order; it returns the empty sequence
    exactly when all five yield nothing, having consulted all five. *)
Theorem C5_first_strategy_wins (doc : tree) :
  let r := findAllMessageElements_traced doc in
  findAllMessageElements doc = fst r /\
  fst r = fst (first_nonempty (strategies doc)) /\
  snd r = List.seq 1 (snd (first_nonempty (strategies doc))) /\
  (fst r = [] <-> Forall (fun l => l = []) (strategies doc)) /\
  (forall k l,
     nth_error (strategies doc) k = Some l -> l <> [] ->
     (forall j, j < k -> nth_error (strategies doc) j = Some []) ->
     fst r = l /\ snd r = List.seq 1 (S k)).
Proof.
  intros r.
  assert (E : r = (fst (first_nonempty (strategies doc)),
                   List.seq 1 (snd (first_nonempty (strategies doc))))).
  { subst r.
    unfold findAllMessageElements_traced, strategies, strategy1, strategy2,
      strategy3, strategy4, strategy5, tbind, consult, tret.
    cbn [first_nonempty fst snd].
    destruct (querySelectorAll doc [] sel_article); [|reflexivity].
    destruct (querySelectorAll doc [] sel_turn); [|reflexivity].
    destruct (querySelectorAll doc [] sel_role); [|reflexivity].
    cbn [nonEmpty fst snd app].
    destruct (match querySelector doc [] sel_main with
              | Some main => _
              | None => _
              end); [|reflexivity].
    cbn [nonEmpty fst snd app].
    destruct (querySelectorAll doc [] sel_content); [reflexivity|].
    cbn [nonEmpty fst snd app].
    destruct (grandparents doc _); reflexivity. }
  rewrite E. cbn [fst snd].
  pose proof (first_nonempty_spec (strategies doc)) as S. cbv zeta in S.
  split; [unfold findAllMessageElements; fold r; now rewrite E|].
  split; [reflexivity|]. split; [reflexivity|]. split.
  - split.
    + intros H0. destruct S as [(_ & H & _)|(k & _ & H & _)];
        [exact H | congruence].
    + intros Hall. destruct S as [(H & _)|(k & H1 & H2 & _)]; [exact H|].
      apply nth_error_In in H1. rewrite Forall_forall in Hall.
      now apply Hall in H1.
  - intros k l Hk Hl Hlt.
    destruct S as [(_ & Hall & _)|(k' & H1 & H2 & H3 & H4)].
    + apply nth_error_In in Hk. rewrite Forall_forall in Hall.
      apply Hall in Hk. contradiction.
    + assert (k = k').
      { destruct (Nat.lt_trichotomy k k') as [Hc|[Hc|Hc]]; [|exact Hc|].
        - rewrite (H3 _ Hc) in Hk. congruence.
        - rewrite (Hlt _ Hc) in H1. congruence. }
      subst k'. rewrite H4. split; congruence.
Qed.

Lemma C5_first_strategy_wins_witness :
  findAllMessageElements turnsByTestId = [[0; 0; 0; 0]; [0; 0; 0; 1]] /\
  snd (findAllMessageElements_traced turnsByTestId) = [1; 2].
Proof.
  destruct (C5_first_strategy_wins turnsByTestId) as (E & _ & _ & _ & H).
  destruct (H 1 [[0; 0; 0; 0]; [0; 0; 0; 1]]) as [H1 H2].
  - vm_compute. reflexivity.
  - discriminate.
  - intros j Hj. assert (j = 0) by lia. subst j. vm_compute. reflexivity.
  - rewrite E. split; [exact H1 | exact H2].
Defined.

End Cascade.

(** ** The renderer adapter *)

Section RendererFacts.

(** Replacing every occurrence of one code unit. *)
Lemma replace_scan_unit c t : forall s pv,
  replace_scan (Chr (COne c)) [TLit t] pv s 0 =
  flat_map (fun x => if N.eqb x c then t else [x]) s.
Proof.
  induction s as [|x s IH]; intros pv; [reflexivity|].
  cbn [replace_scan flat_map]. unfold exec_at.
  cbn [m rest prev caps cmatch].
  destruct (N.eqb x c); cbn [hd_error rest caps length].
  - replace (S (length s) - length s) with 1 by lia.
    unfold expand. cbn [map expand1 JsString.concat].
    rewrite app_nil_r, IH. reflexivity.
  - rewrite IH. reflexivity.
Qed.

Lemma replace_all_unit c t s :
  replace_all (Chr (COne c)) [TLit t] s =
  flat_map (fun x => if N.eqb x c then t else [x]) s.
Proof. apply replace_scan_unit. Qed.

Lemma flat_map_flat_map {A B C} (f : A -> list B) (g : B -> list C) l :
  flat_map g (flat_map f l) = flat_map (fun x => flat_map g (f x)) l.
Proof.
  induction l as [|x l IH]; simpl; [reflexivity|].
  now rewrite flat_map_app, IH.
Qed.

(** The five replacements of escapeHtml, run one after the other, escape
    each code unit of the text once. *)
Lemma escapeHtml_units text : escapeHtml text = flat_map escapeUnit text.
Proof.
  unfold escapeHtml.
  change (lit "&") with (Chr (COne 38)).
  change (lit "<") with (Chr (COne 60)).
  change (lit ">") with (Chr (COne 62)).
  change (lit "'") with (Chr (COne 39)).
  unfold T.
  rewrite !replace_all_unit, !flat_map_flat_map.
  apply flat_map_ext. intros x. unfold escapeUnit.
  repeat first
    [ rewrite app_nil_r
    | progress cbn [flat_map app]
    | match goal with
      | |- context [N.eqb x ?k] =>
          destruct (N.eqb_spec x k) as [->|?]; [vm_compute; reflexivity|]
      end ].
  reflexivity.
Qed.

Variable renderToString : jsstring -> KatexOptions -> outcome jsstring.

(** C6: without throw-on-error, renderLatex returns for every formula and
    whatever the library does. It returns the markup of the strict render
    when that succeeds; else the markup of the lenient render when that
    succeeds; else the original formula, HTML-escaped, inside an
    error-styled span, together with the message of the error the strict
    render raised. *)
Theorem C6_renderLatex_never_throws (latex : jsstring)
        (options : LatexRenderOptions) :
  orDefault false (throwOnError options) = false ->
  exists r,
    renderLatex renderToString latex options = Returns r /\
    match renderToString (renderInput latex) (strictOptions options) with
    | Returns h => r = {| html := h; error := None |}
    | Throws e =>
        match renderToString (renderInput latex) (lenientOptions options)
        with
        | Returns h => r = {| html := h; error := None |}
        | Throws _ =>
            r = {| html :=
                     errorSpan (orDefault (js "#cc0000") (errorColor options))
                               latex;
                   error := Some (messageOf e) |}
        end
    end.
Proof.
  intros Ht. unfold renderLatex. rewrite Ht.
  fold (renderInput latex).
  change {| k_displayMode := orDefault false (displayMode options);
            k_throwOnError := true;
            k_errorColor := orDefault (js "#cc0000") (errorColor options);
            k_macros := orDefault [] (macros options);
            k_trust := false; k_strict := StrictWarn |}
    with (strictOptions options).
  change {| k_displayMode := orDefault false (displayMode options);
            k_throwOnError := false;
            k_errorColor := orDefault (js "#cc0000") (errorColor options);
            k_macros := orDefault [] (macros options);
            k_trust := true; k_strict := StrictOff |}
    with (lenientOptions options).
  destruct (renderToString (renderInput latex) (strictOptions options))
    as [h|e].
  - eexists. split; reflexivity.
  - destruct (renderToString (renderInput latex) (lenientOptions options))
      as [h|e'].
    + eexists. split; reflexivity.
    + eexists. split; [reflexivity|].
      unfold errorSpan. rewrite <- escapeHtml_units. reflexivity.
Qed.

End RendererFacts.

Lemma C6_renderLatex_never_throws_witness :
  exists r,
    renderLatex rejectAll (js "\frac{a<b}") noOptions = Returns r /\
    r = {| html := js "<span style=" ++ dquote ++
                   js "color: #cc0000; font-family: monospace;" ++ dquote ++
                   js ">\frac{a&lt;b}</span>";
           error := Some (js "KaTeX parse error") |}.
Proof.
  destruct (C6_renderLatex_never_throws rejectAll (js "\frac{a<b}") noOptions)
    as (r & E & H).
  - reflexivity.
  - exists r. split; [exact E|]. rewrite H. vm_compute. reflexivity.
Defined.

(** ** No message elements, and too many *)

Section Limits.

Import Dom Selectors Parser ExportHandler.

(** C1, as the specification states it, fails: with no message element
    located, extractMessages and extractConversation still succeed when
    the main element has text. *)
Lemma C1_fallback_succeeds :
  findAllMessageElements (Tree true (live bareMain)) = [] /\
  success (fst (extractMessages noOverrides bareMain)) = true /\
  success (fst (extractConversation (js "https://chatgpt.com/c/abc-123")
                                    (js "ChatGPT") noOverrides bareMain))
    = true.
Proof. vm_compute. repeat split. Qed.

Lemma extractMessages_none_found w options :
  findAllMessageElements (Tree true (live w)) = [] ->
  fst (extractMessages options w) =
  match fallbackText (Tree true (live w)) with
  | Some (content, markup) =>
      {| success := true; data := Some [fallbackMessage content markup];
         error := None; warnings := [fallbackWarning] |}
  | None =>
      failure noMessagesError
              (if hasMain (Tree true (live w)) then [fallbackWarning] else [])
  end.
Proof.
  intros H.
  unfold extractMessages, qs, textOf, nodeOf, theDocument, bind, reads, ret.
  cbn [fst snd h_root h_path].
  change (tree_of w Live) with (Tree true (live w)). rewrite H.
  cbn [length Nat.eqb fst snd]. unfold fallbackText, hasMain.
  change (tree_of w Live) with (Tree true (live w)).
  destruct (querySelector (Tree true (live w)) [] sel_main) as [mainEl|];
    cbn [option_map fst snd h_root h_path]; [|reflexivity].
  change (tree_of w Live) with (Tree true (live w)).
  destruct (truthy (trim (text_of (Tree true (live w)) mainEl)));
    reflexivity.
Qed.

(** C1, amended: when no message element is located, extractMessages
    returns without raising. If the document has a main element whose
    trimmed text is not empty, the result is a success with the single
    fallback message built from that text and the fallback warning;
    otherwise it is the call-level error [No messages found ...] with
    success false and no data. extractConversation, whatever the page
    location, then returns success false and no Conversation in the
    second case. *)
Theorem C1_no_elements_found (w : world) (options : PartialOptions) :
  findAllMessageElements (Tree true (live w)) = [] ->
  let doc := Tree true (live w) in
  let r := fst (extractMessages options w) in
  match fallbackText doc with
  | Some (content, markup) =>
      r = {| success := true; data := Some [fallbackMessage content markup];
             error := None; warnings := [fallbackWarning] |}
  | None =>
      success r = false /\ data r = None /\
      error r = Some noMessagesError /\
      forall location docTitle,
        let c := fst (extractConversation location docTitle options w) in
        success c = false /\ data c = None /\ error c <> None
  end.
Proof.
  intros H doc r. subst r doc.
  rewrite (extractMessages_none_found w options H).
  destruct (fallbackText (Tree true (live w))) as [[content markup]|] eqn:Ef;
    [reflexivity|].
  repeat split; try reflexivity.
  all: unfold extractConversation, bind, reads, ret; cbn [fst snd];
    destruct (negb (isConversationPage _)); cbn [fst snd success data error];
    try reflexivity; try discriminate;
    destruct (getConversationIdFromUrl _);
    cbn [fst snd success data error]; try reflexivity; try discriminate;
    rewrite (surjective_pairing (extractMessages _ w));
    rewrite (extractMessages_none_found w _ H), Ef;
    cbn [fst snd success data error failure]; try reflexivity;
    discriminate.
Qed.

Lemma C1_no_elements_found_witness :
  success (fst (extractMessages noOverrides emptyPage)) = false /\
  data (fst (extractMessages noOverrides emptyPage)) = None /\
  error (fst (extractMessages noOverrides emptyPage)) = Some noMessagesError.
Proof.
  assert (H : findAllMessageElements (Tree true (live emptyPage)) = [])
    by (vm_compute; reflexivity).
  pose proof (C1_no_elements_found emptyPage noOverrides H) as T.
  cbv zeta in T.
  change (fallbackText (Tree true (live emptyPage))) with
    (@None (jsstring * jsstring)) in T.
  destruct T as (A & B & C & _). repeat split; assumption.
Defined.

End Limits.

Section MessageCap.

Import Dom Selectors Parser ExportHandler.


Lemma processElements_warnings elements opts ws w :
  warnings (fst (processElements elements opts ws w)) = ws.
Proof.
  destruct (hoare_processElements (live w) elements opts ws w eq_refl)
    as [_ [H _]].
  exact H.
Qed.



End MessageCap.

(* ===================================================================== *)
(** * Further properties of the modelled functions *)
(* ===================================================================== *)

(** ** Strings *)

Section StringFacts.

Lemma str_eqb_eq a : forall b, str_eqb a b = true <-> a = b.
Proof.
  induction a as [|x a IH]; intros [|y b]; simpl;
    try (split; [discriminate | congruence]); [tauto|].
  rewrite andb_true_iff, N.eqb_eq, IH. split.
  - intros [-> ->]. reflexivity.
  - intros E. inversion E. auto.
Qed.

Lemma existsb_str_eqb x l : existsb (str_eqb x) l = true <-> In x l.
Proof.
  rewrite existsb_exists. split.
  - intros (y & Hy & E). apply str_eqb_eq in E. now subst.
  - intros H. exists x. split; [exact H | now apply str_eqb_eq].
Qed.

Lemma trimStart_split s :
  exists l, s = l ++ trimStart s /\ forallb is_space l = true.
Proof.
  induction s as [|c s (l & E & Hl)]; simpl.
  - now exists [].
  - destruct (is_space c) eqn:Hc.
    + exists (c :: l). simpl. rewrite Hc, Hl. now rewrite <- E.
    + now exists [].
Qed.

Lemma trimStart_hd s :
  match trimStart s with [] => True | c :: _ => is_space c = false end.
Proof.
  induction s as [|c s IH]; simpl; [exact I|].
  destruct (is_space c) eqn:Hc; [exact IH | exact Hc].
Qed.

Lemma trimStart_fixed s :
  match s with [] => True | c :: _ => is_space c = false end ->
  trimStart s = s.
Proof. destruct s as [|c s]; simpl; [reflexivity|]. now intros ->. Qed.

Lemma trimStart_idem s : trimStart (trimStart s) = trimStart s.
Proof. apply trimStart_fixed, trimStart_hd. Qed.

(** A trimmed string neither starts nor ends with white space. *)
Lemma trim_start s : trimStart (trim s) = trim s.
Proof.
  unfold trim, trimEnd.
  pose proof (trimStart_hd s) as Hh.
  destruct (trimStart_split (rev (trimStart s))) as (l & E & Hl).
  set (u := trimStart s) in *.
  set (r := trimStart (rev u)) in *.
  apply trimStart_fixed.
  assert (Eu : u = rev r ++ rev l).
  { rewrite <- rev_app_distr, <- E. now rewrite rev_involutive. }
  destruct (rev r) as [|c q] eqn:Er; [exact I|].
  rewrite Eu in Hh. exact Hh.
Qed.

Lemma trim_end s : trimEnd (trim s) = trim s.
Proof.
  unfold trim at 1. unfold trimEnd at 1 2.
  rewrite rev_involutive, trimStart_idem. reflexivity.
Qed.

Lemma trim_idem s : trim (trim s) = trim s.
Proof. unfold trim at 1. rewrite trim_start. apply trim_end. Qed.

End StringFacts.

(** ** The role of a message element *)

Section ExplicitRole.

Import Dom Selectors.

(** X1: a role attribute on the message element itself decides: when
    data-message-author-role is user or assistant, getMessageRole returns
    that role, whatever the class names and the markup of the element
    say. *)
Theorem getMessageRole_explicit_attribute (t : tree) (p : path) (nd : node)
        (v : jsstring) :
  node_at t p = Some nd ->
  getAttribute nd "data-message-author-role" = Some v ->
  (v = js "user" -> getMessageRole t p = RoleUser) /\
  (v = js "assistant" -> getMessageRole t p = RoleAssistant).
Proof.
  intros Hn Ha. unfold getMessageRole, node_or_empty. rewrite Hn, Ha.
  split; intros ->; reflexivity.
Qed.

Lemma getMessageRole_explicit_attribute_witness :
  getMessageRole
    (Tree true
       (Elem (js "html") []
          [Elem (js "div")
                [(js "data-message-author-role", js "user");
                 (js "class", js "assistant gpt")] [Text (js "hello")]]))
    [0] = RoleUser.
Proof.
  destruct (getMessageRole_explicit_attribute
              (Tree true
                 (Elem (js "html") []
                    [Elem (js "div")
                          [(js "data-message-author-role", js "user");
                           (js "class", js "assistant gpt")]
                          [Text (js "hello")]]))
              [0]
              (Elem (js "div")
                    [(js "data-message-author-role", js "user");
                     (js "class", js "assistant gpt")] [Text (js "hello")])
              (js "user")) as [H _];
    [reflexivity | reflexivity |].
  apply H. reflexivity.
Defined.

End ExplicitRole.

(** ** Rendering with throw-on-error *)

Section RendererThrows.

Variable renderToString : jsstring -> KatexOptions -> outcome jsstring.

(** X2: renderLatex throws only on request and only when both renders
    fail: it throws [e] exactly when throwOnError is set, the strict render
    throws [e] and the lenient render throws as well. A lenient success
    hides the strict failure also under throwOnError. *)
Theorem renderLatex_throws_only_on_request (latex : jsstring)
        (options : LatexRenderOptions) (e : thrown) :
  renderLatex renderToString latex options = Throws e <->
  throwOnError options = Some true /\
  renderToString (renderInput latex) (strictOptions options) = Throws e /\
  exists e',
    renderToString (renderInput latex) (lenientOptions options) = Throws e'.
Proof.
  unfold renderLatex. fold (renderInput latex).
  change {| k_displayMode := orDefault false (displayMode options);
            k_throwOnError := true;
            k_errorColor := orDefault (js "#cc0000") (errorColor options);
            k_macros := orDefault [] (macros options);
            k_trust := false; k_strict := StrictWarn |}
    with (strictOptions options).
  change {| k_displayMode := orDefault false (displayMode options);
            k_throwOnError := false;
            k_errorColor := orDefault (js "#cc0000") (errorColor options);
            k_macros := orDefault [] (macros options);
            k_trust := true; k_strict := StrictOff |}
    with (lenientOptions options).
  destruct (renderToString (renderInput latex) (strictOptions options))
    as [h|e1].
  - split; [discriminate | intros (_ & H & _); discriminate].
  - destruct (renderToString (renderInput latex) (lenientOptions options))
      as [h|e2].
    + split; [discriminate | intros (_ & _ & e' & H); discriminate].
    + destruct (throwOnError options) as [[|]|]; simpl.
      * split.
        -- intros H. inversion H. subst. eauto.
        -- intros (_ & H & _). inversion H. reflexivity.
      * split; [discriminate | intros (H & _); discriminate].
      * split; [discriminate | intros (H & _); discriminate].
Qed.

(** X3: renderInlineMath and renderBlockMath never throw, whatever the
    library does: they ask for inline and for display mode and leave
    throwOnError unset. *)
Theorem render_math_never_throws (latex : jsstring) :
  (exists r, renderInlineMath renderToString latex = Returns r) /\
  (exists r, renderBlockMath renderToString latex = Returns r).
Proof.
  unfold renderInlineMath, renderBlockMath, renderLatex. simpl.
  split.
  - destruct (renderToString _ _); [eauto|].
    destruct (renderToString _ _); eauto.
  - destruct (renderToString _ _); [eauto|].
    destruct (renderToString _ _); eauto.
Qed.

End RendererThrows.

(** ** Scanning for a literal *)

Section LiteralScan.

Lemma replace_scan_skip r tpl : forall l pv rs,
  replace_scan r tpl pv (l ++ rs) (length l) =
  replace_scan r tpl (rev l ++ pv) rs 0.
Proof.
  induction l as [|c l IH]; intros pv rs; simpl; [reflexivity|].
  rewrite IH, <- app_assoc. reflexivity.
Qed.

Lemma replace_scan_miss r tpl pv c s :
  exec_at r pv (c :: s) = None ->
  replace_scan r tpl pv (c :: s) 0 = c :: replace_scan r tpl (c :: pv) s 0.
Proof. intros H. simpl. now rewrite H. Qed.

Lemma replace_scan_hit r tpl pv w s st' :
  w <> [] -> exec_at r pv (w ++ s) = Some st' -> rest st' = s ->
  replace_scan r tpl pv (w ++ s) 0 =
  expand tpl (caps st') ++ replace_scan r tpl (rev w ++ pv) s 0.
Proof.
  intros Hw He Hr. destruct w as [|c w]; [congruence|].
  cbn [app]. unfold replace_scan at 1. fold replace_scan.
  change (c :: w ++ s) with ((c :: w) ++ s). rewrite He, Hr.
  rewrite length_app.
  replace (length (c :: w) + length s - length s) with (S (length w))
    by (cbn [length]; lia).
  cbn [app]. rewrite replace_scan_skip. cbn [rev].
  now rewrite <- app_assoc.
Qed.

Lemma m_lit_units_hit : forall w, w <> [] -> forall pv s cs,
  m (lit_units w) (MState pv (w ++ s) cs) = [MState (rev w ++ pv) s cs].
Proof.
  induction w as [|c w IH]; intros Hw pv s cs; [congruence|].
  destruct w as [|d w].
  - simpl. now rewrite N.eqb_refl.
  - change (lit_units (c :: d :: w))
      with (Seq (Chr (COne c)) (lit_units (d :: w))).
    change (m (Seq (Chr (COne c)) (lit_units (d :: w)))
              (MState pv ((c :: d :: w) ++ s) cs))
      with (flat_map (m (lit_units (d :: w)))
                     (m (Chr (COne c)) (MState pv (c :: (d :: w) ++ s) cs))).
    cbn [m rest prev caps cmatch]. rewrite N.eqb_refl.
    cbn [flat_map]. rewrite IH by discriminate. rewrite app_nil_r.
    cbn [rev]. now rewrite <- !app_assoc.
Qed.

(** Replacing a literal word that starts the input. *)
Lemma replace_scan_lit_hit w t pv s :
  w <> [] ->
  replace_scan (lit_units w) [TLit t] pv (w ++ s) 0 =
  t ++ replace_scan (lit_units w) [TLit t] (rev w ++ pv) s 0.
Proof.
  intros Hw.
  rewrite (replace_scan_hit _ _ _ w s (MState (rev w ++ pv) s [])).
  - unfold expand. cbn [map expand1 JsString.concat].
    now rewrite app_nil_r.
  - exact Hw.
  - unfold exec_at. now rewrite m_lit_units_hit.
  - reflexivity.
Qed.

End LiteralScan.

(** ** escapeHtml and unescapeHtmlEntities *)

Section Entities.

Lemma passes_unit d r tpl x : needs_first d r -> x <> d -> passes r tpl [x].
Proof.
  intros Hr Hx pv tl. cbn [app rev].
  apply replace_scan_miss. apply (exec_at_first d); [exact Hr | exact Hx].
Qed.

(** One replacement of an entity in a text made of pieces: the pieces
    equal to the entity become [t], the other ones are copied. *)
Lemma replace_pieces w t (f g : N -> jsstring) :
  w <> [] ->
  forall s,
    Forall (fun x => (f x = w /\ g x = t) \/
                     (g x = f x /\ passes (lit_units w) [TLit t] (f x))) s ->
    forall pv,
      replace_scan (lit_units w) [TLit t] pv (flat_map f s) 0 = flat_map g s.
Proof.
  intros Hw s Hs. induction Hs as [|x s Hx _ IH]; intros pv.
  - cbn [flat_map]. destruct w as [|c w]; [congruence|].
    simpl. unfold exec_at.
    destruct w; simpl; reflexivity.
  - cbn [flat_map]. destruct Hx as [[-> ->]|[-> Hp]].
    + rewrite replace_scan_lit_hit by exact Hw. now rewrite IH.
    + rewrite Hp. now rewrite IH.
Qed.

Ltac by_unit x :=
  destruct (N.eqb x 60) eqn:?E60;
    [apply N.eqb_eq in E60; subst x|
     destruct (N.eqb x 62) eqn:?E62;
       [apply N.eqb_eq in E62; subst x|
        destruct (N.eqb x 34) eqn:?E34;
          [apply N.eqb_eq in E34; subst x|
           destruct (N.eqb x 39) eqn:?E39;
             [apply N.eqb_eq in E39; subst x|]]]].

Ltac entity_passes :=
  right; split; [reflexivity|];
  intros pv tl; cbn [app];
  repeat (rewrite replace_scan_miss by reflexivity);
  reflexivity.

Ltac plain_passes d Hx :=
  right; split;
  [ unfold esc, escapeUnit; cbn [mem];
    repeat match goal with H : N.eqb _ _ = false |- _ => rewrite H end;
    reflexivity
  | unfold esc, escapeUnit; cbn [mem];
    repeat match goal with H : N.eqb _ _ = false |- _ => rewrite H end;
    cbn [orb];
    apply (passes_unit d); [apply needs_first_chr | exact Hx] ].

Lemma unescape_stage (w : string) (c : N) (E E' : list N) :
  js w <> [] ->
  (forall x, x <> 38%N ->
     (esc E x = js w /\ esc E' x = [c]) \/
     (esc E' x = esc E x /\ passes (lit w) [TLit [c]] (esc E x))) ->
  forall s, no_unit 38 s ->
    replace_all (lit w) [TLit [c]] (flat_map (esc E) s) = flat_map (esc E') s.
Proof.
  intros Hw H s Hs. unfold replace_all, lit.
  apply replace_pieces; [exact Hw|].
  unfold no_unit in Hs. rewrite Forall_forall in *. intros x Hx.
  apply H. now apply Hs.
Qed.

Lemma escapeHtml_esc s :
  no_unit 38 s -> escapeHtml s = flat_map (esc [60; 62; 34; 39]%N) s.
Proof.
  intros Hs. rewrite escapeHtml_units.
  induction Hs as [|x s Hx _ IH]; [reflexivity|].
  cbn [flat_map]. rewrite IH. f_equal.
  unfold esc, escapeUnit. cbn [mem].
  destruct (N.eqb_spec x 38); [contradiction|].
  destruct (N.eqb x 60), (N.eqb x 62), (N.eqb x 34), (N.eqb x 39);
    reflexivity.
Qed.

Lemma flat_map_unit (s : jsstring) : flat_map (fun x => [x]) s = s.
Proof. induction s; simpl; congruence. Qed.

(** X4: unescapeHtmlEntities undoes escapeHtml on every text without an
    ampersand. *)
Theorem unescape_escape_round_trip (s : jsstring) :
  no_unit 38 s -> unescapeHtmlEntities (escapeHtml s) = s.
Proof.
  intros Hs. unfold unescapeHtmlEntities. rewrite (escapeHtml_esc s Hs).
  change [T "<"] with [TLit [60%N]]. change [T ">"] with [TLit [62%N]].
  change [T "&"] with [TLit [38%N]]. change [T "'"] with [TLit [39%N]].
  change [TLit dquote] with [TLit [34%N]].
  rewrite (unescape_stage "&lt;" 60 _ [62; 34; 39]%N); [|discriminate| |exact Hs].
  2:{ intros x Hx. by_unit x.
      - left. split; reflexivity.
      - entity_passes.
      - entity_passes.
      - entity_passes.
      - plain_passes 38%N Hx. }
  rewrite (unescape_stage "&gt;" 62 _ [34; 39]%N); [|discriminate| |exact Hs].
  2:{ intros x Hx. by_unit x.
      - plain_passes 38%N Hx.
      - left. split; reflexivity.
      - entity_passes.
      - entity_passes.
      - plain_passes 38%N Hx. }
  rewrite (unescape_stage "&amp;" 38 _ [34; 39]%N); [|discriminate| |exact Hs].
  2:{ intros x Hx. by_unit x.
      - plain_passes 38%N Hx.
      - plain_passes 38%N Hx.
      - entity_passes.
      - entity_passes.
      - plain_passes 38%N Hx. }
  rewrite (unescape_stage "&quot;" 34 _ [39]%N); [|discriminate| |exact Hs].
  2:{ intros x Hx. by_unit x.
      - plain_passes 38%N Hx.
      - plain_passes 38%N Hx.
      - left. split; reflexivity.
      - entity_passes.
      - plain_passes 38%N Hx. }
  rewrite (unescape_stage "&#39;" 39 _ []%N); [|discriminate| |exact Hs].
  2:{ intros x Hx. by_unit x.
      - plain_passes 38%N Hx.
      - plain_passes 38%N Hx.
      - plain_passes 38%N Hx.
      - left. split; reflexivity.
      - plain_passes 38%N Hx. }
  apply flat_map_unit.
Qed.

End Entities.

Lemma unescape_escape_round_trip_witness :
  unescapeHtmlEntities (escapeHtml (js "if a<b then 'x' else y>z")) =
  js "if a<b then 'x' else y>z".
Proof.
  apply unescape_escape_round_trip. repeat constructor; discriminate.
Defined.

(** With an ampersand the round trip can fail: the entity of the ampersand
    is decoded before the entities of the two quotation marks, so an
    escaped entity name is decoded twice. *)
Example unescape_escape_decodes_twice :
  escapeHtml (js "&quot;") = js "&amp;quot;" /\
  unescapeHtmlEntities (escapeHtml (js "&quot;")) = dquote.
Proof. split; vm_compute; reflexivity. Qed.

Section EscapedText.

(** X5: the text escapeHtml returns holds no less-than sign, greater-than
    sign, quotation mark or apostrophe; a text without these four and
    without ampersand is returned as it is. *)
Theorem escapeHtml_no_markup (text : jsstring) :
  free_of [60; 62; 34; 39]%N (escapeHtml text) /\
  (free_of [38; 60; 62; 34; 39]%N text -> escapeHtml text = text).
Proof.
  rewrite escapeHtml_units. split.
  - unfold free_of. rewrite Forall_forall. intros y Hy.
    apply in_flat_map in Hy. destruct Hy as (x & _ & Hy).
    unfold escapeUnit in Hy.
    repeat match type of Hy with
           | In _ (if N.eqb ?a ?b then _ else _) =>
               destruct (N.eqb_spec a b)
           end;
      try (simpl in Hy;
           repeat (destruct Hy as [<-|Hy]; [reflexivity|]);
           contradiction).
    simpl in Hy. destruct Hy as [<-|[]].
    cbn [mem].
    repeat match goal with
           | H : ?a <> ?b |- context [N.eqb ?a ?b] =>
               destruct (N.eqb_spec a b); [contradiction|]
           end.
    reflexivity.
  - intros Hf. unfold free_of in Hf.
    induction Hf as [|x s Hx _ IH]; [reflexivity|].
    cbn [flat_map]. rewrite IH. unfold escapeUnit.
    cbn [mem] in Hx.
    destruct (N.eqb x 38), (N.eqb x 60), (N.eqb x 62), (N.eqb x 34),
      (N.eqb x 39); try discriminate.
    reflexivity.
Qed.

Lemma escapeHtml_no_markup_witness :
  escapeHtml (js "x + y = 2") = js "x + y = 2".
Proof.
  apply (escapeHtml_no_markup (js "x + y = 2")). apply free_ofb_spec.
  reflexivity.
Defined.

End EscapedText.

(** ** What a match tells about the input *)

Section MatchInversion.

Lemma hd_error_In {A} (l : list A) x : hd_error l = Some x -> In x l.
Proof. destruct l; simpl; [discriminate|]. intros E. inversion E. now left. Qed.

Lemma exec_at_In r pv rs st' :
  exec_at r pv rs = Some st' -> In st' (m r (MState pv rs [])).
Proof. apply hd_error_In. Qed.

Lemma m_chr_inv cl st st' :
  In st' (m (Chr cl) st) ->
  exists c, cmatch cl c = true /\ rest st = c :: rest st' /\
            prev st' = c :: prev st /\ caps st' = caps st.
Proof.
  simpl. destruct (rest st) as [|c rs]; [intros []|].
  destruct (cmatch cl c) eqn:Hc; [|intros []].
  intros [<-|[]]. exists c. simpl. auto.
Qed.

Lemma star_inv cl : forall rs pv p,
  In p (star cl pv rs) ->
  exists l, rs = l ++ snd p /\ fst p = rev l ++ pv /\
            Forall (fun c => cmatch cl c = true) l.
Proof.
  induction rs as [|c rs IH]; simpl; intros pv p H.
  - destruct H as [<-|[]]. exists []. auto.
  - destruct (cmatch cl c) eqn:Hc.
    + apply in_app_or in H. destruct H as [H|[<-|[]]].
      * destruct (IH _ _ H) as (l & -> & E & Hl). exists (c :: l).
        simpl. rewrite E, <- app_assoc. auto.
      * exists []. auto.
    + destruct H as [<-|[]]. exists []. auto.
Qed.

(** A group around [c+] captures a non-empty run of units of the class. *)
Lemma m_group_plus_inv cl st st' :
  In st' (m (Grp (plus cl)) st) ->
  exists f, f <> [] /\ Forall (fun c => cmatch cl c = true) f /\
            rest st = f ++ rest st' /\ prev st' = rev f ++ prev st /\
            caps st' = caps st ++ [f].
Proof.
  intros H. cbn [m] in H. apply in_map_iff in H.
  destruct H as (st2 & <- & H). unfold plus in H.
  change (m (Seq (Chr cl) (Star cl)) st)
    with (flat_map (m (Star cl)) (m (Chr cl) st)) in H.
  apply in_flat_map in H. destruct H as (st1 & H1 & H2).
  apply m_chr_inv in H1. destruct H1 as (c & Hc & E1 & P1 & C1).
  cbn [m] in H2. apply in_map_iff in H2. destruct H2 as (p & <- & Hp).
  apply star_inv in Hp. destruct Hp as (l & E2 & P2 & Hl).
  cbn [rest prev caps]. exists (c :: l). rewrite E1, E2, P2, P1, C1.
  repeat split.
  - discriminate.
  - now constructor.
  - cbn [rev]. now rewrite <- app_assoc.
  - f_equal. f_equal.
    replace (length (c :: l ++ snd p) - length (snd p))
      with (length (c :: l)) by (cbn [length]; rewrite length_app; lia).
    change (c :: l ++ snd p) with ((c :: l) ++ snd p).
    apply firstn_len_app.
Qed.

Lemma m_lit_units_inv : forall w st st',
  In st' (m (lit_units w) st) ->
  rest st = w ++ rest st' /\ prev st' = rev w ++ prev st /\
  caps st' = caps st.
Proof.
  induction w as [|c w IH]; intros st st' H.
  - simpl in H. destruct H as [<-|[]]. auto.
  - destruct w as [|d w].
    + apply m_chr_inv in H. destruct H as (x & Hx & E & P & C).
      simpl in Hx. apply N.eqb_eq in Hx. subst x. auto.
    + change (lit_units (c :: d :: w))
        with (Seq (Chr (COne c)) (lit_units (d :: w))) in H.
      change (m (Seq (Chr (COne c)) (lit_units (d :: w))) st)
        with (flat_map (m (lit_units (d :: w))) (m (Chr (COne c)) st)) in H.
      apply in_flat_map in H. destruct H as (st1 & H1 & H2).
      apply m_chr_inv in H1. destruct H1 as (x & Hx & E & P & C).
      simpl in Hx. apply N.eqb_eq in Hx. subst x.
      apply IH in H2. destruct H2 as (E2 & P2 & C2).
      rewrite E, E2, P2, P, C2, C. repeat split.
      cbn [rev]. now rewrite <- !app_assoc.
Qed.

Lemma m_seq_inv a b st st' :
  In st' (m (Seq a b) st) -> exists st1, In st1 (m a st) /\ In st' (m b st1).
Proof. intros H. simpl in H. now apply in_flat_map in H. Qed.

Lemma m_not_ahead_inv a st st' : In st' (m (NotAhead a) st) -> st' = st.
Proof.
  simpl. destruct (m a st); [|intros []]. intros [<-|[]]. reflexivity.
Qed.

Lemma m_not_behind_inv cl st st' : In st' (m (NotBehind cl) st) -> st' = st.
Proof.
  simpl. destruct (prev st) as [|c ?]; [|destruct (cmatch cl c)];
    simpl; try contradiction; intros [<-|[]]; reflexivity.
Qed.

Lemma m_bol_inv st st' : In st' (m Bol st) -> st' = st /\ prev st = [].
Proof.
  simpl. destruct (prev st); [|intros []]. intros [<-|[]]. auto.
Qed.

(** Every match a global scan reports is a match of the pattern at its
    index. *)
Lemma exec_scan_sound r : forall rs pv k mt,
  In mt (exec_scan r pv rs k) ->
  exists pv' rs' st',
    rev pv' ++ rs' = rev pv ++ rs /\ index mt = length pv' /\
    In st' (m r (MState pv' rs' [])) /\ groups mt = caps st' /\
    whole mt = firstn (length rs' - length (rest st')) rs'.
Proof.
  induction rs as [|c rs IH]; intros pv k mt H.
  - destruct k; simpl in H; [|contradiction].
    destruct (exec_at r pv []) as [st'|] eqn:E; [|contradiction].
    destruct H as [<-|[]]. exists pv, [], st'. simpl.
    repeat split. now apply exec_at_In.
  - destruct k as [|k].
    + unfold exec_scan in H. fold exec_scan in H.
      destruct (exec_at r pv (c :: rs)) as [st'|] eqn:E.
      * destruct H as [<-|H].
        -- exists pv, (c :: rs), st'. simpl.
           repeat split. now apply exec_at_In.
        -- apply IH in H. destruct H as (pv' & rs' & st2 & E2 & H).
           exists pv', rs', st2. split; [|exact H].
           rewrite E2. simpl. now rewrite <- app_assoc.
      * apply IH in H. destruct H as (pv' & rs' & st2 & E2 & H).
        exists pv', rs', st2. split; [|exact H].
        rewrite E2. simpl. now rewrite <- app_assoc.
    + simpl in H. apply IH in H. destruct H as (pv' & rs' & st2 & E2 & H).
      exists pv', rs', st2. split; [|exact H].
      rewrite E2. simpl. now rewrite <- app_assoc.
Qed.

Lemma skipn_rev_app {A} (a b : list A) : skipn (length a) (rev a ++ b) = b.
Proof.
  rewrite <- length_rev, skipn_app, skipn_all, Nat.sub_diag. reflexivity.
Qed.

End MatchInversion.

(** ** The formulas found in a text *)

Section FormulasFound.

Import Dom Selectors Parser.

Lemma not_dollar_run f :
  Forall (fun c => cmatch (CNot [dollar]) c = true) f -> no_unit dollar f.
Proof.
  unfold no_unit. apply Forall_impl. intros c Hc E. subst c.
  discriminate Hc.
Qed.

Lemma inline_match_inv pv rs st' :
  In st' (m inlineRegex (MState pv rs [])) ->
  exists f, f <> [] /\ no_unit dollar f /\
            rs = dollar :: f ++ dollar :: rest st' /\ caps st' = [f].
Proof.
  rewrite inlineRegex_eq. intros H.
  apply m_seq_inv in H. destruct H as (s1 & H1 & H).
  apply m_seq_inv in H. destruct H as (s2 & H2 & H3).
  apply m_chr_inv in H1. destruct H1 as (c1 & Hc1 & E1 & _ & C1).
  apply m_group_plus_inv in H2.
  destruct H2 as (f & Hf & Hd & E2 & _ & C2).
  apply m_chr_inv in H3. destruct H3 as (c3 & Hc3 & E3 & _ & C3).
  simpl in Hc1, Hc3. apply N.eqb_eq in Hc1, Hc3. subst c1 c3.
  cbn [rest caps] in E1, C1. exists f.
  repeat split; [exact Hf | now apply not_dollar_run | |].
  - now rewrite E1, E2, E3.
  - now rewrite C3, C2, C1.
Qed.

Lemma block_match_inv pv rs st' :
  In st' (m blockRegex (MState pv rs [])) ->
  exists f, f <> [] /\ no_unit dollar f /\
            rs = dollar :: dollar :: f ++ dollar :: dollar :: rest st' /\
            caps st' = [f].
Proof.
  rewrite blockRegex_eq. intros H.
  apply m_seq_inv in H. destruct H as (s2 & H12 & H).
  apply m_seq_inv in H12. destruct H12 as (s1 & H1 & H2).
  apply m_seq_inv in H. destruct H as (s3 & H3 & H45).
  apply m_seq_inv in H45. destruct H45 as (s4 & H4 & H5).
  apply m_chr_inv in H1. destruct H1 as (c1 & Hc1 & E1 & _ & C1).
  apply m_chr_inv in H2. destruct H2 as (c2 & Hc2 & E2 & _ & C2).
  apply m_group_plus_inv in H3.
  destruct H3 as (f & Hf & Hd & E3 & _ & C3).
  apply m_chr_inv in H4. destruct H4 as (c4 & Hc4 & E4 & _ & C4).
  apply m_chr_inv in H5. destruct H5 as (c5 & Hc5 & E5 & _ & C5).
  simpl in Hc1, Hc2, Hc4, Hc5.
  apply N.eqb_eq in Hc1, Hc2, Hc4, Hc5. subst c1 c2 c4 c5.
  cbn [rest caps] in E1, C1. exists f.
  repeat split; [exact Hf | now apply not_dollar_run | |].
  - now rewrite E1, E2, E3, E4, E5.
  - now rewrite C5, C4, C3, C2, C1.
Qed.

Lemma guarded_match_inv pv rs st' :
  In st' (m guardedInlineRegex (MState pv rs [])) ->
  exists f, f <> [] /\ no_unit dollar f /\
            rs = dollar :: f ++ dollar :: rest st' /\ caps st' = [f].
Proof.
  rewrite guardedInlineRegex_eq. intros H.
  apply m_seq_inv in H. destruct H as (s0 & H0 & H).
  apply m_not_behind_inv in H0. subst s0.
  apply m_seq_inv in H. destruct H as (s1 & H1 & H).
  apply m_seq_inv in H. destruct H as (s1' & H1' & H).
  apply m_not_ahead_inv in H1'. subst s1'.
  apply m_seq_inv in H. destruct H as (s2 & H2 & H).
  apply m_seq_inv in H. destruct H as (s3 & H3 & H4).
  apply m_not_ahead_inv in H4. subst st'.
  apply m_chr_inv in H1. destruct H1 as (c1 & Hc1 & E1 & _ & C1).
  apply m_group_plus_inv in H2.
  destruct H2 as (f & Hf & Hd & E2 & _ & C2).
  apply m_chr_inv in H3. destruct H3 as (c3 & Hc3 & E3 & _ & C3).
  simpl in Hc1, Hc3. apply N.eqb_eq in Hc1, Hc3. subst c1 c3.
  cbn [rest caps] in E1, C1. exists f.
  repeat split; [exact Hf | now apply not_dollar_run | |].
  - now rewrite E1, E2, E3.
  - now rewrite C3, C2, C1.
Qed.

(** What a reported match of one of the three patterns is: the formula
    [f] between its delimiters, at the reported index of the text. *)
Lemma scan_delimited r blk text mt :
  (forall pv rs st', In st' (m r (MState pv rs [])) ->
     exists f, f <> [] /\ no_unit dollar f /\
               rs = delimited blk f ++ rest st' /\ caps st' = [f]) ->
  In mt (exec_all r text) ->
  nth 0 (groups mt) [] <> [] /\
  no_unit dollar (nth 0 (groups mt) []) /\
  (exists tail,
     skipn (index mt) text = delimited blk (nth 0 (groups mt) []) ++ tail) /\
  whole mt = delimited blk (nth 0 (groups mt) []).
Proof.
  intros Hinv H. apply exec_scan_sound in H.
  destruct H as (pv' & rs' & st' & E & Hi & Hm & Hg & Hw).
  destruct (Hinv _ _ _ Hm) as (f & Hf & Hd & Ers & Hc).
  rewrite Hg, Hc. cbn [nth]. repeat split; [exact Hf | exact Hd | |].
  - exists (rest st'). simpl in E. rewrite <- E, Hi, skipn_rev_app.
    exact Ers.
  - rewrite Hw, Ers, length_app.
    replace (length (delimited blk f) + length (rest st') -
             length (rest st')) with (length (delimited blk f)) by lia.
    apply firstn_len_app.
Qed.

Lemma inline_delimited pv rs st' :
  In st' (m inlineRegex (MState pv rs [])) ->
  exists f, f <> [] /\ no_unit dollar f /\
            rs = delimited false f ++ rest st' /\ caps st' = [f].
Proof.
  intros H. destruct (inline_match_inv _ _ _ H) as (f & ? & ? & -> & ?).
  exists f. repeat split; try assumption.
  unfold delimited. change (js "$") with [dollar].
  change (js "$$") with [dollar; dollar].
  cbn [app]. now rewrite <- app_assoc.
Qed.

Lemma guarded_delimited pv rs st' :
  In st' (m guardedInlineRegex (MState pv rs [])) ->
  exists f, f <> [] /\ no_unit dollar f /\
            rs = delimited false f ++ rest st' /\ caps st' = [f].
Proof.
  intros H. destruct (guarded_match_inv _ _ _ H) as (f & ? & ? & -> & ?).
  exists f. repeat split; try assumption.
  unfold delimited. change (js "$") with [dollar].
  change (js "$$") with [dollar; dollar].
  cbn [app]. now rewrite <- app_assoc.
Qed.

Lemma block_delimited pv rs st' :
  In st' (m blockRegex (MState pv rs [])) ->
  exists f, f <> [] /\ no_unit dollar f /\
            rs = delimited true f ++ rest st' /\ caps st' = [f].
Proof.
  intros H. destruct (block_match_inv _ _ _ H) as (f & ? & ? & -> & ?).
  exists f. repeat split; try assumption.
  unfold delimited. change (js "$") with [dollar].
  change (js "$$") with [dollar; dollar].
  cbn [app]. now rewrite <- app_assoc.
Qed.

Lemma fold_pushExpression blk : forall l st,
  fold_left (pushExpression blk) l st =
  (match l with [] => fst st | _ :: _ => true end,
   snd st ++
   map (fun mt => {| raw := nth 0 (groups mt) []; isBlock := blk;
                     position := index mt |}) l).
Proof.
  induction l as [|mt l IH]; intros [b es]; simpl.
  - now rewrite app_nil_r.
  - rewrite IH. simpl. rewrite <- app_assoc. destruct l; reflexivity.
Qed.

(** X6: every expression createTextBlock records points at a formula of
    the text: the formula is not empty and has no dollar sign, and the
    text continues at the recorded position with the formula between
    single dollar signs (inline) or double dollar signs (block). The flag
    hasLatex is set exactly when an expression was recorded. *)
Theorem createTextBlock_expressions_delimited (text : jsstring)
        (options : ExtractionOptions) :
  let b := createTextBlock text options in
  (hasLatex b = true <-> latexExpressions b <> []) /\
  forall e, In e (latexExpressions b) ->
    raw e <> [] /\ no_unit dollar (raw e) /\
    exists tail,
      skipn (position e) text = delimited (isBlock e) (raw e) ++ tail.
Proof.
  unfold createTextBlock. cbv zeta.
  destruct (parseLaTeX options).
  - rewrite !fold_pushExpression. cbn [fst snd app hasLatex latexExpressions].
    split.
    + destruct (exec_all inlineRegex text), (exec_all blockRegex text);
        simpl; split; congruence.
    + intros e He. apply in_app_or in He.
      destruct He as [He|He]; apply in_map_iff in He;
        destruct He as (mt & <- & Hmt); cbn [raw isBlock position].
      * destruct (scan_delimited _ false _ _ inline_delimited Hmt)
          as (A & B & C & _). auto.
      * destruct (scan_delimited _ true _ _ block_delimited Hmt)
          as (A & B & C & _). auto.
  - simpl. split; [split; congruence | intros e []].
Qed.

Lemma In_insertByStart x : forall l e,
  In e (insertByStart x l) -> e = x \/ In e l.
Proof.
  induction l as [|y l IH]; simpl; intros e H.
  - destruct H as [<-|[]]. now left.
  - destruct (startIndex x <? startIndex y).
    + destruct H as [<-|H]; [now left | now right].
    + destruct H as [<-|H]; [right; now left|].
      destruct (IH _ H); [now left | right; now right].
Qed.

Lemma In_sortByStart l e : In e (sortByStart l) -> In e l.
Proof.
  unfold sortByStart.
  assert (G : forall l acc, In e (fold_left (fun acc x => insertByStart x acc)
                                            l acc) -> In e acc \/ In e l).
  { clear l. induction l as [|x l IH]; simpl; intros acc H; [now left|].
    destruct (IH _ H) as [H1|H1]; [|right; now right].
    destruct (In_insertByStart _ _ _ H1) as [->|H2];
      [right; now left | now left]. }
  intros H. destruct (G _ _ H) as [[]|H1]. exact H1.
Qed.

Lemma insertByStart_sorted x : forall l,
  Sorted byStart l -> Sorted byStart (insertByStart x l).
Proof.
  induction l as [|y l IH]; simpl; intros H.
  - repeat constructor.
  - destruct (startIndex x <? startIndex y) eqn:E.
    + apply Nat.ltb_lt in E. constructor; [exact H|].
      constructor. unfold byStart. lia.
    + apply Nat.ltb_ge in E. inversion H as [|? ? Hs Hh]; subst.
      constructor; [now apply IH|].
      destruct l as [|z l]; simpl.
      * constructor. exact E.
      * destruct (startIndex x <? startIndex z); constructor.
        -- exact E.
        -- now inversion Hh.
Qed.

Lemma sortByStart_sorted l : Sorted byStart (sortByStart l).
Proof.
  unfold sortByStart.
  assert (G : forall l acc, Sorted byStart acc ->
                Sorted byStart (fold_left (fun acc x => insertByStart x acc)
                                          l acc)).
  { clear l. induction l as [|x l IH]; simpl; intros acc H; [exact H|].
    apply IH. now apply insertByStart_sorted. }
  apply G. constructor.
Qed.

Lemma extractLatexExpressions_spans (text : jsstring) e :
  In e (extractLatexExpressions text) ->
  e_raw e <> [] /\ no_unit dollar (e_raw e) /\
  (exists tail,
     skipn (startIndex e) text =
     delimited (e_isBlock e) (e_raw e) ++ tail) /\
  endIndex e = startIndex e + length (delimited (e_isBlock e) (e_raw e)).
Proof.
  unfold extractLatexExpressions.
  intros He. apply In_sortByStart in He.
  assert (G : forall l acc,
            In e (fold_left (fun exprs mt =>
                               if overlaps exprs (index mt) then exprs
                               else exprs ++ [expressionOf false mt]) l acc) ->
            In e acc \/ exists mt, In mt l /\ e = expressionOf false mt).
  { induction l as [|mt l IH]; simpl; intros acc H; [now left|].
    destruct (IH _ H) as [H1|(mt' & H1 & H2)].
    - destruct (overlaps acc (index mt)); [now left|].
      apply in_app_or in H1. destruct H1 as [H1|[<-|[]]]; [now left|].
      right. exists mt. auto.
    - right. exists mt'. auto. }
  assert (G1 : forall l acc,
            In e (fold_left (fun exprs mt => exprs ++ [expressionOf true mt])
                            l acc) ->
            In e acc \/ exists mt, In mt l /\ e = expressionOf true mt).
  { induction l as [|mt l IH]; simpl; intros acc H; [now left|].
    destruct (IH _ H) as [H1|(mt' & H1 & H2)].
    - apply in_app_or in H1. destruct H1 as [H1|[<-|[]]]; [now left|].
      right. exists mt. auto.
    - right. exists mt'. auto. }
  destruct (G _ _ He) as [H|(mt & Hmt & ->)].
  - destruct (G1 _ _ H) as [[]|(mt & Hmt & ->)].
    destruct (scan_delimited _ true _ _ block_delimited Hmt)
      as (A & B & C & D).
    cbn [expressionOf e_raw e_isBlock startIndex endIndex].
    rewrite D. auto.
  - destruct (scan_delimited _ false _ _ guarded_delimited Hmt)
      as (A & B & C & D).
    cbn [expressionOf e_raw e_isBlock startIndex endIndex].
    rewrite D. auto.
Qed.

(** X7: extractLatexExpressions returns its expressions in the order of
    their start index, and each of them spans a formula of the text: from
    startIndex the text reads the formula, not empty and without dollar
    sign, between double dollar signs for a block expression and between
    single ones for an inline expression, and endIndex is the index just
    behind the closing delimiter. *)
Theorem extractLatexExpressions_delimited (text : jsstring) :
  Sorted byStart (extractLatexExpressions text) /\
  forall e, In e (extractLatexExpressions text) ->
    e_raw e <> [] /\ no_unit dollar (e_raw e) /\
    (exists tail,
       skipn (startIndex e) text =
       delimited (e_isBlock e) (e_raw e) ++ tail) /\
    endIndex e = startIndex e + length (delimited (e_isBlock e) (e_raw e)).
Proof.
  split.
  - unfold extractLatexExpressions. apply sortByStart_sorted.
  - apply extractLatexExpressions_spans.
Qed.

End FormulasFound.

(** ** The export handler *)

Section ExportSelection.

Import Parser ExportHandler.

Variable Rest : Type.


End ExportSelection.

Section ExportSelectionSample.

Import Parser ExportHandler.


End ExportSelectionSample.

(** ** Title and identifier of the conversation *)

Section TitleAndId.

Import Dom Selectors.

Lemma truthy_nonempty s : truthy s = true -> s <> [].
Proof. destruct s; [discriminate | discriminate]. Qed.

Lemma getConversationTitle_trimmed (pg : page) :
  getConversationTitle pg <> [] /\
  trim (getConversationTitle pg) = getConversationTitle pg.
Proof.
  unfold getConversationTitle.
  set (doc := Tree true (document pg)).
  set (t2 := replace_first _ [] (replace_first _ [] (title pg))).
  assert (D : (if truthy (title pg)
               then if truthy (trim t2) then trim t2
                    else js "Untitled Conversation"
               else js "Untitled Conversation") <> [] /\
              trim (if truthy (title pg)
                    then if truthy (trim t2) then trim t2
                         else js "Untitled Conversation"
                    else js "Untitled Conversation") =
              (if truthy (title pg)
               then if truthy (trim t2) then trim t2
                    else js "Untitled Conversation"
               else js "Untitled Conversation")).
  { destruct (truthy (title pg)); [|split; [discriminate | reflexivity]].
    destruct (truthy (trim t2)) eqn:E;
      [|split; [discriminate | reflexivity]].
    split; [now apply truthy_nonempty | apply trim_idem]. }
  destruct (querySelector doc [] sel_h1) as [h1|]; [|exact D].
  destruct (truthy (text_of doc h1)); [|exact D].
  destruct (truthy (trim (text_of doc h1))) eqn:E; [|exact D].
  destruct (negb (str_eqb (trim (text_of doc h1)) (js "ChatGPT")));
    [|exact D].
  simpl. split; [now apply truthy_nonempty | apply trim_idem].
Qed.

Lemma title_is_nonempty (pg : page) :
  getConversationTitle pg <> [].
Proof. apply getConversationTitle_trimmed. Qed.

(** X9: getConversationTitle never returns the empty string, and what it
    returns has no white space at either end: it is the trimmed text of
    the first h1 element, the trimmed page title, or the words Untitled
    Conversation. *)
Theorem getConversationTitle_nonempty (pg : page) :
  getConversationTitle pg <> [] /\
  trim (getConversationTitle pg) = getConversationTitle pg.
Proof. apply getConversationTitle_trimmed. Qed.

Lemma search_found r : forall a pv b,
  exec_at r (rev a ++ pv) b <> None -> search r pv (a ++ b) <> None.
Proof.
  induction a as [|c a IH]; intros pv b H.
  - simpl in H. destruct b; simpl; destruct (exec_at r pv _); congruence.
  - simpl. destruct (exec_at r pv (c :: a ++ b)); [discriminate|].
    apply IH. simpl in H. now rewrite <- app_assoc in H.
Qed.

Lemma search_sound r : forall rs pv mt,
  search r pv rs = Some mt ->
  exists pv' rs' st',
    rev pv' ++ rs' = rev pv ++ rs /\ index mt = length pv' /\
    In st' (m r (MState pv' rs' [])) /\ groups mt = caps st'.
Proof.
  induction rs as [|c rs IH]; intros pv mt H; simpl in H.
  - destruct (exec_at r pv []) as [st'|] eqn:E; [|discriminate].
    inversion H; subst. exists pv, [], st'. simpl.
    repeat split. now apply exec_at_In.
  - destruct (exec_at r pv (c :: rs)) as [st'|] eqn:E.
    + inversion H; subst. exists pv, (c :: rs), st'. simpl.
      repeat split. now apply exec_at_In.
    + apply IH in H. destruct H as (pv' & rs' & st2 & E2 & H).
      exists pv', rs', st2. split; [|exact H].
      rewrite E2. simpl. now rewrite <- app_assoc.
Qed.

Lemma star_nonempty cl pv rs : star cl pv rs <> [].
Proof.
  destruct rs as [|c rs]; simpl; [discriminate|].
  destruct (cmatch cl c); [|discriminate].
  destruct (star cl (c :: pv) rs); discriminate.
Qed.

(** On a run of the class, the group around [c+] has a match. *)
Lemma m_group_plus_some cl pv c rs cs :
  cmatch cl c = true ->
  m (Grp (plus cl)) (MState pv (c :: rs) cs) <> [].
Proof.
  intros Hc. cbn [m plus rest prev caps]. rewrite Hc.
  cbn [flat_map m rest prev caps]. rewrite app_nil_r.
  destruct (star cl (c :: pv) rs) eqn:E; [now apply star_nonempty in E|].
  discriminate.
Qed.

(** X10: on a conversation page the identifier is always found, so the
    error of extractConversation about a missing identifier cannot occur:
    when the location matches the URL pattern, getConversationIdFromUrl
    returns a non-empty identifier made of letters, digits and dashes. *)
Theorem conversation_id_found (pg : page) :
  isConversationPage pg = true ->
  exists cid,
    getConversationIdFromUrl pg = Some cid /\ cid <> [] /\
    Forall (fun c => cmatch CAlnumDash c = true) cid.
Proof.
  unfold isConversationPage, getConversationIdFromUrl, test.
  intros H.
  destruct (search urlPattern [] (href pg)) as [mt|] eqn:E; [|discriminate].
  clear H. apply search_sound in E.
  destruct E as (pv' & rs' & st' & E & _ & Hm & _).
  unfold urlPattern in Hm. cbn [seq] in Hm.
  apply m_seq_inv in Hm. destruct Hm as (s0 & H0 & Hm).
  apply m_bol_inv in H0. destruct H0 as [-> Hp]. cbn [prev] in Hp. subst pv'.
  apply m_seq_inv in Hm. destruct Hm as (s1 & H1 & Hm).
  apply m_seq_inv in Hm. destruct Hm as (s2 & H2 & Hm).
  apply m_seq_inv in Hm. destruct Hm as (s3 & H3 & H4).
  apply m_lit_units_inv in H1. destruct H1 as (E1 & _).
  destruct (m_suffix _ _ _ H2) as [host E2].
  apply m_lit_units_inv in H3. destruct H3 as (E3 & _).
  unfold plus in H4. apply m_seq_inv in H4. destruct H4 as (s4 & H4 & _).
  apply m_chr_inv in H4. destruct H4 as (c & Hc & E4 & _).
  cbn [rest] in E1. simpl in E.
  assert (Hh : href pg = (js "https://" ++ host) ++ js "/c/" ++ c :: rest s4).
  { rewrite <- E, E1, E2, E3, E4. now rewrite <- app_assoc. }
  set (idre := Regex.seq [lit "/c/"; Grp (plus CAlnumDash)]).
  assert (F : search idre [] (href pg) <> None).
  { rewrite Hh. apply search_found. unfold exec_at, idre.
    cbn [Regex.seq].
    change (m (Seq (lit "/c/") (Grp (plus CAlnumDash))) ?st)
      with (flat_map (m (Grp (plus CAlnumDash))) (m (lit "/c/") st)).
    unfold lit. rewrite m_lit_units_hit by discriminate.
    cbn [flat_map]. rewrite app_nil_r.
    pose proof (m_group_plus_some CAlnumDash
                  (rev (js "/c/") ++ rev (js "https://" ++ host) ++ [])
                  c (rest s4) [] Hc) as G.
    destruct (m (Grp (plus CAlnumDash)) _); [congruence | discriminate]. }
  destruct (search idre [] (href pg)) as [mi|] eqn:Ei; [|congruence].
  apply search_sound in Ei.
  destruct Ei as (pv2 & rs2 & st2 & _ & _ & Hm2 & Hg).
  unfold idre in Hm2. cbn [Regex.seq] in Hm2.
  apply m_seq_inv in Hm2. destruct Hm2 as (t1 & T1 & T2).
  apply m_lit_units_inv in T1. destruct T1 as (_ & _ & C1).
  apply m_group_plus_inv in T2. destruct T2 as (f & Hf & Hcl & _ & _ & C2).
  exists f. rewrite Hg, C2, C1. cbn [caps app nth]. auto.
Qed.

Lemma conversation_id_found_witness :
  exists cid,
    getConversationIdFromUrl
      {| href := js "https://chatgpt.com/c/6f1a-22b?model=x";
         title := js "ChatGPT"; document := Text [] |} = Some cid /\
    cid <> [].
Proof.
  destruct (conversation_id_found
              {| href := js "https://chatgpt.com/c/6f1a-22b?model=x";
                 title := js "ChatGPT"; document := Text [] |})
    as (cid & E & H & _).
  - vm_compute. reflexivity.
  - exists cid. split; [exact E | exact H].
Defined.

End TitleAndId.

(** ** Code blocks and tables *)

Section CodeAndTables.

Import Dom Selectors Parser.

Lemma startsWith_app : forall p s,
  startsWith p s = true -> exists x, s = p ++ x.
Proof.
  induction p as [|c p IH]; intros s H.
  - now exists s.
  - destruct s as [|d s]; [discriminate|]. simpl in H.
    apply andb_true_iff in H. destruct H as [Hc Hs].
    apply N.eqb_eq in Hc. subst d.
    destruct (IH _ Hs) as [x ->]. now exists x.
Qed.

Lemma m_lit_units_miss : forall w s pv cs,
  startsWith w s = false -> m (lit_units w) (MState pv s cs) = [].
Proof.
  induction w as [|c w IH]; intros s pv cs H; [discriminate|].
  destruct s as [|d s].
  - destruct w; reflexivity.
  - simpl in H. destruct w as [|e w].
    + simpl. simpl in H. rewrite andb_true_r in H.
      rewrite N.eqb_sym. now rewrite H.
    + change (lit_units (c :: e :: w))
        with (Seq (Chr (COne c)) (lit_units (e :: w))).
      change (m (Seq (Chr (COne c)) (lit_units (e :: w))) ?st)
        with (flat_map (m (lit_units (e :: w))) (m (Chr (COne c)) st)).
      cbn [m rest prev caps cmatch]. rewrite N.eqb_sym.
      destruct (N.eqb c d); [|reflexivity].
      cbn [flat_map]. rewrite IH; [reflexivity|]. exact H.
Qed.

Lemma replace_first_scan_hit r tpl pv s st' :
  exec_at r pv s = Some st' ->
  replace_first_scan r tpl pv s = expand tpl (caps st') ++ rest st'.
Proof. intros H. destruct s; simpl; now rewrite H. Qed.

Lemma m_grp_hd a st st1 :
  hd_error (m a st) = Some st1 ->
  hd_error (m (Grp a) st) =
  Some (MState (prev st1) (rest st1)
               (caps st1 ++
                [firstn (length (rest st) - length (rest st1)) (rest st)])).
Proof. intros H. cbn [m]. destruct (m a st); inversion H. reflexivity. Qed.

Lemma m_alt_hd_left a b st st1 :
  hd_error (m a st) = Some st1 -> hd_error (m (Alt a b) st) = Some st1.
Proof. intros H. cbn [m]. destruct (m a st); inversion H. reflexivity. Qed.

Lemma m_alt_hd_right a b st :
  m a st = [] -> hd_error (m (Alt a b) st) = hd_error (m b st).
Proof. intros H. cbn [m]. now rewrite H. Qed.

Lemma m_bol_start r rs :
  m (Seq Bol r) (MState [] rs []) = m r (MState [] rs []).
Proof. simpl. now rewrite app_nil_r. Qed.

Lemma exec_langPrefix w x :
  w <> [] ->
  hd_error (m (Alt (lit "language-") (lit "lang-")) (MState [] (w ++ x) [])) =
  Some (MState (rev w ++ []) x []) ->
  replace_first langPrefix [] (w ++ x) = x.
Proof.
  intros Hw H. unfold replace_first.
  rewrite (replace_first_scan_hit _ _ _ _
             (MState (rev w ++ []) x ([] ++ [w]))); [reflexivity|].
  unfold exec_at, langPrefix. cbn [Regex.seq alts].
  rewrite m_bol_start. rewrite (m_grp_hd _ _ _ H).
  cbn [prev rest caps]. f_equal. f_equal. f_equal.
  rewrite length_app.
  replace (length w + length x - length x) with (length w) by lia.
  now rewrite firstn_len_app.
Qed.

(** The class prefix is cut off once. *)
Lemma langPrefix_cut c :
  startsWith (js "language-") c || startsWith (js "lang-") c = true ->
  c = js "language-" ++ replace_first langPrefix [] c \/
  c = js "lang-" ++ replace_first langPrefix [] c.
Proof.
  intros H.
  destruct (startsWith (js "language-") c) eqn:E1.
  - left. apply startsWith_app in E1. destruct E1 as [x ->].
    rewrite exec_langPrefix; [reflexivity | discriminate |].
    apply m_alt_hd_left. unfold lit.
    now rewrite m_lit_units_hit by discriminate.
  - right. cbn [orb] in H. apply startsWith_app in H. destruct H as [x ->].
    rewrite exec_langPrefix; [reflexivity | discriminate |].
    rewrite m_alt_hd_right.
    + unfold lit. now rewrite m_lit_units_hit by discriminate.
    + unfold lit. now apply m_lit_units_miss.
Qed.

(** X11: parseCodeBlock drops a block without code and trims the code it
    keeps: it returns nothing exactly when the text of the code element is
    empty or white space; otherwise the content is that text trimmed, and
    not empty. A language it reports is a class of the code element with
    the prefix language- or lang- cut off, and a file name it reports is
    trimmed and not empty. *)
Theorem parseCodeBlock_content (t : tree) (element : path) :
  match parseCodeBlock t element with
  | None => trim (text_of t (codeElementOf t element)) = []
  | Some b =>
      cb_content b = trim (text_of t (codeElementOf t element)) /\
      cb_content b <> [] /\
      (forall l, language b = Some l ->
         exists c,
           In c (classList (node_or_empty t (codeElementOf t element))) /\
           (c = js "language-" ++ l \/ c = js "lang-" ++ l)) /\
      (forall f, filename b = Some f -> f <> [] /\ trim f = f)
  end.
Proof.
  unfold parseCodeBlock. fold (codeElementOf t element).
  destruct (truthy (trim (text_of t (codeElementOf t element)))) eqn:E;
    cbn [negb].
  - cbn [cb_content language filename].
    split; [reflexivity|]. split; [now apply truthy_nonempty|]. split.
    + intros l Hl.
      destruct (find _ (classList _)) as [c|] eqn:F; [|discriminate].
      apply find_some in F. destruct F as [Hin Hc].
      inversion Hl; subst. exists c. split; [exact Hin|].
      now apply langPrefix_cut.
    + intros f Hf.
      destruct (parentElement t element) as [par|]; [|discriminate].
      destruct (querySelector t par sel_filename) as [fe|]; [|discriminate].
      destruct (truthy (trim (text_of t fe))) eqn:Tf; [|discriminate].
      inversion Hf; subst. split; [now apply truthy_nonempty|].
      apply trim_idem.
  - destruct (trim (text_of t (codeElementOf t element)));
      [reflexivity | discriminate].
Qed.

Lemma cellTexts_trimmed t row sel :
  Forall (fun c => trim c = c) (cellTexts t row sel).
Proof.
  unfold cellTexts. apply Forall_forall. intros c Hc.
  apply in_map_iff in Hc. destruct Hc as (x & <- & _). apply trim_idem.
Qed.

Lemma rowsOf_rows t rws sel :
  Forall (fun row => row <> [] /\ Forall (fun c => trim c = c) row)
         (rowsOf t rws sel).
Proof.
  unfold rowsOf. apply Forall_forall. intros row Hr.
  apply filter_In in Hr. destruct Hr as [Hin Hlen].
  apply in_map_iff in Hin. destruct Hin as (x & <- & _). split.
  - destruct (cellTexts t x sel); [discriminate | discriminate].
  - apply cellTexts_trimmed.
Qed.

(** X12: parseTableBlock keeps no empty row and trims every cell: each
    row of the result has at least one cell, and no header or body cell
    starts or ends with white space. *)
Theorem parseTableBlock_cells (t : tree) (element : path) :
  Forall (fun c => trim c = c) (headers (parseTableBlock t element)) /\
  Forall (fun row => row <> [] /\ Forall (fun c => trim c = c) row)
         (rows (parseTableBlock t element)).
Proof.
  unfold parseTableBlock. cbn [headers rows]. split.
  - destruct (cellTexts t element sel_head_cells) eqn:E.
    + destruct (querySelector t element sel_tr);
        [apply cellTexts_trimmed | constructor].
    + rewrite <- E. apply cellTexts_trimmed.
  - destruct (rowsOf t (querySelectorAll t element sel_body_rows) sel_td)
      eqn:E.
    + apply rowsOf_rows.
    + rewrite <- E. apply rowsOf_rows.
Qed.

End CodeAndTables.

(** ** What extraction returns *)

Section ExtractionResults.

Import Dom Selectors Parser.
Local Open Scope dom_scope.

Lemma parseCodeBlock_nonempty t element b :
  parseCodeBlock t element = Some b -> cb_content b <> [].
Proof.
  unfold parseCodeBlock.
  destruct (truthy (trim (text_of t _))) eqn:E; cbn [negb];
    [|discriminate].
  intros H. inversion H; subst. cbn [cb_content].
  now apply truthy_nonempty.
Qed.

Lemma trim_nil : trim [] = [].
Proof. reflexivity. Qed.

Lemma truthy_trim s : truthy (trim s) = true -> s <> [].
Proof. intros H E. subst s. discriminate H. Qed.

Lemma Forall_snoc {A} (P : A -> Prop) l x :
  Forall P l -> P x -> Forall P (l ++ [x]).
Proof. intros Hl Hx. apply Forall_app. split; [exact Hl | now constructor]. Qed.

Lemma hoare_text_or_nothing L (h : handle) options :
  hoare L (t <- textOf h ;;
           (if truthy (trim t)
            then ret [BText (createTextBlock (trim t) options)]
            else ret []))
        (Forall substantial).
Proof.
  apply hoare_bind_any; [apply hoare_any_reads | intros t].
  destruct (truthy (trim t)) eqn:E; apply hoare_ret.
  - constructor; [|constructor]. simpl. now apply truthy_nonempty.
  - constructor.
Qed.

Lemma hoare_parseContentBlocks L contentElement options :
  hoare L (parseContentBlocks contentElement options) (Forall substantial).
Proof.
  unfold parseContentBlocks.
  apply hoare_bind_any; [apply hoare_any_reads | intros children].
  destruct children as [|c cs]; [apply hoare_text_or_nothing|].
  eapply hoare_bind with (P := Forall substantial).
  - apply hoare_foldM; [constructor|]. intros blocks child _ Hb.
    apply hoare_bind_any; [apply hoare_any_reads | intros nd].
    destruct (tagIs nd "pre" && parseCodeBlocks options).
    { eapply hoare_bind with
        (P := fun o => match o with
                       | Some b => cb_content b <> []
                       | None => True
                       end).
      - apply hoare_reads. intros w _.
        destruct (parseCodeBlock _ child) as [b|] eqn:E; [|exact I].
        now apply parseCodeBlock_nonempty in E.
      - intros [b|] Hcb; apply hoare_ret; simpl; [|exact Hb].
        now apply Forall_snoc. }
    destruct (tagIs nd "table" && parseTables options).
    { apply hoare_bind_any; [apply hoare_any_reads | intros block].
      apply hoare_ret. now apply Forall_snoc. }
    apply hoare_bind_any; [apply hoare_any_reads | intros thinking].
    destruct thinking.
    { apply hoare_bind_any; [apply hoare_any_reads | intros block].
      apply hoare_ret. now apply Forall_snoc. }
    destruct (tagIs nd "ol" || tagIs nd "ul").
    + apply hoare_bind_any; [apply frame_parseListToText | intros listText].
      destruct (truthy listText) eqn:E; apply hoare_ret; [|exact Hb].
      apply Forall_snoc; [exact Hb|]. simpl. now apply truthy_nonempty.
    + apply hoare_bind_any;
        [apply frame_getElementTextWithStructure | intros text].
      destruct (truthy (trim text)) eqn:E; apply hoare_ret; [|exact Hb].
      apply Forall_snoc; [exact Hb|]. simpl. now apply truthy_trim.
  - intros blocks Hb. destruct blocks as [|b bs].
    + apply hoare_text_or_nothing.
    + apply hoare_ret. exact Hb.
Qed.

(** X13: parseContentBlocks never returns an empty text block or an empty
    code block, whatever the element and the options: every text block
    and every code block of the result has content. *)
Theorem parseContentBlocks_no_empty_block (w : world)
        (contentElement : handle) (options : ExtractionOptions) :
  Forall substantial (fst (parseContentBlocks contentElement options w)).
Proof.
  exact (proj2 (hoare_parseContentBlocks (live w) contentElement options
                                         w eq_refl)).
Qed.

Lemma hoare_parseMessageElement_wf L element index options :
  hoare L (parseMessageElement element index options)
        (fun o => match o with
                  | Some msg => wellFormed msg /\ m_index msg = index
                  | None => True
                  end).
Proof.
  unfold parseMessageElement.
  apply hoare_bind_any; [apply hoare_any_reads | intros role].
  apply hoare_bind_any; [apply hoare_any_reads | intros contentElement].
  eapply hoare_bind with (P := Forall substantial).
  - destruct contentElement as [ce|];
      [apply hoare_parseContentBlocks | apply hoare_ret; constructor].
  - intros content Hc.
    apply hoare_bind_any; [apply hoare_any_reads | intros rawHtml].
    destruct (isUnknown role && (length content =? 0) &&
              negb (truthy (trim rawHtml))); [now apply hoare_ret|].
    apply hoare_bind_any; [apply hoare_any_reads | intros explicitId].
    apply hoare_ret. unfold wellFormed. cbn [m_id isSelected Parser.content
                                             m_index].
    repeat split; [|exact Hc].
    destruct explicitId as [s|]; cbn [isTruthy orDefault].
    + destruct (truthy s) eqn:E; [now apply truthy_nonempty|].
      discriminate.
    + discriminate.
Qed.

Lemma StronglySorted_snoc l x :
  StronglySorted lt l -> Forall (fun y => y < x) l ->
  StronglySorted lt (l ++ [x]).
Proof.
  induction 1 as [|y l Hs IH Hy]; intros Hx; simpl.
  - repeat constructor.
  - inversion Hx; subst. constructor; [now apply IH|].
    apply Forall_app. split; [exact Hy | now constructor].
Qed.

Lemma hoare_message_loop L opts : forall els s acc,
  Forall wellFormed acc -> increasing acc ->
  Forall (fun msg => m_index msg < s) acc ->
  hoare L
    (foldM (combine (List.seq s (length els)) els) acc
       (fun messages it =>
          message <- parseMessageElement (Handle Live (snd it)) (fst it)
                                         opts ;;
          ret (push messages message)))
    (fun r => Forall wellFormed r /\ increasing r).
Proof.
  induction els as [|el els IH]; intros s acc Hw Hi Hb; simpl.
  - apply hoare_ret. now split.
  - eapply hoare_bind with
      (P := fun r => Forall wellFormed r /\ increasing r /\
                     Forall (fun msg => m_index msg < S s) r).
    + eapply hoare_bind; [apply hoare_parseMessageElement_wf|].
      intros [msg|] Hm; apply hoare_ret; simpl.
      * destruct Hm as [Hwf Hidx]. repeat split.
        -- now apply Forall_snoc.
        -- unfold increasing. rewrite map_app. simpl.
           apply StronglySorted_snoc; [exact Hi|].
           rewrite Forall_map, Hidx. exact Hb.
        -- apply Forall_snoc; [|lia].
           eapply Forall_impl; [|exact Hb]. simpl. intros; lia.
      * repeat split; try assumption.
        eapply Forall_impl; [|exact Hb]. simpl. intros; lia.
    + intros acc' (A & B & C). now apply IH.
Qed.

Lemma hoare_processElements_wf L elements opts ws :
  hoare L (processElements elements opts ws)
        (fun r =>
           match data r with
           | Some msgs =>
               success r = true /\ error r = None /\ msgs <> [] /\
               Forall wellFormed msgs /\ increasing msgs
           | None =>
               success r = false /\
               exists e, error r = Some e /\ e <> []
           end).
Proof.
  unfold processElements.
  eapply hoare_bind.
  - unfold indexed. apply (hoare_message_loop L opts elements 0 []);
      constructor.
  - intros msgs [Hw Hi]. destruct msgs as [|msg msgs]; apply hoare_ret; simpl.
    + split; [reflexivity|]. eexists. split; [reflexivity | discriminate].
    + repeat split; try assumption. discriminate.
Qed.

Lemma hoare_extractMessages_wf L options :
  hoare L (extractMessages options)
        (fun r =>
           match data r with
           | Some msgs =>
               success r = true /\ error r = None /\ msgs <> [] /\
               Forall wellFormed msgs /\ increasing msgs
           | None =>
               success r = false /\
               exists e, error r = Some e /\ e <> []
           end).
Proof.
  unfold extractMessages.
  apply hoare_bind_any; [apply hoare_any_reads | intros messageElements].
  destruct (length messageElements =? 0);
    [|apply hoare_processElements_wf].
  apply hoare_bind_any; [apply hoare_any_reads | intros main].
  eapply hoare_bind with
    (P := fun o => match o with
                   | Some msg => wellFormed msg /\ m_index msg = 0
                   | None => True
                   end).
  - destruct main as [mainEl|]; [|now apply hoare_ret].
    apply hoare_bind_any; [apply hoare_any_reads | intros content].
    apply hoare_bind_any; [apply hoare_any_reads | intros mainNode].
    destruct (truthy (trim content)) eqn:E; apply hoare_ret; [|exact I].
    split; [|reflexivity]. unfold wellFormed, fallbackMessage. simpl.
    repeat split; [discriminate|].
    constructor; [|constructor]. simpl. now apply truthy_nonempty.
  - intros [msg|] Hm; apply hoare_ret; simpl.
    + destruct Hm as [Hwf Hidx]. repeat split.
      * discriminate.
      * now constructor.
      * unfold increasing. simpl. repeat constructor.
    + split; [reflexivity|]. eexists. split; [reflexivity | discriminate].
Qed.


Lemma conversation_id_shape pg cid :
  getConversationIdFromUrl pg = Some cid -> cid <> [].
Proof.
  unfold getConversationIdFromUrl.
  destruct (search _ [] (href pg)) as [mi|] eqn:Ei; [|discriminate].
  intros H. inversion H; subst. clear H.
  apply search_sound in Ei.
  destruct Ei as (pv2 & rs2 & st2 & _ & _ & Hm2 & Hg).
  cbn [Regex.seq] in Hm2.
  apply m_seq_inv in Hm2. destruct Hm2 as (t1 & T1 & T2).
  apply m_lit_units_inv in T1. destruct T1 as (_ & _ & C1).
  apply m_group_plus_inv in T2. destruct T2 as (f & Hf & Hcl & _ & _ & C2).
  rewrite Hg, C2, C1. cbn [caps app nth]. exact Hf.
Qed.

Lemma hoare_extractConversation_wf L location docTitle options :
  hoare L (extractConversation location docTitle options)
        (fun r =>
           match data r with
           | Some c =>
               success r = true /\ error r = None /\
               c_id c <> [] /\ c_title c <> [] /\ url c = location /\
               messages c <> [] /\ messageCount c = length (messages c) /\
               Forall wellFormed (messages c) /\ increasing (messages c)
           | None =>
               success r = false /\ exists e, error r = Some e /\ e <> []
           end).
Proof.
  unfold extractConversation.
  apply hoare_bind_any; [apply hoare_any_reads | intros pg].
  destruct (negb (isConversationPage pg)).
  { apply hoare_ret. simpl. split; [reflexivity|].
    eexists. split; [reflexivity | discriminate]. }
  destruct (getConversationIdFromUrl pg) as [cid|] eqn:Eid.
  2:{ apply hoare_ret. simpl. split; [reflexivity|].
      eexists. split; [reflexivity | discriminate]. }
  eapply hoare_bind; [apply hoare_extractMessages_wf|].
  intros mr Hmr. cbv beta in Hmr. destruct (data mr) as [msgs|] eqn:Ed.
  - destruct Hmr as (Hs & He & Hne & Hwf & Hinc). rewrite Hs.
    apply hoare_ret. simpl. repeat split; try assumption.
    + now apply conversation_id_shape in Eid.
    + apply title_is_nonempty.
  - destruct Hmr as (Hs & e & He & Hne). rewrite Hs.
    apply hoare_ret. simpl. split; [reflexivity|].
    eexists. split; [reflexivity|]. rewrite He. simpl.
    destruct (truthy e) eqn:Te; [exact Hne | discriminate].
Qed.


End ExtractionResults.

(** ** Text with and without formulas *)

Section PlainText.

Import Dom Selectors Parser.

Lemma search_free T r : forall rs pv,
  needs T r = true -> free_of T rs -> search r pv rs = None.
Proof.
  induction rs as [|c rs IH]; intros pv Hn Hf; simpl;
    rewrite (exec_at_needs T r) by assumption; [reflexivity|].
  inversion Hf; subst. now apply IH.
Qed.

Lemma exec_scan_needs T r : forall rs pv,
  needs T r = true -> free_of T rs -> exec_scan r pv rs 0 = [].
Proof.
  induction rs as [|c rs IH]; intros pv Hn Hf; simpl;
    rewrite (exec_at_needs T r) by assumption; [reflexivity|].
  inversion Hf; subst. now apply IH.
Qed.

Lemma free_of_sub T T' s :
  (forall c, mem c T = true -> mem c T' = true) ->
  free_of T' s -> free_of T s.
Proof.
  intros H. unfold free_of. apply Forall_impl. intros c Hc.
  destruct (mem c T) eqn:E; [|reflexivity].
  apply H in E. congruence.
Qed.

(** The dollar pattern of containsLatex finds a formula between single
    dollar signs wherever one starts. *)
Lemma dollar_test_hit pv f post :
  f <> [] -> no_unit dollar f ->
  exec_at (Regex.seq [lit "$"; notDollar; lit "$"]) pv
          (dollar :: f ++ dollar :: post) <> None.
Proof.
  intros Hf Hd. destruct f as [|x f]; [congruence|].
  inversion Hd as [|? ? Hx Hd']; subst.
  unfold exec_at. cbn [Regex.seq].
  change (lit "$") with (Chr (COne dollar)).
  change (m (Seq (Chr (COne dollar)) ?r) (MState pv (dollar :: ?rs) []))
    with (flat_map (m r) (m (Chr (COne dollar))
                            (MState pv (dollar :: rs) []))).
  cbn [m rest prev caps cmatch]. rewrite N.eqb_refl.
  cbn [flat_map]. rewrite app_nil_r. unfold notDollar, plus.
  change (m (Seq (Seq (Chr (CNot [dollar])) (Star (CNot [dollar])))
                 (Chr (COne dollar))) ?st)
    with (flat_map (m (Chr (COne dollar)))
            (flat_map (m (Star (CNot [dollar])))
                      (m (Chr (CNot [dollar])) st))).
  cbn [m rest prev caps app].
  replace (cmatch (CNot [dollar]) x) with true
    by (simpl; destruct (N.eqb_spec x dollar); [contradiction | reflexivity]).
  cbn [flat_map m rest prev caps]. rewrite app_nil_r.
  destruct (star_run dollar post f (x :: dollar :: pv) Hd')
    as (tail & E & _).
  rewrite E. cbn [map flat_map fst snd m rest prev caps cmatch].
  rewrite N.eqb_refl. discriminate.
Qed.

Lemma test_found r a b :
  exec_at r (rev a ++ []) b <> None -> test r (a ++ b) = true.
Proof.
  intros H. unfold test.
  pose proof (search_found r a [] b H) as F.
  destruct (search r [] (a ++ b)); [reflexivity | congruence].
Qed.

Lemma skipn_split {A} n (l t : list A) :
  skipn n l = t -> l = firstn n l ++ t.
Proof. intros <-. symmetry. apply firstn_skipn. Qed.

(** X16: containsLatex and the extraction of formulas agree in two ways.
    A text without dollar sign and without backslash is never taken for
    LaTeX: containsLatex is false, extractLatexExpressions finds nothing
    and createTextBlock records nothing. And whenever
    extractLatexExpressions finds an expression, containsLatex is true. *)
Theorem containsLatex_agrees (text : jsstring) :
  (free_of [92; 36]%N text ->
   containsLatex text = false /\ extractLatexExpressions text = [] /\
   forall options,
     createTextBlock text options =
     {| tb_content := text; hasLatex := false; latexExpressions := [] |}) /\
  (extractLatexExpressions text <> [] -> containsLatex text = true).
Proof.
  split.
  - intros Hf.
    assert (Hd : free_of [dollar] text).
    { eapply free_of_sub; [|exact Hf]. intros c. unfold dollar. cbn [mem].
      rewrite !orb_false_r. intros ->. apply orb_true_r. }
    split; [|split].
    + unfold containsLatex.
      destruct (existsb _ latexTests) eqn:E; [|reflexivity].
      apply existsb_exists in E. destruct E as (t & Hin & Ht).
      unfold test in Ht.
      rewrite (search_free [92; 36]%N) in Ht; [discriminate| |exact Hf].
      assert (A : forallb (fun t => needs [92; 36]%N (snd t)) latexTests
                  = true) by reflexivity.
      rewrite forallb_forall in A. now apply A.
    + unfold extractLatexExpressions, exec_all.
      rewrite (exec_scan_needs [dollar] blockRegex) by (reflexivity || exact Hd).
      rewrite (exec_scan_needs [dollar] guardedInlineRegex)
        by (reflexivity || exact Hd).
      reflexivity.
    + intros options. unfold createTextBlock, exec_all.
      rewrite (exec_scan_needs [dollar] blockRegex) by (reflexivity || exact Hd).
      rewrite (exec_scan_needs [dollar] inlineRegex)
        by (reflexivity || exact Hd).
      destruct (parseLaTeX options); reflexivity.
  - intros Hne.
    destruct (extractLatexExpressions text) as [|e es] eqn:E; [congruence|].
    assert (He : In e (extractLatexExpressions text))
      by (rewrite E; now left).
    apply extractLatexExpressions_spans in He.
    destruct He as (Hf & Hd & (tail & Hs) & _).
    apply skipn_split in Hs.
    unfold containsLatex, latexTests. cbn [existsb snd].
    apply orb_true_iff. left.
    unfold delimited in Hs. change (js "$") with [dollar] in Hs.
    change (js "$$") with [dollar; dollar] in Hs.
    destruct (e_isBlock e).
    + replace text
        with ((firstn (startIndex e) text ++ [dollar]) ++
              dollar :: e_raw e ++ dollar :: dollar :: tail).
      * apply test_found. now apply dollar_test_hit.
      * rewrite Hs at 2. cbn [app]. rewrite <- !app_assoc. reflexivity.
    + replace text
        with (firstn (startIndex e) text ++
              dollar :: e_raw e ++ dollar :: tail).
      * apply test_found. now apply dollar_test_hit.
      * rewrite Hs at 2. cbn [app]. rewrite <- !app_assoc. reflexivity.
Qed.

Lemma containsLatex_agrees_witness :
  containsLatex (js "plain words, nothing else") = false /\
  containsLatex (js "area $$\pi r^2$$") = true.
Proof.
  split.
  - apply (containsLatex_agrees (js "plain words, nothing else")).
    apply free_ofb_spec. reflexivity.
  - apply (containsLatex_agrees (js "area $$\pi r^2$$")).
    vm_compute. discriminate.
Defined.

End PlainText.

(** ** File names *)

Section FilenameFacts.

Lemma replace_scan_class cl t : forall s pv,
  replace_scan (Chr cl) [TLit t] pv s 0 =
  flat_map (fun x => if cmatch cl x then t else [x]) s.
Proof.
  induction s as [|x s IH]; intros pv; [reflexivity|].
  cbn [replace_scan flat_map]. unfold exec_at.
  cbn [m rest prev caps].
  destruct (cmatch cl x); cbn [hd_error rest caps length].
  - replace (S (length s) - length s) with 1 by lia.
    unfold expand. cbn [map expand1 JsString.concat].
    rewrite app_nil_r, IH. reflexivity.
  - rewrite IH. reflexivity.
Qed.

(** A global replacement makes its result of units of the input and of
    units of the replacement text. *)
Lemma replace_scan_units r tpl : forall s pv k x,
  In x (replace_scan r tpl pv s k) ->
  (exists cs, In x (expand tpl cs)) \/ In x s.
Proof.
  induction s as [|c s IH]; intros pv k x H.
  - destruct k; simpl in H; [|contradiction].
    destruct (exec_at r pv []) as [st'|]; [|contradiction].
    rewrite app_nil_r in H. left. eauto.
  - destruct k as [|k].
    + unfold replace_scan in H. fold replace_scan in H.
      destruct (exec_at r pv (c :: s)) as [st'|].
      * apply in_app_or in H. destruct H as [H|H]; [left; eauto|].
        destruct (length (c :: s) - length (rest st')).
        -- destruct H as [<-|H]; [right; now left|].
           destruct (IH _ _ _ H); [now left | right; now right].
        -- destruct (IH _ _ _ H); [now left | right; now right].
      * destruct H as [<-|H]; [right; now left|].
        destruct (IH _ _ _ H); [now left | right; now right].
    + simpl in H. destruct (IH _ _ _ H); [now left | right; now right].
Qed.

Lemma exec_at_plus cl pv c s :
  exec_at (plus cl) pv (c :: s) =
  if cmatch cl c
  then hd_error (map (fun p => MState (fst p) (snd p) [])
                     (star cl (c :: pv) s))
  else None.
Proof.
  unfold exec_at, plus. cbn [m rest prev caps].
  destruct (cmatch cl c); [|reflexivity].
  cbn [flat_map m rest prev caps]. now rewrite app_nil_r.
Qed.

(** Replacing the runs of a class leaves no unit of the class behind,
    except in the replacement text. *)
Lemma replace_scan_plus_units cl tpl : forall s pv k x,
  In x (replace_scan (plus cl) tpl pv s k) ->
  (exists cs, In x (expand tpl cs)) \/ (In x s /\ cmatch cl x = false).
Proof.
  induction s as [|c s IH]; intros pv k x H.
  - destruct k; simpl in H; contradiction.
  - destruct k as [|k].
    + unfold replace_scan in H. fold replace_scan in H.
      rewrite exec_at_plus in H.
      destruct (cmatch cl c) eqn:Hc.
      * destruct (star cl (c :: pv) s) as [|p ps] eqn:Es;
          [now apply star_nonempty in Es|].
        cbn [map hd_error rest] in H.
        assert (Hp : In p (star cl (c :: pv) s)) by (rewrite Es; now left).
        apply star_inv in Hp. destruct Hp as (l & El & _).
        apply in_app_or in H. destruct H as [H|H]; [left; eauto|].
        replace (length (c :: s) - length (snd p)) with (S (length l)) in H
          by (rewrite El at 1; cbn [length]; rewrite length_app; lia).
        destruct (IH _ _ _ H) as [?|[? ?]]; [now left|].
        right. split; [now right | assumption].
      * destruct H as [<-|H]; [right; split; [now left | exact Hc]|].
        destruct (IH _ _ _ H) as [?|[? ?]]; [now left|].
        right. split; [now right | assumption].
    + simpl in H. destruct (IH _ _ _ H) as [?|[? ?]]; [now left|].
      right. split; [now right | assumption].
Qed.

Lemma replace_scan_plus_free cl tpl : forall s pv,
  Forall (fun x => cmatch cl x = false) s ->
  replace_scan (plus cl) tpl pv s 0 = s.
Proof.
  induction s as [|c s IH]; intros pv H; [reflexivity|].
  inversion H as [|? ? Hc Hs]; subst.
  unfold replace_scan. fold replace_scan.
  rewrite exec_at_plus, Hc. now rewrite IH.
Qed.

Lemma In_firstn {A} n (l : list A) x : In x (firstn n l) -> In x l.
Proof.
  intros H. rewrite <- (firstn_skipn n l). apply in_or_app. now left.
Qed.

Lemma in_hyphen x cs : In x (expand [TLit [hyphen]] cs) -> x = hyphen.
Proof. simpl. intros [<-|[]]. reflexivity. Qed.

Lemma sanitizeFilename_units (filename : jsstring) x :
  In x (sanitizeFilename filename) ->
  mem x invalidUnits = false /\ is_space x = false.
Proof.
  unfold sanitizeFilename.
  intros H. apply In_firstn in H. unfold replace_all in H.
  apply replace_scan_units in H. destruct H as [[cs []]|H].
  apply replace_scan_units in H.
  destruct H as [[cs H]|H]; [apply in_hyphen in H; subst x; now split|].
  apply replace_scan_plus_units in H.
  destruct H as [[cs H]|[H Hs]];
    [apply in_hyphen in H; subst x; now split|].
  split; [|exact Hs].
  rewrite replace_scan_class in H. apply in_flat_map in H.
  destruct H as (y & _ & Hy). cbn [cmatch] in Hy.
  destruct (mem y invalidUnits) eqn:E.
  - destruct Hy as [<-|[]]. reflexivity.
  - destruct Hy as [<-|[]]. exact E.
Qed.

Lemma sanitizeFilename_length (filename : jsstring) :
  length (sanitizeFilename filename) <= 200.
Proof. unfold sanitizeFilename. apply firstn_le_length. Qed.

(** X17: the name sanitizeFilename returns is safe and short: it has at
    most 200 code units, and none of them is one of the nine characters a
    file name may not hold or a white-space character. *)
Theorem sanitizeFilename_safe (filename : jsstring) :
  length (sanitizeFilename filename) <= 200 /\
  forall x, In x (sanitizeFilename filename) ->
            mem x invalidUnits = false /\ is_space x = false.
Proof.
  split; [apply sanitizeFilename_length|].
  intros x. apply sanitizeFilename_units.
Qed.

(** X18: sanitizeFilename changes nothing in a clean name: a name of at
    most 200 units without dash, white space and the nine invalid
    characters is returned as it is. *)
Theorem sanitizeFilename_clean (filename : jsstring) :
  length filename <= 200 ->
  free_of (hyphen :: invalidUnits) filename ->
  Forall (fun x => is_space x = false) filename ->
  sanitizeFilename filename = filename.
Proof.
  intros Hl Hf Hs. unfold sanitizeFilename, replace_all.
  rewrite (replace_scan_free invalidUnits (Chr (COneOf invalidUnits)));
    [|reflexivity|].
  2:{ eapply free_of_sub; [|exact Hf]. intros c Hc. cbn [mem].
      rewrite Hc. apply orb_true_r. }
  rewrite (replace_scan_plus_free CSpace) by exact Hs.
  assert (Hh : free_of [hyphen] filename).
  { eapply free_of_sub; [|exact Hf]. intros c. cbn [mem].
    rewrite orb_false_r. now intros ->. }
  rewrite (replace_scan_free [hyphen] (plus (COne hyphen)))
    by (reflexivity || exact Hh).
  rewrite (replace_scan_free [hyphen]) by (reflexivity || exact Hh).
  now apply firstn_all2.
Qed.

Lemma sanitizeFilename_clean_witness :
  sanitizeFilename (js "Notes_on_Fourier_series") =
  js "Notes_on_Fourier_series".
Proof.
  apply sanitizeFilename_clean.
  - vm_compute. lia.
  - apply free_ofb_spec. reflexivity.
  - repeat constructor.
Defined.

(** What the steps do to a title with invalid characters and blanks, and
    that nothing may be left of a name. *)
Example sanitizeFilename_samples :
  sanitizeFilename (js "What is 2/3 of x?  (draft)") =
    js "What-is-2-3-of-x-(draft)" /\
  sanitizeFilename (js "???") = [].
Proof. split; vm_compute; reflexivity. Qed.

End FilenameFacts.

(** ** Validation of the selectors *)

Section ValidatedSelectors.

Import Dom Selectors.

Lemma querySelectorAll_mono t p s1 s2 :
  (forall nd ancs, matches_selector nd ancs s1 = true ->
                   matches_selector nd ancs s2 = true) ->
  querySelectorAll t p s1 <> [] -> querySelectorAll t p s2 <> [].
Proof.
  intros Hm. unfold querySelectorAll.
  induction (descendants t p) as [|x l IH]; simpl; [congruence|].
  destruct (matches_selector (snd (fst x)) (snd x) s1) eqn:E1.
  - rewrite (Hm _ _ E1). discriminate.
  - intros H. destruct (matches_selector (snd (fst x)) (snd x) s2);
      [discriminate | now apply IH].
Qed.

Lemma matches_any_of_sub nd ancs (cs1 cs2 : list compound) :
  (forall c, In c cs1 -> In c cs2) ->
  matches_selector nd ancs (any_of cs1) = true ->
  matches_selector nd ancs (any_of cs2) = true.
Proof.
  intros Hsub H. unfold matches_selector, any_of in *.
  apply existsb_exists in H. destruct H as (cx & Hin & Hcx).
  apply in_map_iff in Hin. destruct Hin as (c & <- & Hc).
  apply existsb_exists. exists (one c). split; [|exact Hcx].
  apply in_map. now apply Hsub.
Qed.

Lemma nonempty_length {A} (l : list A) : l <> [] -> (0 <? length l) = true.
Proof. destruct l; [congruence | reflexivity]. Qed.

Lemma empty_length {A} (l : list A) : (0 <? length l) = false -> l = [].
Proof. destruct l; [reflexivity | discriminate]. Qed.

Lemma querySelector_some t p sel :
  querySelectorAll t p sel <> [] -> isSome (querySelector t p sel) = true.
Proof.
  unfold querySelector. destruct (querySelectorAll t p sel);
    [congruence | reflexivity].
Qed.

Lemma querySelector_none t p sel :
  isSome (querySelector t p sel) = false -> querySelectorAll t p sel = [].
Proof.
  unfold querySelector. destruct (querySelectorAll t p sel);
    [reflexivity | discriminate].
Qed.

Lemma grandparents_nil doc : grandparents doc [] = [].
Proof. reflexivity. Qed.

Lemma not_nonempty {A} (l : list A) : ~ l <> [] -> l = [].
Proof. destruct l; [reflexivity|]. intros H. exfalso. apply H. discriminate. Qed.

Lemma group_found doc :
  strategy1 doc <> [] \/ strategy2 doc <> [] \/ strategy3 doc <> [] ->
  (0 <? length (querySelectorAll doc [] sel_messageGroup)) ||
  (0 <? length (querySelectorAll doc [] sel_messageGroupFallback)) ||
  (0 <? length (querySelectorAll doc [] sel_article)) = true.
Proof.
  unfold strategy1, strategy2, strategy3.
  intros [H|[H|H]].
  - rewrite (nonempty_length _ H). apply orb_true_r.
  - rewrite (nonempty_length (querySelectorAll doc [] sel_messageGroup));
      [reflexivity|].
    revert H. apply querySelectorAll_mono. intros nd ancs.
    apply matches_any_of_sub. intros c [<-|[]]. simpl. tauto.
  - rewrite (nonempty_length (querySelectorAll doc [] sel_messageGroup));
      [reflexivity|].
    revert H. apply querySelectorAll_mono. intros nd ancs.
    apply matches_any_of_sub. intros c [<-|[]]. simpl. tauto.
Qed.

Lemma container_found doc :
  strategy4 doc <> [] ->
  isSome (querySelector doc [] sel_main) ||
  isSome (querySelector doc [] sel_role_main) = true.
Proof.
  unfold strategy4. destruct (querySelector doc [] sel_main);
    [reflexivity | congruence].
Qed.

Lemma content_found doc :
  strategy5 doc <> [] ->
  isSome (querySelector doc [] sel_messageContent) ||
  isSome (querySelector doc [] sel_messageContentFallback) = true.
Proof.
  unfold strategy5. intros H.
  rewrite querySelector_some; [reflexivity|].
  apply (querySelectorAll_mono doc [] sel_content).
  - intros nd ancs. apply matches_any_of_sub. simpl. tauto.
  - intros E. rewrite E in H. now apply H.
Qed.

Lemma findAllMessageElements_strategies doc :
  strategy1 doc = [] -> strategy2 doc = [] -> strategy3 doc = [] ->
  strategy4 doc = [] -> strategy5 doc = [] ->
  findAllMessageElements doc = [].
Proof.
  unfold strategy1, strategy2, strategy3, strategy4, strategy5.
  intros H1 H2 H3 H4 H5.
  unfold findAllMessageElements, findAllMessageElements_traced.
  unfold tbind, consult, tret. cbn [fst snd].
  rewrite H1. cbn [nonEmpty fst snd]. rewrite H2. cbn [nonEmpty fst snd].
  rewrite H3. cbn [nonEmpty fst snd]. rewrite H4. cbn [nonEmpty fst snd].
  destruct (querySelectorAll doc [] sel_content); [reflexivity|].
  cbn [nonEmpty fst snd]. exact H5.
Qed.

(** X19: validateSelectors is consistent with itself and with the search
    for message elements. It files each of the three names under working
    or under broken, never both, and is valid exactly when nothing is
    broken. Whenever one of the first three strategies of
    findAllMessageElements finds an element, messageGroup is working;
    whenever the fourth does, conversationContainer is working; whenever
    the fifth does, messageContent is working. So when all three names are
    broken, findAllMessageElements finds no element. *)
Theorem validateSelectors_consistent (doc : tree) :
  let v := validateSelectors doc in
  (valid v = true <-> broken v = []) /\
  (forall n,
     In n ["conversationContainer"; "messageGroup"; "messageContent"]%string ->
     (In n (working v) <-> ~ In n (broken v))) /\
  (strategy1 doc <> [] \/ strategy2 doc <> [] \/ strategy3 doc <> [] ->
   In "messageGroup"%string (working v)) /\
  (strategy4 doc <> [] -> In "conversationContainer"%string (working v)) /\
  (strategy5 doc <> [] -> In "messageContent"%string (working v)) /\
  (broken v =
   ["conversationContainer"; "messageGroup"; "messageContent"]%string ->
   findAllMessageElements doc = []).
Proof.
  pose proof (group_found doc) as G.
  pose proof (container_found doc) as C.
  pose proof (content_found doc) as K.
  pose proof (findAllMessageElements_strategies doc) as F.
  unfold validateSelectors. cbv zeta.
  set (b1 := isSome (querySelector doc [] sel_main) ||
             isSome (querySelector doc [] sel_role_main)) in *.
  set (b2 := (0 <? length (querySelectorAll doc [] sel_messageGroup)) ||
             (0 <? length (querySelectorAll doc [] sel_messageGroupFallback)) ||
             (0 <? length (querySelectorAll doc [] sel_article))) in *.
  set (b3 := isSome (querySelector doc [] sel_messageContent) ||
             isSome (querySelector doc [] sel_messageContentFallback)) in *.
  assert (F' : b1 = false -> b2 = false -> b3 = false ->
               findAllMessageElements doc = []).
  { intros E1 E2 E3. apply F; apply not_nonempty; intros H.
    - rewrite G in E2; [discriminate | now left].
    - rewrite G in E2; [discriminate | right; now left].
    - rewrite G in E2; [discriminate | right; now right].
    - rewrite C in E1; [discriminate | exact H].
    - rewrite K in E3; [discriminate | exact H]. }
  clearbody b1 b2 b3. clear F.
  destruct b1, b2, b3;
    cbn [record fst snd app valid working broken length Nat.eqb].
  all: split; [split; intros H; (reflexivity || discriminate H)|].
  all: split;
    [intros n Hn; simpl in Hn; destruct Hn as [<-|[<-|[<-|[]]]];
     (split;
      [ intros H Hb; simpl in H, Hb; intuition discriminate
      | intros Hb;
        first [ solve [simpl; repeat (first [left; reflexivity | right])]
              | exfalso; apply Hb;
                solve [simpl; repeat (first [left; reflexivity | right])] ] ])
    |].
  all: split;
    [intros H;
     first [ specialize (G H); discriminate G
           | solve [simpl; repeat (first [left; reflexivity | right])] ]|].
  all: split;
    [intros H;
     first [ specialize (C H); discriminate C
           | solve [simpl; repeat (first [left; reflexivity | right])] ]|].
  all: split;
    [intros H;
     first [ specialize (K H); discriminate K
           | solve [simpl; repeat (first [left; reflexivity | right])] ]|].
  all: intros H; first [discriminate H | now apply F'].
Qed.

End ValidatedSelectors.

(** ** Elements that hold text only *)

Section TextOnly.

Import Dom Selectors Parser.
Local Open Scope dom_scope.

Lemma walk_kids_text ancs p : forall l i,
  Forall (fun k => is_element k = false) l -> walk_kids ancs p l i = [].
Proof.
  induction l as [|k l IH]; intros i H; [reflexivity|].
  inversion H as [|? ? Hk Hl]; subst. simpl.
  destruct k; [discriminate|]. simpl. now apply IH.
Qed.

Lemma qsa_text_only w n sel tag attrs ks :
  nth n (scratch w) (Text []) = Elem tag attrs ks ->
  Forall (fun k => is_element k = false) ks ->
  qsa (Handle (Scratch n) []) sel w = ([], w).
Proof.
  intros Hn Hk. unfold qsa, reads. f_equal.
  unfold querySelectorAll, descendants, node_at.
  cbn [h_root h_path tree_of top get is_document]. rewrite Hn.
  cbn [kids]. now rewrite walk_kids_text.
Qed.

Lemma bind_qsa_text_only {B} w n sel tag attrs ks
      (body : handle -> M unit) (k : M B) :
  nth n (scratch w) (Text []) = Elem tag attrs ks ->
  Forall (fun k => is_element k = false) ks ->
  (els <- qsa (Handle (Scratch n) []) sel ;; forEach els body ;;; k) w = k w.
Proof.
  intros Hn Hk. unfold bind at 1.
  rewrite (qsa_text_only w n sel tag attrs ks Hn Hk). reflexivity.
Qed.

(** X20: getElementTextWithStructure returns the text of an element that
    has text children only as it is: nothing is rewritten and, whatever
    the tag of the element, no line break is added, because the rewriting
    steps look at the elements inside the clone, never at the clone
    itself. *)
Theorem getElementTextWithStructure_text_only (w : world) (element : handle)
        (tag : jsstring) (attrs : list (jsstring * jsstring))
        (ks : list node) :
  node_at (tree_of w (h_root element)) (h_path element) =
    Some (Elem tag attrs ks) ->
  Forall (fun k => is_element k = false) ks ->
  fst (getElementTextWithStructure element w) =
  textContent (Elem tag attrs ks).
Proof.
  intros Hn Hk. unfold getElementTextWithStructure.
  set (w1 := World (live w) (scratch w ++ [Elem tag attrs ks])).
  assert (Hc : cloneNode element w =
               (Handle (Scratch (length (scratch w))) [], w1)).
  { unfold cloneNode, node_or_empty. now rewrite Hn. }
  unfold bind at 1. rewrite Hc. cbn [fst snd].
  assert (H1 : nth (length (scratch w)) (scratch w1) (Text []) =
               Elem tag attrs ks).
  { unfold w1. cbn [scratch]. rewrite app_nth2 by lia.
    now rewrite Nat.sub_diag. }
  do 7 (rewrite (bind_qsa_text_only w1 _ _ tag attrs ks _ _ H1 Hk)).
  unfold textOf, reads, text_of, node_at.
  cbn [fst h_root h_path tree_of top get]. now rewrite H1.
Qed.

Lemma getElementTextWithStructure_text_only_witness :
  fst (getElementTextWithStructure
         (Handle Live [0])
         (World (Elem (js "html") []
                   [Elem (js "p") [] [Text (js "two "); Text (js "parts")]])
                [])) =
  js "two parts".
Proof.
  apply (getElementTextWithStructure_text_only
           (World (Elem (js "html") []
                     [Elem (js "p") [] [Text (js "two "); Text (js "parts")]])
                  [])
           (Handle Live [0]) (js "p") []
           [Text (js "two "); Text (js "parts")]).
  - reflexivity.
  - repeat constructor.
Defined.

End TextOnly.

(** ** The repair of extracted formulas *)

Section ExtractedFormulas.

Import Dom Selectors Parser.

(** X21: cleanExtractedLatex, the repair pass the parser applies to the
    source of a formula read from the page, returns every formula without
    backslash, vertical bar, brace and opening parenthesis as it is; on
    such formulas it is idempotent. *)
Theorem cleanExtractedLatex_trigger_free (x : jsstring) :
  free_of [92; 124; 123; 125; 40]%N x ->
  cleanExtractedLatex x = x /\
  cleanExtractedLatex (cleanExtractedLatex x) = cleanExtractedLatex x.
Proof.
  intros Hf.
  assert (E : cleanExtractedLatex x = x).
  { unfold cleanExtractedLatex.
    apply (apply_rules_free [92; 124; 123; 125; 40]%N);
      [reflexivity | exact Hf]. }
  split; [exact E | now rewrite !E].
Qed.

Lemma cleanExtractedLatex_trigger_free_witness :
  cleanExtractedLatex (js "x^2 + y^2 = z^2") = js "x^2 + y^2 = z^2".
Proof.
  apply (cleanExtractedLatex_trigger_free (js "x^2 + y^2 = z^2")).
  apply free_ofb_spec. reflexivity.
Defined.

(** With a backslash the pass is not idempotent: a second run rewrites
    what the first one produced. *)
Example cleanExtractedLatex_not_idempotent :
  cleanExtractedLatex (js "\underline{\underline{x}}") = js "\underline{x}" /\
  cleanExtractedLatex (js "\underline{x}") = js "x".
Proof. repeat split; vm_compute; reflexivity. Qed.

End ExtractedFormulas.

(** ** The guards of the message schemas *)

Section Guards.

Lemma has_In types t : has types t = true -> exists v, In v types /\ t = js v.
Proof.
  unfold has. intros H. apply existsb_exists in H.
  destruct H as (v & Hin & E). apply str_eqb_eq in E. eauto.
Qed.

(** X22: the three guards sort every value. A content-script message and
    a service-worker message are valid messages, and no value is both. A
    valid message that is neither has one of the four types
    GET_EXPORT_HISTORY, EXPORT_HISTORY_RESULT, DISMISS_DONATION_PROMPT and
    OPEN_OPTIONS_PAGE. The messages the creator functions build pass the
    guard of their side, whatever their arguments. *)
Theorem guards_sort_messages (msg : jsvalue) :
  (isContentScriptMessage msg = true ->
   isValidMessage msg = true /\ isServiceWorkerMessage msg = false) /\
  (isServiceWorkerMessage msg = true ->
   isValidMessage msg = true /\ isContentScriptMessage msg = false) /\
  (isValidMessage msg = true ->
   isContentScriptMessage msg = false ->
   isServiceWorkerMessage msg = false ->
   has otherTypes (typeField msg) = true) /\
  (forall c s k, isContentScriptMessage (createStartExportMessage c s k) = true) /\
  (forall c, isContentScriptMessage (createSaveConfigMessage c) = true) /\
  isContentScriptMessage createGetConfigMessage = true /\
  (forall j st p step,
     isServiceWorkerMessage (createExportProgressMessage j st p step) = true) /\
  (forall j f fmt u n,
     isServiceWorkerMessage (createExportCompleteMessage j f fmt u n) = true) /\
  (forall j e r sg,
     isServiceWorkerMessage (createExportErrorMessage j e r sg) = true).
Proof.
  assert (V : forall t, has VALID_MESSAGE_TYPES t = true ->
                has contentScriptTypes t = true /\
                has serviceWorkerTypes t = false \/
                has contentScriptTypes t = false /\
                has serviceWorkerTypes t = true \/
                has contentScriptTypes t = false /\
                has serviceWorkerTypes t = false /\
                has otherTypes t = true).
  { intros t H. apply has_In in H. destruct H as (v & Hin & ->).
    simpl in Hin.
    repeat (destruct Hin as [<-|Hin];
            [vm_compute; intuition congruence|]).
    contradiction. }
  unfold isContentScriptMessage, isServiceWorkerMessage.
  repeat split; try reflexivity.
  - destruct (isValidMessage msg); [reflexivity | discriminate].
  - destruct (isValidMessage msg) eqn:E; [|discriminate]. cbn [negb] in *.
    unfold isValidMessage, typeField in *.
    destruct (negb (String.eqb (typeOf msg) "object") || isNull msg);
      [discriminate|].
    destruct (field "type" msg); try discriminate.
    destruct (V _ E) as [[A B]|[[A B]|(A & B & _)]]; congruence.
  - destruct (isValidMessage msg); [reflexivity | discriminate].
  - destruct (isValidMessage msg) eqn:E; [|discriminate]. cbn [negb] in *.
    unfold isValidMessage, typeField in *.
    destruct (negb (String.eqb (typeOf msg) "object") || isNull msg);
      [discriminate|].
    destruct (field "type" msg); try discriminate.
    destruct (V _ E) as [[A B]|[[A B]|(A & B & _)]]; congruence.
  - intros E. rewrite E. cbn [negb]. intros Hc Hs.
    unfold isValidMessage, typeField in *.
    destruct (negb (String.eqb (typeOf msg) "object") || isNull msg);
      [discriminate|].
    destruct (field "type" msg); try discriminate.
    destruct (V _ E) as [[A B]|[[A B]|(A & B & C)]]; congruence.
Qed.

End Guards.

(** ** The elements a query returns *)

Section DistinctElements.

Import Dom Selectors.

Lemma node_induction (P : node -> Prop) :
  (forall d, P (Text d)) ->
  (forall t a ks, Forall P ks -> P (Elem t a ks)) ->
  forall nd, P nd.
Proof.
  intros HT HE. fix IH 1. intros [t a ks|d]; [|apply HT].
  apply HE. induction ks as [|k ks IHks]; constructor; [apply IH | exact IHks].
Qed.

Lemma walk_elem ancs p t a ks :
  walk ancs p (Elem t a ks) =
  (p, Elem t a ks, ancs) ::
  walk_kids ((Elem t a ks, false) :: ancs) p ks 0.
Proof.
  cbn [walk]. f_equal. generalize ((Elem t a ks, false) :: ancs) as c.
  generalize 0 as i.
  induction ks as [|k ks IH]; intros i c; [reflexivity|].
  cbn [walk_kids]. f_equal. apply IH.
Qed.

(** The paths of a list of visited elements. *)
Lemma in_walk_kids ancs p : forall l i x,
  In x (walk_kids ancs p l i) ->
  exists j k, i <= j /\ In k l /\ In x (walk ancs (p ++ [j]) k).
Proof.
  induction l as [|k l IH]; intros i x H; [destruct H|].
  cbn [walk_kids] in H. apply in_app_or in H. destruct H as [H|H].
  - exists i, k. repeat split; [lia | now left | exact H].
  - destruct (IH _ _ H) as (j & k' & Hj & Hk & Hx).
    exists j, k'. repeat split; [lia | now right | exact Hx].
Qed.

Lemma walk_prefix : forall nd ancs p x,
  In x (walk ancs p nd) -> exists q, fst (fst x) = p ++ q.
Proof.
  induction nd as [d|t a ks IH] using node_induction; intros ancs p x H.
  - destruct H.
  - rewrite walk_elem in H. destruct H as [<-|H].
    + exists []. simpl. now rewrite app_nil_r.
    + apply in_walk_kids in H. destruct H as (j & k & _ & Hk & Hx).
      rewrite Forall_forall in IH.
      destruct (IH _ Hk _ _ _ Hx) as [q E].
      exists (j :: q). rewrite E, <- app_assoc. reflexivity.
Qed.

Lemma walk_kids_NoDup ancs p : forall l i,
  Forall (fun k => forall ancs p,
            NoDup (map (fun x => fst (fst x)) (walk ancs p k))) l ->
  NoDup (map (fun x => fst (fst x)) (walk_kids ancs p l i)).
Proof.
  induction l as [|k l IH]; intros i H; [constructor|].
  inversion H as [|? ? Hk Hl]; subst.
  cbn [walk_kids]. rewrite map_app. apply NoDup_app.
  - apply Hk.
  - now apply IH.
  - intros q H1 H2.
    apply in_map_iff in H1. destruct H1 as (x & Ex & Hx).
    apply in_map_iff in H2. destruct H2 as (y & Ey & Hy).
    apply walk_prefix in Hx. destruct Hx as [q1 E1].
    apply in_walk_kids in Hy. destruct Hy as (j & k' & Hj & _ & Hy).
    apply walk_prefix in Hy. destruct Hy as [q2 E2].
    rewrite Ex in E1. rewrite Ey in E2. rewrite E1 in E2.
    rewrite <- !app_assoc in E2. apply app_inv_head in E2.
    simpl in E2. inversion E2. lia.
Qed.

Lemma walk_NoDup : forall nd ancs p,
  NoDup (map (fun x => fst (fst x)) (walk ancs p nd)).
Proof.
  induction nd as [d|t a ks IH] using node_induction; intros ancs p.
  - constructor.
  - rewrite walk_elem. cbn [map fst]. constructor.
    + intros H. apply in_map_iff in H. destruct H as (x & Ex & Hx).
      apply in_walk_kids in Hx. destruct Hx as (j & k & _ & _ & Hx).
      apply walk_prefix in Hx. destruct Hx as [q E].
      rewrite Ex in E. rewrite <- app_assoc in E.
      rewrite <- (app_nil_r p) in E at 1. apply app_inv_head in E.
      discriminate E.
    + now apply walk_kids_NoDup.
Qed.

Lemma NoDup_map_filter {A B} (f : A -> B) (g : A -> bool) l :
  NoDup (map f l) -> NoDup (map f (filter g l)).
Proof.
  induction l as [|x l IH]; simpl; intros H; [constructor|].
  inversion H as [|? ? Hx Hl]; subst.
  destruct (g x); [|now apply IH]. simpl. constructor; [|now apply IH].
  intros Hin. apply Hx. apply in_map_iff in Hin.
  destruct Hin as (y & E & Hy). apply filter_In in Hy.
  apply in_map_iff. exists y. tauto.
Qed.

Lemma querySelectorAll_NoDup t p sel : NoDup (querySelectorAll t p sel).
Proof.
  unfold querySelectorAll. apply NoDup_map_filter.
  unfold descendants. destruct (node_at t p) as [nd|]; [|constructor].
  apply walk_kids_NoDup. apply Forall_forall. intros k _.
  apply walk_NoDup.
Qed.

Lemma path_eqb_eq p : forall q, path_eqb p q = true <-> p = q.
Proof.
  induction p as [|i p IH]; intros [|j q]; simpl;
    try (split; [discriminate | congruence]); [tauto|].
  rewrite andb_true_iff, Nat.eqb_eq, IH. split.
  - intros [-> ->]. reflexivity.
  - intros E. inversion E. auto.
Qed.

Lemma set_add_NoDup x s : NoDup s -> NoDup (set_add x s).
Proof.
  intros H. unfold set_add. destruct (existsb (path_eqb x) s) eqn:E;
    [exact H|].
  apply NoDup_app; [exact H | repeat constructor; intros [] |].
  intros y Hy [Exy|[]]. subst y.
  assert (F : existsb (path_eqb x) s = true).
  { apply existsb_exists. exists x. split; [exact Hy|].
    now apply path_eqb_eq. }
  congruence.
Qed.

Lemma grandparents_NoDup doc els : NoDup (grandparents doc els).
Proof.
  unfold grandparents.
  assert (G : forall l acc, NoDup acc ->
            NoDup (fold_left
                     (fun parents el =>
                        match parentElement doc el with
                        | Some par =>
                            match parentElement doc par with
                            | Some gp => set_add gp parents
                            | None => parents
                            end
                        | None => parents
                        end) l acc)).
  { induction l as [|el l IH]; simpl; intros acc H; [exact H|].
    apply IH. destruct (parentElement doc el) as [par|]; [|exact H].
    destruct (parentElement doc par); [|exact H].
    now apply set_add_NoDup. }
  apply G. constructor.
Qed.

(** X23: findAllMessageElements never returns an element twice, whichever
    strategy supplies the result: a query lists every element once, the
    filter of the fourth strategy keeps that, and the fifth strategy
    collects the grandparents in a set. *)
Theorem findAllMessageElements_distinct (doc : tree) :
  NoDup (findAllMessageElements doc).
Proof.
  unfold findAllMessageElements, findAllMessageElements_traced.
  unfold tbind, consult, tret. cbn [fst snd].
  destruct (nonEmpty (querySelectorAll doc [] sel_article));
    [apply querySelectorAll_NoDup|]. cbn [fst snd].
  destruct (nonEmpty (querySelectorAll doc [] sel_turn));
    [apply querySelectorAll_NoDup|]. cbn [fst snd].
  destruct (nonEmpty (querySelectorAll doc [] sel_role));
    [apply querySelectorAll_NoDup|]. cbn [fst snd].
  match goal with
  | |- context [nonEmpty ?l] => destruct (nonEmpty l) eqn:E4
  end.
  - cbn [fst]. destruct (querySelector doc [] sel_main); [|constructor].
    apply NoDup_filter. apply querySelectorAll_NoDup.
  - cbn [fst snd].
    destruct (nonEmpty (querySelectorAll doc [] sel_content));
      [apply grandparents_NoDup | constructor].
Qed.

End DistinctElements.

(** ** The name of the exported file *)

Section GeneratedNames.

Import Parser ExportHandler.

Lemma startsWith_prefix : forall a b, startsWith a (a ++ b) = true.
Proof.
  induction a as [|c a IH]; intros b; [reflexivity|].
  simpl. now rewrite N.eqb_refl, IH.
Qed.

Lemma endsWith_suffix p s : endsWith p (s ++ p) = true.
Proof. unfold endsWith. rewrite rev_app_distr. apply startsWith_prefix. Qed.

Lemma extension_units format x :
  In x (js "." ++ js (FILE_EXTENSIONS format)) ->
  mem x invalidUnits = false /\ is_space x = false.
Proof.
  destruct format; simpl; intros H;
    repeat (destruct H as [<-|H]; [split; reflexivity|]);
    contradiction.
Qed.

Lemma extension_length format :
  length (js "." ++ js (FILE_EXTENSIONS format)) <= 5.
Proof. destruct format; simpl; lia. Qed.

(** X24: whatever the template, the conversation and the clock,
    generateFilename returns a name that ends with a period and the
    extension of the format, has at most 205 code units, and holds none of
    the nine characters a file name may not hold and no white space. *)
Theorem generateFilename_named (template : jsstring)
        (conversation : Conversation) (format : ExportFormat)
        (today now : jsstring) :
  let name := generateFilename template conversation format today now in
  endsWith (js "." ++ js (FILE_EXTENSIONS format)) name = true /\
  length name <= 205 /\
  forall x, In x name -> mem x invalidUnits = false /\ is_space x = false.
Proof.
  cbv zeta. unfold generateFilename.
  set (s := sanitizeFilename _).
  pose proof (sanitizeFilename_length
                (replaceAllString (lit "{timestamp}") now
                   (replaceAllString (lit "{date}") today
                      (replaceAllString (lit "{id}") (c_id conversation)
                         (replaceAllString (lit "{title}")
                            (c_title conversation) template))))) as Hl.
  fold s in Hl.
  pose proof (extension_length format) as He.
  destruct (endsWith (js "." ++ js (FILE_EXTENSIONS format)) s) eqn:E;
    cbn [negb].
  - split; [exact E|]. split; [lia|].
    intros x. apply sanitizeFilename_units.
  - split; [apply endsWith_suffix|]. split.
    + rewrite length_app. lia.
    + intros x Hx. apply in_app_or in Hx. destruct Hx as [Hx|Hx].
      * now apply sanitizeFilename_units in Hx.
      * now apply extension_units in Hx.
Qed.

Lemma getSubstitution_plain matched before after : forall replacement,
  free_of [36%N] replacement ->
  getSubstitution matched before after replacement = replacement.
Proof.
  induction replacement as [|c r IH]; intros H; [reflexivity|].
  inversion H as [|? ? Hc Hr]; subst. cbn [getSubstitution].
  cbn [mem] in Hc. rewrite orb_false_r in Hc. rewrite Hc.
  now rewrite IH.
Qed.

Lemma replace_scan_with_free T r f : forall rs pv,
  needs T r = true -> free_of T rs -> replace_scan_with r f pv rs 0 = rs.
Proof.
  induction rs as [|c rs IH]; intros pv Hn Hf; simpl;
    rewrite (exec_at_needs T r) by assumption; [reflexivity|].
  inversion Hf; subst. now rewrite IH.
Qed.

(** X25: with the default template, the file name is the sanitized title
    with the extension: for a title without dollar sign and opening brace,
    generateFilename on the template {title} returns
    sanitizeFilename(title), followed by a period and the extension unless
    it ends with them already. *)
Theorem generateFilename_default (conversation : Conversation)
        (format : ExportFormat) (today now : jsstring) :
  free_of [36; 123]%N (c_title conversation) ->
  generateFilename (js "{title}") conversation format today now =
  if endsWith (js "." ++ js (FILE_EXTENSIONS format))
              (sanitizeFilename (c_title conversation))
  then sanitizeFilename (c_title conversation)
  else sanitizeFilename (c_title conversation) ++
       js "." ++ js (FILE_EXTENSIONS format).
Proof.
  intros Hf. unfold generateFilename.
  assert (Hd : free_of [36%N] (c_title conversation)).
  { eapply free_of_sub; [|exact Hf]. intros c. cbn [mem].
    rewrite !orb_false_r. now intros ->. }
  assert (Hb : free_of [123%N] (c_title conversation)).
  { eapply free_of_sub; [|exact Hf]. intros c. cbn [mem].
    rewrite !orb_false_r. intros ->. apply orb_true_r. }
  assert (E1 : replaceAllString (lit "{title}") (c_title conversation)
                                (js "{title}") = c_title conversation).
  { unfold replaceAllString.
    change (js "{title}") with [123; 116; 105; 116; 108; 101; 125]%N.
    cbn [replace_scan_with]. unfold exec_at.
    set (h := hd_error (m _ _)). vm_compute in h. subst h.
    cbn [rest length Nat.sub firstn rev replace_scan_with].
    rewrite getSubstitution_plain by exact Hd. apply app_nil_r. }
  rewrite E1. unfold replaceAllString.
  rewrite (replace_scan_with_free [123%N] (lit "{id}"))
    by (reflexivity || exact Hb).
  rewrite (replace_scan_with_free [123%N] (lit "{date}"))
    by (reflexivity || exact Hb).
  rewrite (replace_scan_with_free [123%N] (lit "{timestamp}"))
    by (reflexivity || exact Hb).
  destruct (endsWith _ (sanitizeFilename (c_title conversation)));
    reflexivity.
Qed.

Lemma generateFilename_default_witness :
  generateFilename (js "{title}")
    {| c_id := js "abc"; c_title := js "Limits: a tour";
       url := js "u"; messages := []; messageCount := 0 |}
    Pdf (js "2025-01-01") (js "1735689600000") =
  js "Limits-a-tour.pdf".
Proof.
  rewrite (generateFilename_default
             {| c_id := js "abc"; c_title := js "Limits: a tour";
                url := js "u"; messages := []; messageCount := 0 |}
             Pdf (js "2025-01-01") (js "1735689600000")).
  - vm_compute. reflexivity.
  - apply free_ofb_spec. reflexivity.
Defined.

(** A dollar sign in the title is read as a replacement pattern, a
    placeholder in the title is filled in, and a title without any valid
    character leaves the extension alone. *)
Example generateFilename_edge_cases :
  generateFilename (js "{title}")
    {| c_id := js "abc"; c_title := js "cost $& tax";
       url := js "u"; messages := []; messageCount := 0 |}
    Pdf (js "2025-01-01") (js "1") = js "cost-{title}-tax.pdf" /\
  generateFilename (js "{title}")
    {| c_id := js "abc"; c_title := js "about {id}";
       url := js "u"; messages := []; messageCount := 0 |}
    Pdf (js "2025-01-01") (js "1") = js "about-abc.pdf" /\
  generateFilename (js "{title}")
    {| c_id := js "abc"; c_title := js "???";
       url := js "u"; messages := []; messageCount := 0 |}
    Pdf (js "2025-01-01") (js "1") = js ".pdf".
Proof. repeat split; vm_compute; reflexivity. Qed.

End GeneratedNames.
